(** * Expressive Code: highlighter caches and the remark document transform

    A shallow embedding of

    - [packages/@expressive-code/plugin-shiki/src/highlighter.ts]
      (module [Highlighter]): the process-wide highlighter cache, the
      per-highlighter task memoizer, and the theme and language loaders;
    - the remark plugin [remarkExpressiveCode] (module [Remark]): the
      per-document asset deduplication and the in-place replacement of code
      nodes.

    JavaScript objects with identity (promises, highlighters, themes, tree
    nodes) are numbered; module-level [Map]s and [WeakMap]s are finite maps
    keyed by those numbers or by strings.  An [async] function is a frame that
    runs to its first [await]; what remains is a defunctionalised continuation
    stored in the frame's own promise, resumed by a scheduler event. *)

From Stdlib Require Import ZArith Lia Ascii.
From Stdlib Require QArith.
From stdpp Require Import gmap strings list fin_maps.

Open Scope string_scope.
Open Scope list_scope.

Set Warnings "-clear-no-such-hyp".

(** ** JavaScript array helpers shared by both modules *)

(** [Array.prototype.includes] on an array of strings. *)
Definition includes (x : string) (l : list string) : bool :=
  bool_decide (x ∈ l).

Lemma includes_elem_of x l : includes x l = true → x ∈ l.
Proof. apply bool_decide_eq_true_1. Qed.

Lemma elem_of_includes x l : x ∈ l → includes x l = true.
Proof. apply bool_decide_eq_true_2. Qed.

Lemma append_inj (s a b : string) : s +:+ a = s +:+ b → a = b.
Proof. induction s as [|c s IH]; simpl; intros H; [done|]. injection H; auto. Qed.

(** [[...new Set(l)]]: the distinct elements in order of first occurrence. *)
Fixpoint setOf_from (seen : list string) (l : list string) : list string :=
  match l with
  | [] => []
  | x :: l' =>
      if includes x seen then setOf_from seen l'
      else x :: setOf_from (x :: seen) l'
  end.

Definition setOf (l : list string) : list string := setOf_from [] l.

Lemma setOf_from_spec seen l :
  NoDup (setOf_from seen l)
  ∧ ∀ x, x ∈ setOf_from seen l ↔ x ∈ l ∧ x ∉ seen.
Proof.
  revert seen. induction l as [|y l IH]; intros seen; simpl.
  - split; [apply NoDup_nil_2|]. intros x. rewrite elem_of_nil. tauto.
  - destruct (includes y seen) eqn:Hy.
    + apply includes_elem_of in Hy. destruct (IH seen) as [Hnd Hin].
      split; [done|]. intros x. rewrite Hin, elem_of_cons.
      split; [tauto|]. intros [[->|?] ?]; tauto.
    + assert (y ∉ seen)
        by (intros ?%elem_of_includes; congruence).
      destruct (IH (y :: seen)) as [Hnd Hin]. split.
      * apply NoDup_cons. split; [|done].
        rewrite Hin, elem_of_cons. tauto.
      * intros x. rewrite !elem_of_cons, Hin, elem_of_cons.
        destruct (decide (x = y)) as [->|]; tauto.
Qed.

Module Highlighter.

(** ** Data *)

(** Object identities. *)
Abbreviation pid := nat.   (* a Promise *)
Abbreviation hid := nat.   (* a Shiki Highlighter *)
Abbreviation tid := nat.   (* an ExpressiveCodeTheme *)

(** The part of a TextMate grammar registration this module reads. *)
Record LanguageRegistration := {
  lang_name : string;
  scopeName : string;
  embeddedLangsLazy : option (list string);
}.

(** [LanguageInput = MaybeGetter<MaybeArray<LanguageRegistration>>], taken in
    its resolved array form. *)
Definition LanguageInput := list LanguageRegistration.

(** The [config] parameter of [getCachedHighlighter]. *)
Record Config := { langs : option (list LanguageInput) }.

Record ThemeSetting := {
  setting_scope : list string;
  setting_foreground : option string;
  setting_fontStyle : option string;
}.

(** An [ExpressiveCodeTheme] object: its identity and the properties read
    here. *)
Record ExpressiveCodeTheme := {
  theme_id : tid;
  name : string;
  bg : string;
  fg : string;
  settings : option (list ThemeSetting);
}.

(** The two object shapes this module passes to [getStableObjectHash]. *)
Inductive StableHashInput :=
| HashConfig (config : Config)
| HashThemeContent (bg fg : string) (settings : option (list ThemeSetting)).

(** An entry of the [langs] array handed to Shiki's [getHighlighter]. *)
Inductive LangArg :=
| CustomLang (l : LanguageInput)
| BundledLang (key : string).

(** Settled values of the promises that occur. *)
Inductive value :=
| VUndefined
| VString (s : string)
| VHighlighter (h : hid)
| VModule (default : list LanguageRegistration).

Definition error := string.

(** Resumption points of the [async] functions of the file. *)
Inductive kont :=
| KReturn
    (* [return <promise>] of an async function, and
       [const x = await p; return x] (line 63-85) *)
| KReturnConst (v : value)
    (* [await p; return v] (lines 53-58 and 82-83) *)
| KLangImported (highlighter : hid) (language : string)
    (loadedLanguages : list string) (isLoaded isSpecial : bool).
    (* after [await bundledLanguages[language]()] (line 76) *)

(** A promise object. *)
Inductive cell :=
| Pending                        (* returned by an external call, unsettled *)
| Awaiting (p : pid) (k : kont)  (* an async frame suspended on [p] *)
| Fulfilled (v : value)
| Rejected (e : error).

(** What a Shiki highlighter reports through [getLoadedThemes] and
    [getLoadedLanguages]. *)
Record Engine := {
  loadedThemes : list string;
  loadedLanguages : list string;
}.

(** The theme object handed to [highlighter.loadTheme] (line 54). *)
Record ThemeRegistration := {
  reg_source : ExpressiveCodeTheme;     (* [...theme] *)
  reg_name : string;                    (* [name: cacheKey] *)
  reg_settings : list ThemeSetting;     (* [settings: theme.settings ?? []] *)
}.

(** Calls that leave the module.  Each returns a new pending promise. *)
Inductive Call :=
| getHighlighter (themes : list string) (langs : list LangArg)
| loadTheme (highlighter : hid) (theme : ThemeRegistration)
| loadLanguage (highlighter : hid) (langs : list string)
| importBundled (language : string).

(** The module's state: the three module-level tables of lines 16-18, the
    promise objects, the engines, and the log of external calls together
    with the promise each returned. *)
Record State := {
  promises : list cell;
  highlighterPromiseByConfig : gmap string pid;
  promisesByHighlighter : gmap hid (gmap string pid);
  themeCacheKeys : gmap tid string;
  engines : gmap hid Engine;
  calls : list (pid * Call);
}.

Definition init : State := {|
  promises := [];
  highlighterPromiseByConfig := ∅;
  promisesByHighlighter := ∅;
  themeCacheKeys := ∅;
  engines := ∅;
  calls := [];
|}.

(** ** A state monad for the synchronous stretches *)

Definition M (A : Type) : Type := State → A * State.

Definition ret {A} (a : A) : M A := λ s, (a, s).
Definition bind {A B} (m : M A) (f : A → M B) : M B :=
  λ s, let (a, s') := m s in f a s'.
Definition gets {A} (f : State → A) : M A := λ s, (f s, s).
Definition modify (f : State → State) : M unit := λ s, (tt, f s).

Notation "'let!' x ':=' m 'in' k" := (bind m (λ x, k))
  (at level 10, x name, m at level 100, k at level 200).
Notation "m ';;' k" := (bind m (λ _, k))
  (at level 100, k at level 200, right associativity).

Definition set_promises (f : list cell → list cell) (s : State) : State :=
  {| promises := f (promises s);
     highlighterPromiseByConfig := highlighterPromiseByConfig s;
     promisesByHighlighter := promisesByHighlighter s;
     themeCacheKeys := themeCacheKeys s;
     engines := engines s;
     calls := calls s |}.

Definition set_highlighterPromiseByConfig
    (f : gmap string pid → gmap string pid) (s : State) : State :=
  {| promises := promises s;
     highlighterPromiseByConfig := f (highlighterPromiseByConfig s);
     promisesByHighlighter := promisesByHighlighter s;
     themeCacheKeys := themeCacheKeys s;
     engines := engines s;
     calls := calls s |}.

Definition set_promisesByHighlighter
    (f : gmap hid (gmap string pid) → gmap hid (gmap string pid))
    (s : State) : State :=
  {| promises := promises s;
     highlighterPromiseByConfig := highlighterPromiseByConfig s;
     promisesByHighlighter := f (promisesByHighlighter s);
     themeCacheKeys := themeCacheKeys s;
     engines := engines s;
     calls := calls s |}.

Definition set_themeCacheKeys
    (f : gmap tid string → gmap tid string) (s : State) : State :=
  {| promises := promises s;
     highlighterPromiseByConfig := highlighterPromiseByConfig s;
     promisesByHighlighter := promisesByHighlighter s;
     themeCacheKeys := f (themeCacheKeys s);
     engines := engines s;
     calls := calls s |}.

Definition set_engines
    (f : gmap hid Engine → gmap hid Engine) (s : State) : State :=
  {| promises := promises s;
     highlighterPromiseByConfig := highlighterPromiseByConfig s;
     promisesByHighlighter := promisesByHighlighter s;
     themeCacheKeys := themeCacheKeys s;
     engines := f (engines s);
     calls := calls s |}.

Definition set_calls
    (f : list (pid * Call) → list (pid * Call)) (s : State) : State :=
  {| promises := promises s;
     highlighterPromiseByConfig := highlighterPromiseByConfig s;
     promisesByHighlighter := promisesByHighlighter s;
     themeCacheKeys := themeCacheKeys s;
     engines := engines s;
     calls := f (calls s) |}.

(** [new Promise]: the next unused identity. *)
Definition alloc (c : cell) : M pid :=
  λ s, (length (promises s), set_promises (λ l, l ++ [c]) s).

(** Settling or resuming the promise [p]. *)
Definition set_cell (p : pid) (c : cell) : M unit :=
  modify (set_promises (λ l, <[p := c]> l)).

(** An external asynchronous call: logged, answered by a pending promise. *)
Definition external (c : Call) : M pid :=
  let! p := alloc Pending in
  modify (set_calls (λ l, l ++ [(p, c)])) ;;
  ret p.

Definition getLoadedThemes (highlighter : hid) : M (list string) :=
  gets (λ s, default [] (loadedThemes <$> engines s !! highlighter)).

Definition getLoadedLanguages (highlighter : hid) : M (list string) :=
  gets (λ s, default [] (loadedLanguages <$> engines s !! highlighter)).

Section Shiki.

(** [getStableObjectHash] of [@expressive-code/core], and Shiki's
    [isSpecialLang] and [Object.keys(bundledLanguages)]. *)
Variable getStableObjectHash : StableHashInput → string.
Variable isSpecialLang : string → bool.
Variable bundledLanguages : list string.

(** ** [getCachedHighlighter] (lines 23-41) *)

(** Lines 27-33: the [langs] array.  With custom languages, all bundled
    languages are loaded along with them. *)
Definition langsOf (config : Config) : list LangArg :=
  match langs config with
  | Some (l :: ls) =>
      (CustomLang <$> (l :: ls)) ++ (BundledLang <$> bundledLanguages)
  | _ => []
  end.

Definition getCachedHighlighter (config : Config) : M pid :=
  let configCacheKey := getStableObjectHash (HashConfig config) in
  let! cached := gets (λ s, highlighterPromiseByConfig s !! configCacheKey) in
  let! highlighterPromise :=
    match cached with
    | Some p => ret p
    | None =>
        let! p := external (getHighlighter [] (langsOf config)) in
        modify (set_highlighterPromiseByConfig (<[configCacheKey := p]>)) ;;
        ret p
    end in
  (* an async function answers with a promise of its own, resolved with
     the returned promise *)
  alloc (Awaiting highlighterPromise KReturn).

(** ** [memoizeHighlighterTask] (lines 95-107) *)

(** Lines 96-100: the task map of [highlighter], created on first use. *)
Definition ensureTaskMap (highlighter : hid) : M unit :=
  let! existing := gets (λ s, promisesByHighlighter s !! highlighter) in
  match existing with
  | None => modify (set_promisesByHighlighter (<[highlighter := ∅]>))
  | Some _ => ret tt
  end.

(** Line 104: [promises.set(taskId, promise)], on the map object that
    [promisesByHighlighter] holds for [highlighter]. *)
Definition recordTask (highlighter : hid) (taskId : string) (p : pid)
    : M unit :=
  modify (set_promisesByHighlighter
            (λ m, <[highlighter :=
                      <[taskId := p]> (default ∅ (m !! highlighter))]> m)).

Definition memoizeHighlighterTask
    (highlighter : hid) (taskId : string) (taskFn : M pid) : M pid :=
  ensureTaskMap highlighter ;;
  let! promise :=
    gets (λ s, promisesByHighlighter s !! highlighter ≫= (.!! taskId)) in
  match promise with
  | Some p => ret p
  | None =>
      let! p := taskFn in
      recordTask highlighter taskId p ;;
      ret p
  end.

(** ** [ensureThemeIsLoaded] (lines 43-59) *)

Definition themeContentHash (theme : ExpressiveCodeTheme) : string :=
  getStableObjectHash (HashThemeContent (bg theme) (fg theme) (settings theme)).

Definition themeUsingCacheKey
    (theme : ExpressiveCodeTheme) (cacheKey : string) : ThemeRegistration :=
  {| reg_source := theme;
     reg_name := cacheKey;
     reg_settings := default [] (settings theme) |}.

(** JavaScript's [!existingCacheKey]: undefined or the empty string. *)
Definition falsy (k : option string) : bool :=
  match k with
  | None => true
  | Some s => bool_decide (s = "")
  end.

Definition ensureThemeIsLoaded
    (highlighter : hid) (theme : ExpressiveCodeTheme) : M pid :=
  let! existingCacheKey := gets (λ s, themeCacheKeys s !! theme_id theme) in
  let cacheKey :=
    match existingCacheKey with
    | Some k => k
    | None => name theme +:+ "-" +:+ themeContentHash theme
    end in
  (if falsy existingCacheKey
   then modify (set_themeCacheKeys (<[theme_id theme := cacheKey]>))
   else ret tt) ;;
  let! loaded := getLoadedThemes highlighter in
  if negb (includes cacheKey loaded) then
    let! task :=
      memoizeHighlighterTask highlighter ("loadTheme:" +:+ cacheKey)
        (external (loadTheme highlighter (themeUsingCacheKey theme cacheKey))) in
    alloc (Awaiting task (KReturnConst (VString cacheKey)))
  else
    alloc (Fulfilled (VString cacheKey)).

(** ** [ensureLanguageIsLoaded] (lines 61-86) *)

(** Lines 81-83, reached with [langsToLoad] holding the missing embedded
    languages.  The result is the state of the task's promise. *)
Definition loadLanguages
    (highlighter : hid) (language : string) (missingEmbeddedLangs : list string)
    (isLoaded isSpecial : bool) : M cell :=
  let langsToLoad :=
    missingEmbeddedLangs ++
    (if negb isLoaded && negb isSpecial then [language] else []) in
  match langsToLoad with
  | _ :: _ =>
      let! p := external (loadLanguage highlighter langsToLoad) in
      ret (Awaiting p (KReturnConst (VString language)))
  | [] => ret (Fulfilled (VString language))
  end.

(** The task function of lines 63-84, up to its first [await]. *)
Definition languageTask (highlighter : hid) (language : string) : M pid :=
  let! loadedLanguages := getLoadedLanguages highlighter in
  let isLoaded := includes language loadedLanguages in
  let isSpecial := isSpecialLang language in
  let isBundled := includes language bundledLanguages in
  let isAvailable := isLoaded || isSpecial || isBundled in
  if negb isAvailable then alloc (Fulfilled (VString "txt"))
  else if includes language ["md"; "markdown"; "mdx"] then
    if isBundled then
      let! imported := external (importBundled language) in
      alloc (Awaiting imported
               (KLangImported highlighter language loadedLanguages
                  isLoaded isSpecial))
    else
      (* [bundledLanguages[language]] is undefined and cannot be called *)
      alloc (Rejected "TypeError")
  else
    let! c := loadLanguages highlighter language [] isLoaded isSpecial in
    alloc c.

Definition ensureLanguageIsLoaded (highlighter : hid) (language : string)
    : M pid :=
  let! task :=
    memoizeHighlighterTask highlighter ("loadLanguage:" +:+ language)
      (languageTask highlighter language) in
  alloc (Awaiting task KReturn).

(** ** Resuming a suspended frame *)

(** Lines 77-78. *)
Definition missingEmbeddedLangs
    (bundledLang : list LanguageRegistration) (loadedLanguages : list string)
    : list string :=
  let embedded :=
    setOf (flat_map (λ lang, default [] (embeddedLangsLazy lang)) bundledLang) in
  filter (λ lang, negb (includes lang loadedLanguages)) embedded.

(** The frame continues at [k] with the outcome [r] of the awaited promise.
    No function of the file catches: a rejection rejects the frame. *)
Definition resume (k : kont) (r : value + error) : M cell :=
  match r with
  | inr e => ret (Rejected e)
  | inl v =>
      match k with
      | KReturn => ret (Fulfilled v)
      | KReturnConst c => ret (Fulfilled c)
      | KLangImported highlighter language loadedLanguages isLoaded isSpecial =>
          match v with
          | VModule bundledLang =>
              loadLanguages highlighter language
                (missingEmbeddedLangs bundledLang loadedLanguages)
                isLoaded isSpecial
          | _ => ret (Rejected "TypeError")
          end
      end
  end.

Definition settled (c : option cell) : option (value + error) :=
  match c with
  | Some (Fulfilled v) => Some (inl v)
  | Some (Rejected e) => Some (inr e)
  | _ => None
  end.

Definition cell_of (r : value + error) : cell :=
  match r with
  | inl v => Fulfilled v
  | inr e => Rejected e
  end.

(** ** Events *)

(** What can happen between two synchronous stretches: a client calls an
    exported function; the outside world settles a pending promise; an
    engine reports more themes or languages (engines never unload); the
    scheduler resumes a frame whose awaited promise has settled. *)
Inductive event :=
| CallGetCachedHighlighter (config : Config)
| CallEnsureThemeIsLoaded (highlighter : hid) (theme : ExpressiveCodeTheme)
| CallEnsureLanguageIsLoaded (highlighter : hid) (language : string)
| Settle (p : pid) (r : value + error)
| EngineLoaded (highlighter : hid) (themes languages : list string)
| Resume (q : pid).

Definition engineLoaded (themes languages : list string) (e : option Engine)
    : Engine :=
  {| loadedThemes := default [] (loadedThemes <$> e) ++ themes;
     loadedLanguages := default [] (loadedLanguages <$> e) ++ languages |}.

Definition exec (ev : event) (s : State) : State :=
  match ev with
  | CallGetCachedHighlighter config => (getCachedHighlighter config s).2
  | CallEnsureThemeIsLoaded h theme => (ensureThemeIsLoaded h theme s).2
  | CallEnsureLanguageIsLoaded h language =>
      (ensureLanguageIsLoaded h language s).2
  | Settle p r =>
      match promises s !! p with
      | Some Pending => (set_cell p (cell_of r) s).2
      | _ => s
      end
  | EngineLoaded h themes languages =>
      set_engines
        (λ m, <[h := engineLoaded themes languages (m !! h)]> m) s
  | Resume q =>
      match promises s !! q with
      | Some (Awaiting p k) =>
          match settled (promises s !! p) with
          | Some r => (bind (resume k r) (set_cell q) s).2
          | None => s
          end
      | _ => s
      end
  end.

Definition run (evs : list event) (s : State) : State :=
  foldl (λ s ev, exec ev s) s evs.

(** ** Notions the statements use *)

Definition task (s : State) (h : hid) (taskId : string) : option pid :=
  promisesByHighlighter s !! h ≫= (.!! taskId).

(** What a frame suspended at [k] settles to when [k] does no further work. *)
Definition kont_result (k : kont) (r : value + error) : cell :=
  match r, k with
  | inr e, _ => Rejected e
  | inl v, KReturn => Fulfilled v
  | inl _, KReturnConst c => Fulfilled c
  | inl _, KLangImported _ _ _ _ _ => Rejected "TypeError"
  end.

Definition passes_on (k : kont) : Prop :=
  match k with
  | KLangImported _ _ _ _ _ => False
  | _ => True
  end.

(** [q] is a frame suspended on [p] at [k], or [p] has settled and [q] with
    it. *)
Definition follows (s : State) (q p : pid) (k : kont) : Prop :=
  promises s !! q = Some (Awaiting p k)
  ∨ ∃ r, settled (promises s !! p) = Some r
         ∧ promises s !! q = Some (kont_result k r).

(** Line 47: the remembered key of the theme object, or the key computed
    from its present content. *)
Definition cacheKeyOf (s : State) (theme : ExpressiveCodeTheme) : string :=
  match themeCacheKeys s !! theme_id theme with
  | Some k => k
  | None => name theme +:+ "-" +:+ themeContentHash theme
  end.

(** Lines 46-48 as a state change. *)
Definition rememberCacheKey (theme : ExpressiveCodeTheme) (s : State) : State :=
  if falsy (themeCacheKeys s !! theme_id theme)
  then set_themeCacheKeys (<[theme_id theme := cacheKeyOf s theme]>) s
  else s.

(** The key computed from the theme's content (line 47). *)
Definition contentKey (theme : ExpressiveCodeTheme) : string :=
  name theme +:+ "-" +:+ themeContentHash theme.

(** The promise [q] answers with the cache key [key]: it is fulfilled with
    it, or is a frame that returns it once the load task it awaits is
    fulfilled. *)
Definition answers (s : State) (q : pid) (key : string) : Prop :=
  promises s !! q = Some (Fulfilled (VString key))
  ∨ ∃ p, promises s !! q = Some (Awaiting p (KReturnConst (VString key))).


(** Line 69, for the engine state of [s]. *)
Definition isAvailable (s : State) (h : hid) (language : string) : bool :=
  includes language (getLoadedLanguages h s).1
  || isSpecialLang language
  || includes language bundledLanguages.

(** In every reachable state, a task recorded for a language that is not
    available has already answered "txt": engines never unload, so the
    language was not available either when the task ran. *)
Definition unavailableIsTxt (s : State) : Prop :=
  ∀ h language p,
    task s h ("loadLanguage:" +:+ language) = Some p →
    isAvailable s h language = true
    ∨ promises s !! p = Some (Fulfilled (VString "txt")).

(** The array [langsToLoad] at line 82. *)
Definition langsToLoad (missing : list string) (language : string)
    (isLoaded isSpecial : bool) : list string :=
  missing ++ (if negb isLoaded && negb isSpecial then [language] else []).

(** The life of the load task [p] of a composite language: suspended on the
    import [imp] of its bundled definition; then, with the definition
    [bundledLang] at hand, suspended on the [loadLanguage] call for what is
    missing; then fulfilled with the language name; or rejected. *)
Definition compositeTask (s : State) (p imp : pid) (h : hid)
    (language : string) (loaded0 : list string) (isLoaded isSpecial : bool)
    : Prop :=
  promises s !! p
    = Some (Awaiting imp (KLangImported h language loaded0 isLoaded isSpecial))
  ∨ (∃ bundledLang lp,
       promises s !! imp = Some (Fulfilled (VModule bundledLang))
       ∧ promises s !! p
         = Some (Awaiting lp (KReturnConst (VString language)))
       ∧ (lp, loadLanguage h
                (langsToLoad (missingEmbeddedLangs bundledLang loaded0)
                   language isLoaded isSpecial)) ∈ calls s)
  ∨ (∃ bundledLang,
       promises s !! imp = Some (Fulfilled (VModule bundledLang))
       ∧ promises s !! p = Some (Fulfilled (VString language))
       ∧ let toLoad :=
           langsToLoad (missingEmbeddedLangs bundledLang loaded0)
             language isLoaded isSpecial in
         toLoad = []
         ∨ ∃ lp v, (lp, loadLanguage h toLoad) ∈ calls s
                   ∧ promises s !! lp = Some (Fulfilled v))
  ∨ (∃ e, promises s !! p = Some (Rejected e)).

(** The promises of the [getHighlighter] calls in the log, oldest first. *)
Definition constructed (s : State) : list pid :=
  omap (λ pc, match pc.2 with
              | getHighlighter _ _ => Some pc.1
              | _ => None
              end) (calls s).

(** The [loadTheme] calls of the log that ask highlighter [h] to register a
    theme under the name [key]. *)
Definition registers (h : hid) (key : string) (c : Call) : bool :=
  match c with
  | loadTheme h' reg => bool_decide (h' = h) && bool_decide (reg_name reg = key)
  | _ => false
  end.

Definition loadThemeCalls (s : State) (h : hid) (key : string)
    : list (pid * Call) :=
  filter (λ pc, registers h key pc.2) (calls s).

(** The invariants of the call log: a logged promise exists, no promise
    answers two calls, and each [loadTheme] call is the recorded load task of
    the name it registers, with the settings of line 54. *)
Definition logged (s : State) : Prop :=
  (∀ p c, (p, c) ∈ calls s → (p < length (promises s))%nat)
  ∧ NoDup (calls s).*1
  ∧ ∀ p h reg, (p, loadTheme h reg) ∈ calls s →
      task s h ("loadTheme:" +:+ reg_name reg) = Some p
      ∧ reg_settings reg = default [] (settings (reg_source reg)).

(** The invariant of the highlighter cache: its entries are the
    [getHighlighter] calls of the log, one call per entry. *)
Definition cacheLogged (s : State) : Prop :=
  (∀ key p, highlighterPromiseByConfig s !! key = Some p →
     ∃ config, getStableObjectHash (HashConfig config) = key
               ∧ (p, getHighlighter [] (langsOf config)) ∈ calls s)
  ∧ (∀ p themes langs, (p, getHighlighter themes langs) ∈ calls s →
       themes = []
       ∧ ∃ config, langs = langsOf config
                   ∧ highlighterPromiseByConfig s
                       !! getStableObjectHash (HashConfig config) = Some p)
  ∧ (∀ key1 key2 p,
       highlighterPromiseByConfig s !! key1 = Some p →
       highlighterPromiseByConfig s !! key2 = Some p → key1 = key2)
  ∧ length (constructed s) = size (highlighterPromiseByConfig s).

(** ** How one event changes the state *)

Ltac proj_simpl :=
  cbn [promises highlighterPromiseByConfig promisesByHighlighter
       themeCacheKeys engines calls fst snd] in *.

Ltac munfold :=
  unfold getCachedHighlighter, ensureThemeIsLoaded, ensureLanguageIsLoaded,
    resume in *;
  unfold memoizeHighlighterTask, languageTask in *;
  unfold loadLanguages, ensureTaskMap, recordTask in *;
  unfold external, set_cell, getLoadedThemes, getLoadedLanguages in *;
  unfold alloc, bind, ret, gets, modify in *;
  unfold set_promises, set_highlighterPromiseByConfig,
    set_promisesByHighlighter, set_themeCacheKeys, set_engines,
    set_calls in *;
  proj_simpl.

Ltac mcases :=
  munfold; repeat (case_match; proj_simpl; simplify_eq; proj_simpl).

Lemma lookup_snoc_Some {A} (l : list A) (x : A) (i : nat) (c : A) :
  l !! i = Some c → (l ++ [x]) !! i = Some c.
Proof. intros H. by apply lookup_app_l_Some. Qed.

(** A promise object changes only when a pending promise is settled or a
    suspended frame is resumed. *)
Lemma exec_cell ev s q c :
  promises s !! q = Some c →
  promises (exec ev s) !! q = Some c
  ∨ (c = Pending ∧ ∃ r, ev = Settle q r)
  ∨ (∃ p k, c = Awaiting p k ∧ ev = Resume q).
Proof.
  intros Hq. destruct ev; simpl.
  - left. mcases; repeat apply lookup_snoc_Some; done.
  - left. mcases; repeat apply lookup_snoc_Some; done.
  - left. mcases; repeat apply lookup_snoc_Some; done.
  - destruct (promises s !! p) as [[]|] eqn:Hp; simpl; auto.
    destruct (decide (p = q)) as [->|Hne].
    + right; left. split; [congruence | eauto].
    + left. by rewrite list_lookup_insert_ne.
  - by left.
  - destruct (promises s !! q0) as [[|p k| |]|] eqn:Hq0; simpl; auto.
    destruct (settled (promises s !! p)) as [r|] eqn:Hr; simpl; auto.
    destruct (decide (q0 = q)) as [->|Hne].
    + right; right. exists p, k. split; congruence.
    + left. mcases; rewrite list_lookup_insert_ne by done;
        repeat apply lookup_snoc_Some; done.
Qed.

(** The three module-level tables only gain entries. *)
Lemma exec_highlighterPromiseByConfig ev s key p :
  highlighterPromiseByConfig s !! key = Some p →
  highlighterPromiseByConfig (exec ev s) !! key = Some p.
Proof.
  intros Hk. destruct ev; simpl; mcases; try done.
  all: rewrite lookup_insert_ne; [done | congruence].
Qed.

Lemma exec_task ev s h taskId p :
  task s h taskId = Some p → task (exec ev s) h taskId = Some p.
Proof.
  unfold task. intros Hk. destruct ev; simpl; mcases; try done.
  all: repeat match goal with
    | |- context [<[?a := _]> _ !! ?b] =>
        destruct (decide (a = b)) as [<-|?];
        [rewrite lookup_insert_eq | rewrite lookup_insert_ne by done];
        simpl
    | H : ?m !! ?a = _ |- context [?m !! ?a] => rewrite H; simpl
    | H : ?m !! ?a = _, H' : context [?m !! ?a] |- _ =>
        rewrite H in H'; simpl in H'
    end; try done; try congruence.
Qed.

Lemma exec_themeCacheKeys ev s t key :
  themeCacheKeys s !! t = Some key →
  themeCacheKeys (exec ev s) !! t = Some key.
Proof.
  intros Hk. destruct ev; simpl; mcases; try done.
  all: try (rewrite lookup_insert_ne; [done | congruence]).
  all: match goal with
    | |- <[?a := _]> _ !! ?b = _ =>
        destruct (decide (a = b)) as [Heq|?];
        [rewrite Heq, lookup_insert_eq; congruence
        | by rewrite lookup_insert_ne]
    end.
Qed.

(** The call log only grows. *)
Lemma exec_calls ev s : ∃ new, calls (exec ev s) = calls s ++ new.
Proof.
  destruct ev; simpl; mcases;
    rewrite <- ?app_assoc; eauto using app_nil_r.
  all: by exists [].
Qed.

(** Engines only report more. *)
Lemma exec_loadedLanguages ev s h x :
  x ∈ (getLoadedLanguages h s).1 → x ∈ (getLoadedLanguages h (exec ev s)).1.
Proof.
  intros Hx. destruct ev; simpl; mcases; try done.
  unfold getLoadedLanguages, gets. simpl.
  destruct (decide (highlighter = h)) as [->|Hne].
  - rewrite lookup_insert_eq. simpl. apply elem_of_app. by left.
  - by rewrite lookup_insert_ne.
Qed.

Lemma run_snoc evs ev s : run (evs ++ [ev]) s = exec ev (run evs s).
Proof. unfold run. by rewrite foldl_app. Qed.

Lemma run_cell_settled evs s q r :
  settled (promises s !! q) = Some r →
  promises (run evs s) !! q = promises s !! q.
Proof.
  intros Hq. induction evs as [|ev evs IH] using rev_ind; [done|].
  rewrite run_snoc.
  destruct (promises s !! q) as [c|] eqn:Hc; [|done].
  destruct (exec_cell ev (run evs s) q c) as [H|[[-> _]|(p & k & -> & _)]];
    done.
Qed.

Lemma run_highlighterPromiseByConfig evs s key p :
  highlighterPromiseByConfig s !! key = Some p →
  highlighterPromiseByConfig (run evs s) !! key = Some p.
Proof.
  intros Hk. induction evs as [|ev evs IH] using rev_ind; [done|].
  rewrite run_snoc. by apply exec_highlighterPromiseByConfig.
Qed.

Lemma run_task evs s h taskId p :
  task s h taskId = Some p → task (run evs s) h taskId = Some p.
Proof.
  intros Hk. induction evs as [|ev evs IH] using rev_ind; [done|].
  rewrite run_snoc. by apply exec_task.
Qed.

Lemma run_themeCacheKeys evs s t key :
  themeCacheKeys s !! t = Some key →
  themeCacheKeys (run evs s) !! t = Some key.
Proof.
  intros Hk. induction evs as [|ev evs IH] using rev_ind; [done|].
  rewrite run_snoc. by apply exec_themeCacheKeys.
Qed.

Lemma run_cell_Some evs s q c :
  promises s !! q = Some c → is_Some (promises (run evs s) !! q).
Proof.
  intros Hq. revert c Hq.
  induction evs as [|ev evs IH] using rev_ind; intros c Hq; [by eexists|].
  rewrite run_snoc. destruct (IH c Hq) as [c' Hc'].
  destruct (exec_cell ev (run evs s) q c' Hc') as [H|[[-> [r ->]]|(p & k & -> & ->)]].
  - by eexists.
  - unfold exec. rewrite Hc'. munfold.
    rewrite list_lookup_insert_eq; [by eexists|].
    by eapply lookup_lt_Some.
  - unfold exec. rewrite Hc'. destruct (settled _); [|by eexists].
    mcases; (rewrite list_lookup_insert_eq; [by eexists|]);
      rewrite ?length_app; try (apply lookup_lt_Some in Hc'; lia).
Qed.

(** ** Frames that only pass a value on *)

Lemma resume_passes_on k r s :
  passes_on k → resume k r s = (kont_result k r, s).
Proof. destruct k, r; simpl; done. Qed.

Lemma kont_result_settled k r : ∃ r', kont_result k r = cell_of r'.
Proof.
  destruct r as [v|e], k; simpl;
    first [by exists (inl v) | by eexists (inl _) | by eexists (inr _)].
Qed.

Lemma exec_follows ev s q p k :
  passes_on k → follows s q p k → follows (exec ev s) q p k.
Proof.
  intros Hk [Hq|(r & Hp & Hq)].
  - destruct (exec_cell ev s q _ Hq) as [H|[[? _]|(p' & k' & ? & ->)]];
      [by left | done |]. simplify_eq.
    simpl. rewrite Hq.
    destruct (settled (promises s !! p')) as [r|] eqn:Hr; [|by left].
    right. exists r. unfold bind. rewrite resume_passes_on by done.
    munfold.
    assert (q ≠ p') by (intros ->; rewrite Hq in Hr; done).
    rewrite list_lookup_insert_ne by done.
    split; [done|]. rewrite list_lookup_insert_eq; [done|].
    by eapply lookup_lt_Some.
  - right. exists r.
    destruct (kont_result_settled k r) as [r' Hr'].
    destruct (promises s !! p) as [cp|] eqn:Hcp; [|done].
    destruct (exec_cell ev s p cp Hcp) as [H|[[-> _]|(? & ? & -> & _)]];
      [|done|done].
    destruct (exec_cell ev s q _ Hq) as [H'|[[H' _]|(? & ? & H' & _)]];
      [ | rewrite Hr' in H'; by destruct r' ..].
    by rewrite H, H'.
Qed.

Lemma run_follows evs s q p k :
  passes_on k → follows s q p k → follows (run evs s) q p k.
Proof.
  intros Hk Hf. induction evs as [|ev evs IH] using rev_ind; [done|].
  rewrite run_snoc. by apply exec_follows.
Qed.

(** A follower, once fulfilled, holds what the continuation makes of the
    awaited value. *)
Lemma follows_settled s q p k c :
  follows s q p k → promises s !! q = Some c → settled (Some c) ≠ None →
  ∃ r, settled (promises s !! p) = Some r ∧ c = kont_result k r.
Proof.
  intros [Hq|(r & Hp & Hq)] Hc Hs.
  - rewrite Hq in Hc. by simplify_eq.
  - exists r. split; [done|]. congruence.
Qed.

(** Resuming a follower whose awaited promise has settled settles it. *)
Lemma follows_resume s q p k r :
  passes_on k → follows s q p k → settled (promises s !! p) = Some r →
  promises (exec (Resume q) s) !! q = Some (kont_result k r).
Proof.
  intros Hk [Hq|(r' & Hp & Hq)] Hr.
  - simpl. rewrite Hq, Hr. unfold bind. rewrite resume_passes_on by done.
    munfold. rewrite list_lookup_insert_eq; [done|]. by eapply lookup_lt_Some.
  - rewrite Hr in Hp. simplify_eq.
    destruct (exec_cell (Resume q) s q _ Hq) as [H|[[H _]|(? & ? & H & _)]];
      [done | |];
      destruct (kont_result_settled k r') as [r'' Hr'']; rewrite Hr'' in H;
      by destruct r''.
Qed.

(** ** The highlighter cache *)

Lemma getCachedHighlighter_hit config s p :
  highlighterPromiseByConfig s !! getStableObjectHash (HashConfig config)
    = Some p →
  getCachedHighlighter config s
  = (length (promises s),
     set_promises (λ l, l ++ [Awaiting p KReturn]) s).
Proof. intros H. unfold getCachedHighlighter, bind, gets. by rewrite H. Qed.

Lemma getCachedHighlighter_miss config s :
  highlighterPromiseByConfig s !! getStableObjectHash (HashConfig config)
    = None →
  let p := length (promises s) in
  getCachedHighlighter config s
  = (S p,
     {| promises := (promises s ++ [Pending]) ++ [Awaiting p KReturn];
        highlighterPromiseByConfig :=
          <[getStableObjectHash (HashConfig config) := p]>
            (highlighterPromiseByConfig s);
        promisesByHighlighter := promisesByHighlighter s;
        themeCacheKeys := themeCacheKeys s;
        engines := engines s;
        calls := calls s ++ [(p, getHighlighter [] (langsOf config))] |}).
Proof.
  intros H. unfold getCachedHighlighter, bind, gets. rewrite H.
  munfold. rewrite length_app. simpl. f_equal. lia.
Qed.

Lemma getCachedHighlighter_cached config s :
  let r := getCachedHighlighter config s in
  ∃ p,
    highlighterPromiseByConfig r.2 !! getStableObjectHash (HashConfig config)
      = Some p
    ∧ promises r.2 !! r.1 = Some (Awaiting p KReturn)
    ∧ match highlighterPromiseByConfig s
              !! getStableObjectHash (HashConfig config) with
      | Some p0 => p = p0 ∧ calls r.2 = calls s
      | None =>
          calls r.2 = calls s ++ [(p, getHighlighter [] (langsOf config))]
          ∧ promises r.2 !! p = Some Pending
      end.
Proof.
  simpl.
  destruct (highlighterPromiseByConfig s
              !! getStableObjectHash (HashConfig config)) as [p|] eqn:Hk.
  - rewrite (getCachedHighlighter_hit _ _ _ Hk). exists p. munfold.
    split; [done|]. split; [|done].
    by rewrite lookup_app_r, Nat.sub_diag.
  - rewrite (getCachedHighlighter_miss _ _ Hk).
    exists (length (promises s)). proj_simpl.
    rewrite lookup_insert_eq. split; [done|]. split; [|split; [done|]].
    + rewrite lookup_app_r; rewrite length_app; simpl; [|lia].
      by replace (_ - _) with 0 by lia.
    + rewrite lookup_app_l; [|rewrite length_app; simpl; lia].
      by rewrite lookup_app_r, Nat.sub_diag.
Qed.

(** C1, as amended.  Two calls whose configurations have the same
    fingerprint, with any events in between: the construction promise [p] is
    in the cache as soon as the first call returns, still pending if that call
    started it; the first call calls [getHighlighter] once if the key was
    absent and not at all otherwise, the second call never does; each call
    answers with a promise of its own ([getCachedHighlighter] is [async]), and
    both answers are resolved with the cached promise [p]: whenever one of
    them is settled it is settled exactly as [p], and resuming it once [p]
    has settled settles it so. *)
Theorem getCachedHighlighter_shared_construction
    (s0 : State) (config1 config2 : Config) (evs : list event) :
  getStableObjectHash (HashConfig config1)
    = getStableObjectHash (HashConfig config2) →
  let key := getStableObjectHash (HashConfig config1) in
  let r1 := getCachedHighlighter config1 s0 in
  let s2 := run evs r1.2 in
  let r2 := getCachedHighlighter config2 s2 in
  ∃ p : pid,
    highlighterPromiseByConfig r1.2 !! key = Some p
    ∧ match highlighterPromiseByConfig s0 !! key with
      | Some p0 => p = p0 ∧ calls r1.2 = calls s0
      | None =>
          calls r1.2 = calls s0 ++ [(p, getHighlighter [] (langsOf config1))]
          ∧ promises r1.2 !! p = Some Pending
      end
    ∧ calls r2.2 = calls s2
    ∧ highlighterPromiseByConfig r2.2 !! key = Some p
    ∧ promises r1.2 !! r1.1 = Some (Awaiting p KReturn)
    ∧ promises r2.2 !! r2.1 = Some (Awaiting p KReturn)
    ∧ r1.1 ≠ r2.1
    ∧ ∀ (evs' : list event) (q : pid), q = r1.1 ∨ q = r2.1 →
        let s := run evs' r2.2 in
        (∀ c, promises s !! q = Some c → settled (Some c) ≠ None →
              promises s !! p = Some c)
        ∧ (∀ r, settled (promises s !! p) = Some r →
                promises (exec (Resume q) s) !! q = Some (cell_of r)).
Proof.
  intros Hkey key r1 s2 r2.
  destruct (getCachedHighlighter_cached config1 s0) as (p & Hc1 & Hq1 & Hnew).
  fold r1 in Hc1, Hq1, Hnew. fold key in Hc1, Hnew.
  exists p.
  assert (Hc2 : highlighterPromiseByConfig s2 !! key = Some p)
    by by apply run_highlighterPromiseByConfig.
  destruct (getCachedHighlighter_cached config2 s2) as (p' & Hc2' & Hq2 & Hnew').
  fold r2 in Hc2', Hq2, Hnew'. rewrite <- Hkey in Hc2', Hnew'.
  fold key in Hc2', Hnew'. rewrite Hc2 in Hnew'. destruct Hnew' as [-> Hcalls].
  assert (Hr2 : r2 = (length (promises s2),
                      set_promises (λ l, l ++ [Awaiting p KReturn]) s2)).
  { unfold r2. apply getCachedHighlighter_hit. by rewrite <- Hkey. }
  assert (Hlt : r1.1 < r2.1).
  { rewrite Hr2. simpl.
    destruct (run_cell_Some evs r1.2 r1.1 _ Hq1) as [c Hc].
    by eapply lookup_lt_Some. }
  assert (Hf1 : follows r2.2 r1.1 p KReturn).
  { change r2.2 with (exec (CallGetCachedHighlighter config2) s2).
    apply exec_follows; [done|]. apply run_follows; [done | by left]. }
  assert (Hf2 : follows r2.2 r2.1 p KReturn) by by left.
  repeat split; try done; try lia.
  - intros c Hc Hs.
    assert (Hf : follows (run evs' r2.2) q p KReturn)
      by (destruct H as [->| ->]; by apply run_follows).
    destruct (follows_settled _ _ _ _ _ Hf Hc Hs) as (r & Hp & ->).
    destruct (promises (run evs' r2.2) !! p) as [[| | |]|]; destruct r;
      simpl in *; congruence.
  - intros r Hr.
    assert (Hf : follows (run evs' r2.2) q p KReturn)
      by (destruct H as [->| ->]; by apply run_follows).
    rewrite (follows_resume _ _ _ KReturn _ I Hf Hr). by destruct r.
Qed.

(** C10, as amended.  Once the construction promise [p] cached for a
    configuration's fingerprint is rejected, it stays cached and rejected
    through any later events; a later call with that configuration calls
    nothing outside (no second construction), and answers with a new promise
    resolved with [p], which can only ever be rejected for the same reason. *)
Theorem getCachedHighlighter_failure_stays_cached
    (s : State) (config : Config) (p : pid) (e : error) (evs : list event) :
  highlighterPromiseByConfig s !! getStableObjectHash (HashConfig config)
    = Some p →
  promises s !! p = Some (Rejected e) →
  let key := getStableObjectHash (HashConfig config) in
  let s' := run evs s in
  let r := getCachedHighlighter config s' in
  highlighterPromiseByConfig r.2 !! key = Some p
  ∧ promises r.2 !! p = Some (Rejected e)
  ∧ calls r.2 = calls s'
  ∧ r.1 ≠ p
  ∧ promises r.2 !! r.1 = Some (Awaiting p KReturn)
  ∧ promises (exec (Resume r.1) r.2) !! r.1 = Some (Rejected e)
  ∧ ∀ (evs' : list event) (c : cell),
      promises (run evs' r.2) !! r.1 = Some c →
      c = Awaiting p KReturn ∨ c = Rejected e.
Proof.
  intros Hk Hp key s' r.
  assert (Hk' : highlighterPromiseByConfig s' !! key = Some p)
    by by apply run_highlighterPromiseByConfig.
  assert (Hp' : promises s' !! p = Some (Rejected e))
    by (unfold s'; by rewrite (run_cell_settled evs s p (inr e)), Hp by
          by rewrite Hp).
  assert (Hr : r = (length (promises s'),
                    set_promises (λ l, l ++ [Awaiting p KReturn]) s'))
    by by apply getCachedHighlighter_hit.
  assert (Hq : promises r.2 !! r.1 = Some (Awaiting p KReturn))
    by (rewrite Hr; munfold; by rewrite lookup_app_r, Nat.sub_diag).
  assert (Hp2 : promises r.2 !! p = Some (Rejected e))
    by (rewrite Hr; munfold; by apply lookup_snoc_Some).
  assert (Hf : follows r.2 r.1 p KReturn) by by left.
  split_and!.
  - by rewrite Hr.
  - done.
  - by rewrite Hr.
  - intros Heq. rewrite Heq in Hq. congruence.
  - done.
  - apply (follows_resume _ _ p KReturn (inr e)); [done..|]. by rewrite Hp2.
  - intros evs' c Hc.
    assert (Hf' : follows (run evs' r.2) r.1 p KReturn)
      by by apply run_follows.
    assert (Hp3 : promises (run evs' r.2) !! p = Some (Rejected e))
      by (by rewrite (run_cell_settled evs' r.2 p (inr e)), Hp2 by
            by rewrite Hp2).
    destruct Hf' as [H|(r' & Hr' & H)]; [left; congruence|right].
    rewrite Hp3 in Hr'. simpl in Hr'. injection Hr' as <-. simpl in H.
    congruence.
Qed.

(** ** The task memoizer *)

Lemma memoizeHighlighterTask_hit h taskId taskFn s p :
  task s h taskId = Some p → memoizeHighlighterTask h taskId taskFn s = (p, s).
Proof.
  unfold task. intros H. munfold.
  destruct (promisesByHighlighter s !! h) as [m|] eqn:Hm; [|done].
  proj_simpl. rewrite Hm. simpl in *. by rewrite H.
Qed.

Lemma task_ensureTaskMap h h' taskId s :
  task (ensureTaskMap h s).2 h' taskId = task s h' taskId.
Proof.
  unfold task. munfold.
  destruct (promisesByHighlighter s !! h) as [m|] eqn:Hm; proj_simpl; [done|].
  destruct (decide (h = h')) as [<-|Hne].
  - by rewrite lookup_insert_eq, Hm.
  - by rewrite lookup_insert_ne.
Qed.

Lemma memoizeHighlighterTask_miss h taskId taskFn s :
  task s h taskId = None →
  let t := taskFn (ensureTaskMap h s).2 in
  memoizeHighlighterTask h taskId taskFn s
  = (t.1, (recordTask h taskId t.1 t.2).2).
Proof.
  intros H. pose proof (task_ensureTaskMap h h taskId s) as H'.
  rewrite H in H'. unfold task in H'. simpl.
  unfold memoizeHighlighterTask, bind at 1.
  destruct (ensureTaskMap h s) as [[] s1]. simpl in *.
  unfold bind at 1, gets. rewrite H'. unfold bind.
  destruct (taskFn s1) as [p s2]. by unfold recordTask, modify, ret.
Qed.

Lemma task_recordTask h taskId p s :
  task (recordTask h taskId p s).2 h taskId = Some p.
Proof.
  unfold task. munfold. rewrite lookup_insert_eq. simpl.
  by rewrite lookup_insert_eq.
Qed.

(** C2.  After a call for [(h, taskId)], and through any later events, a
    second call for the same pair returns the promise the first call
    returned and leaves the state as it found it, whatever its task function
    is: the function is not invoked.  The first call itself returns the
    recorded promise if there is one, and otherwise invokes its task
    function once and records the promise under [(h, taskId)].  The record
    of [h] does not serve another highlighter [h']: with no task recorded
    for [(h', taskId)], a call for [h'] invokes its own task function. *)
Theorem memoizeHighlighterTask_once
    (h : hid) (taskId : string) (taskFn1 taskFn2 : M pid) (s0 : State)
    (evs : list event) :
  let r1 := memoizeHighlighterTask h taskId taskFn1 s0 in
  let s2 := run evs r1.2 in
  memoizeHighlighterTask h taskId taskFn2 s2 = (r1.1, s2)
  ∧ match task s0 h taskId with
    | Some p0 => r1 = (p0, s0)
    | None =>
        let t := taskFn1 (ensureTaskMap h s0).2 in
        r1 = (t.1, (recordTask h taskId t.1 t.2).2)
    end
  ∧ ∀ (h' : hid) (taskFn3 : M pid),
      h' ≠ h → task s2 h' taskId = None →
      let t := taskFn3 (ensureTaskMap h' s2).2 in
      memoizeHighlighterTask h' taskId taskFn3 s2
      = (t.1, (recordTask h' taskId t.1 t.2).2).
Proof.
  intros r1 s2.
  assert (H1 : task r1.2 h taskId = Some r1.1).
  { unfold r1. destruct (task s0 h taskId) as [p0|] eqn:Ht.
    - by rewrite (memoizeHighlighterTask_hit _ _ _ _ _ Ht).
    - rewrite (memoizeHighlighterTask_miss _ _ _ _ Ht). simpl.
      apply task_recordTask. }
  split_and!.
  - apply memoizeHighlighterTask_hit. by apply run_task.
  - destruct (task s0 h taskId) as [p0|] eqn:Ht.
    + by apply memoizeHighlighterTask_hit.
    + by apply memoizeHighlighterTask_miss.
  - intros h' taskFn3 _ Hnone. by apply memoizeHighlighterTask_miss.
Qed.

(** ** The theme loader *)

Lemma ensureThemeIsLoaded_unfold h theme s :
  ensureThemeIsLoaded h theme s
  = let key := cacheKeyOf s theme in
    let s1 := rememberCacheKey theme s in
    if negb (includes key (getLoadedThemes h s).1) then
      let t := memoizeHighlighterTask h ("loadTheme:" +:+ key)
                 (external (loadTheme h (themeUsingCacheKey theme key))) s1 in
      alloc (Awaiting t.1 (KReturnConst (VString key))) t.2
    else alloc (Fulfilled (VString key)) s1.
Proof.
  unfold ensureThemeIsLoaded, cacheKeyOf, rememberCacheKey, cacheKeyOf.
  unfold bind at 1, gets at 1.
  destruct (themeCacheKeys s !! theme_id theme) as [k|] eqn:Hk;
    unfold bind at 1; [destruct (falsy (Some k))|]; simpl;
    unfold bind at 1, getLoadedThemes, gets; simpl;
    (destruct (includes _ _); simpl; [done|]);
    unfold bind at 1; by destruct (memoizeHighlighterTask _ _ _ _).
Qed.

Lemma rememberCacheKey_themeCacheKeys theme s :
  themeCacheKeys (rememberCacheKey theme s) !! theme_id theme
  = Some (cacheKeyOf s theme).
Proof.
  unfold rememberCacheKey, cacheKeyOf.
  destruct (themeCacheKeys s !! theme_id theme) as [k|] eqn:Hk; simpl.
  - destruct (bool_decide _); [|done]. munfold. by rewrite lookup_insert_eq.
  - munfold. by rewrite lookup_insert_eq.
Qed.

Lemma rememberCacheKey_frame theme s :
  promises (rememberCacheKey theme s) = promises s
  ∧ promisesByHighlighter (rememberCacheKey theme s) = promisesByHighlighter s
  ∧ engines (rememberCacheKey theme s) = engines s
  ∧ calls (rememberCacheKey theme s) = calls s.
Proof. unfold rememberCacheKey. by destruct (falsy _). Qed.

Lemma alloc_lookup c s :
  promises (alloc c s).2 !! (alloc c s).1 = Some c.
Proof. munfold. by rewrite lookup_app_r, Nat.sub_diag. Qed.

(** What one call of [ensureThemeIsLoaded] does. *)
Lemma ensureThemeIsLoaded_run h theme s :
  let key := cacheKeyOf s theme in
  let r := ensureThemeIsLoaded h theme s in
  themeCacheKeys r.2 !! theme_id theme = Some key
  ∧ if includes key (getLoadedThemes h s).1
    then promises r.2 !! r.1 = Some (Fulfilled (VString key))
         ∧ calls r.2 = calls s
    else ∃ p,
         task r.2 h ("loadTheme:" +:+ key) = Some p
         ∧ promises r.2 !! r.1 = Some (Awaiting p (KReturnConst (VString key)))
         ∧ match task s h ("loadTheme:" +:+ key) with
           | Some p0 => p = p0 ∧ calls r.2 = calls s
           | None =>
               calls r.2
               = calls s ++ [(p, loadTheme h (themeUsingCacheKey theme key))]
               ∧ promises r.2 !! p = Some Pending
               ∧ p = length (promises s)
           end.
Proof.
  intros key r. unfold r. clear r. rewrite ensureThemeIsLoaded_unfold.
  fold key.
  pose proof (rememberCacheKey_themeCacheKeys theme s) as Hkey.
  destruct (rememberCacheKey_frame theme s) as (Hpr & Hpb & Hen & Hca).
  set (s1 := rememberCacheKey theme s) in *. cbv zeta.
  destruct (includes key (getLoadedThemes h s).1); simpl negb; cbv iota.
  - split; [done|]. split; [apply alloc_lookup | by rewrite <- Hca].
  - assert (Ht : task s1 h ("loadTheme:" +:+ key)
                 = task s h ("loadTheme:" +:+ key))
      by (unfold task; by rewrite Hpb).
    destruct (task s h ("loadTheme:" +:+ key)) as [p0|] eqn:Htask.
    + rewrite (memoizeHighlighterTask_hit _ _ _ _ _ Ht).
      split; [done|]. exists p0.
      split_and!;
        first [done | apply alloc_lookup | by (unfold task in *; munfold)].
    + rewrite (memoizeHighlighterTask_miss _ _ _ _ Ht). cbv zeta.
      set (s1' := (ensureTaskMap h s1).2).
      assert (Hs1' : promises s1' = promises s ∧ calls s1' = calls s
                     ∧ themeCacheKeys s1' = themeCacheKeys s1).
      { unfold s1'. munfold. by destruct (promisesByHighlighter s1 !! h). }
      destruct Hs1' as (Hp1 & Hc1 & Ht1).
      split; [munfold; by rewrite Ht1|].
      exists (length (promises s)). split_and!.
      * munfold. rewrite Hp1. unfold task. proj_simpl.
        rewrite lookup_insert_eq. simpl. by rewrite lookup_insert_eq.
      * munfold. rewrite Hp1.
        rewrite lookup_app_r; rewrite length_app; simpl; [|lia].
        by replace (_ - _) with 0 by lia.
      * munfold. by rewrite Hc1, Hp1.
      * munfold. rewrite Hp1.
        rewrite lookup_app_l; [|rewrite length_app; simpl; lia].
        by rewrite lookup_app_r, Nat.sub_diag.
      * done.
Qed.

Lemma exec_loadedThemes ev s h x :
  x ∈ (getLoadedThemes h s).1 → x ∈ (getLoadedThemes h (exec ev s)).1.
Proof.
  intros Hx. destruct ev; simpl; mcases; try done.
  unfold getLoadedThemes, gets. simpl.
  destruct (decide (highlighter = h)) as [->|Hne].
  - rewrite lookup_insert_eq. simpl. apply elem_of_app. by left.
  - by rewrite lookup_insert_ne.
Qed.

Lemma run_loadedThemes evs s h x :
  x ∈ (getLoadedThemes h s).1 → x ∈ (getLoadedThemes h (run evs s)).1.
Proof.
  intros Hx. induction evs as [|ev evs IH] using rev_ind; [done|].
  rewrite run_snoc. by apply exec_loadedThemes.
Qed.

Lemma answers_run evs s q key v :
  answers s q key →
  promises (run evs s) !! q = Some (Fulfilled v) → v = VString key.
Proof.
  intros [Hq|[p Hq]] Hv.
  - rewrite (run_cell_settled evs s q (inl (VString key))) in Hv
      by by rewrite Hq.
    congruence.
  - assert (Hf : follows (run evs s) q p (KReturnConst (VString key)))
      by (apply run_follows; [done | by left]).
    destruct (follows_settled _ _ _ _ _ Hf Hv) as (r & _ & Hr); [done|].
    destruct r; simpl in Hr; congruence.
Qed.



Lemma task_rememberCacheKey theme s h taskId :
  task (rememberCacheKey theme s) h taskId = task s h taskId.
Proof.
  unfold task. by destruct (rememberCacheKey_frame theme s) as (_ & -> & _).
Qed.




(** ** The language loader *)

Lemma task_recordTask_ne h taskId p s h' taskId' :
  (h, taskId) ≠ (h', taskId') →
  task (recordTask h taskId p s).2 h' taskId' = task s h' taskId'.
Proof.
  intros Hne. unfold task. munfold.
  destruct (decide (h = h')) as [<-|Hh].
  - rewrite lookup_insert_eq. simpl.
    rewrite lookup_insert_ne by congruence.
    by destruct (promisesByHighlighter s !! h).
  - by rewrite lookup_insert_ne.
Qed.

Lemma task_languageTask h language s h' taskId :
  task (languageTask h language s).2 h' taskId = task s h' taskId.
Proof. unfold task. by mcases. Qed.

Lemma task_alloc c s h taskId :
  task (alloc c s).2 h taskId = task s h taskId.
Proof. unfold task. by munfold. Qed.

Lemma task_external c s h taskId :
  task (external c s).2 h taskId = task s h taskId.
Proof. unfold task. by munfold. Qed.

Lemma ensureLanguageIsLoaded_unfold h language s :
  ensureLanguageIsLoaded h language s
  = let t := memoizeHighlighterTask h ("loadLanguage:" +:+ language)
               (languageTask h language) s in
    alloc (Awaiting t.1 KReturn) t.2.
Proof.
  unfold ensureLanguageIsLoaded, bind at 1.
  by destruct (memoizeHighlighterTask _ _ _ _).
Qed.

(** A task recorded by an event is the task of the theme or language the
    event asks for. *)
Lemma exec_task_inv ev s h taskId p :
  task (exec ev s) h taskId = Some p →
  task s h taskId = Some p
  ∨ (∃ theme, ev = CallEnsureThemeIsLoaded h theme
              ∧ taskId = "loadTheme:" +:+ cacheKeyOf s theme)
  ∨ (∃ language, ev = CallEnsureLanguageIsLoaded h language
                 ∧ taskId = "loadLanguage:" +:+ language
                 ∧ task s h taskId = None).
Proof.
  intros Ht. destruct ev as [config|h0 theme|h0 language|q r|h0 ts ls|q];
    simpl in Ht.
  - left. revert Ht. unfold task. by mcases.
  - revert Ht. rewrite ensureThemeIsLoaded_unfold. cbv zeta.
    destruct (negb _).
    + destruct (task (rememberCacheKey theme s) h0
                  ("loadTheme:" +:+ cacheKeyOf s theme)) as [p0|] eqn:Hm.
      * rewrite (memoizeHighlighterTask_hit _ _ _ _ _ Hm).
        rewrite <- (task_rememberCacheKey theme s h taskId). left. revert Ht.
        unfold task. by munfold.
      * rewrite (memoizeHighlighterTask_miss _ _ _ _ Hm). cbv zeta.
        intros Ht.
        destruct (decide ((h0, "loadTheme:" +:+ cacheKeyOf s theme)
                          = (h, taskId))) as [[= <- <-]|Hne].
        { right; left. eauto. }
        left. revert Ht. rewrite task_alloc. cbn [fst snd].
        rewrite task_recordTask_ne by done.
        by rewrite task_external, task_ensureTaskMap, task_rememberCacheKey.
    + rewrite <- (task_rememberCacheKey theme s h taskId). left. revert Ht.
      unfold task. by munfold.
  - revert Ht. rewrite ensureLanguageIsLoaded_unfold. cbv zeta.
    destruct (task s h0 ("loadLanguage:" +:+ language)) as [p0|] eqn:Hm.
    + rewrite (memoizeHighlighterTask_hit _ _ _ _ _ Hm). left. revert Ht.
      unfold task. by munfold.
    + rewrite (memoizeHighlighterTask_miss _ _ _ _ Hm). cbv zeta.
      intros Ht.
      destruct (decide ((h0, "loadLanguage:" +:+ language) = (h, taskId)))
        as [[= <- <-]|Hne].
      { right; right. eauto. }
      left. revert Ht. rewrite task_alloc. cbn [fst snd].
      rewrite task_recordTask_ne by done.
      by rewrite task_languageTask, task_ensureTaskMap.
  - left. revert Ht. unfold task. by mcases.
  - left. revert Ht. unfold task. by mcases.
  - left. revert Ht. unfold task. by mcases.
Qed.

Lemma exec_isAvailable ev s h language :
  isAvailable s h language = true → isAvailable (exec ev s) h language = true.
Proof.
  unfold isAvailable. intros H.
  destruct (isSpecialLang language); [by rewrite orb_true_r|].
  destruct (includes language bundledLanguages); [by rewrite orb_true_r|].
  rewrite !orb_false_r in *. apply elem_of_includes, exec_loadedLanguages.
  by apply includes_elem_of.
Qed.

Lemma ensureLanguageIsLoaded_hit h language s p :
  task s h ("loadLanguage:" +:+ language) = Some p →
  ensureLanguageIsLoaded h language s = alloc (Awaiting p KReturn) s.
Proof.
  intros Ht. rewrite ensureLanguageIsLoaded_unfold.
  by rewrite (memoizeHighlighterTask_hit _ _ _ _ _ Ht).
Qed.

Lemma ensureTaskMap_frame h s :
  promises (ensureTaskMap h s).2 = promises s
  ∧ engines (ensureTaskMap h s).2 = engines s
  ∧ calls (ensureTaskMap h s).2 = calls s.
Proof. munfold. by destruct (promisesByHighlighter s !! h). Qed.

Lemma isAvailable_ensureTaskMap h h' language s :
  isAvailable (ensureTaskMap h s).2 h' language = isAvailable s h' language.
Proof.
  unfold isAvailable, getLoadedLanguages, gets. simpl.
  by destruct (ensureTaskMap_frame h s) as (_ & -> & _).
Qed.

Lemma languageTask_unavailable h language s :
  isAvailable s h language = false →
  languageTask h language s = alloc (Fulfilled (VString "txt")) s.
Proof.
  unfold isAvailable, languageTask. intros H.
  unfold bind at 1. unfold getLoadedLanguages at 1, gets at 1.
  unfold getLoadedLanguages, gets in H. simpl in *. by rewrite H.
Qed.

(** A call for an unavailable language with no task recorded yet. *)
Lemma ensureLanguageIsLoaded_unavailable_miss h language s :
  isAvailable s h language = false →
  task s h ("loadLanguage:" +:+ language) = None →
  let r := ensureLanguageIsLoaded h language s in
  let p := length (promises s) in
  task r.2 h ("loadLanguage:" +:+ language) = Some p
  ∧ promises r.2 !! p = Some (Fulfilled (VString "txt"))
  ∧ promises r.2 !! r.1 = Some (Awaiting p KReturn)
  ∧ calls r.2 = calls s.
Proof.
  intros Hav Ht r p. unfold r. rewrite ensureLanguageIsLoaded_unfold.
  rewrite (memoizeHighlighterTask_miss _ _ _ _ Ht). cbv zeta.
  rewrite languageTask_unavailable by by rewrite isAvailable_ensureTaskMap.
  destruct (ensureTaskMap_frame h s) as (Hp & _ & Hc).
  set (s1 := (ensureTaskMap h s).2) in *.
  split_and!.
  - rewrite task_alloc. cbn [fst snd]. unfold alloc at 1. cbn [fst].
    rewrite Hp. apply task_recordTask.
  - munfold. rewrite Hp. apply lookup_snoc_Some.
    by rewrite lookup_app_r, Nat.sub_diag.
  - rewrite alloc_lookup. cbn [fst snd]. unfold alloc at 1. cbn [fst].
    by rewrite Hp.
  - munfold. by rewrite Hc.
Qed.

Lemma exec_unavailableIsTxt ev s :
  unavailableIsTxt s → unavailableIsTxt (exec ev s).
Proof.
  intros IH h language p Ht.
  destruct (exec_task_inv _ _ _ _ _ Ht)
    as [H|[(theme & -> & Hid)|(L & -> & Hid & Hnone)]].
  - destruct (IH _ _ _ H) as [Hav|Hp].
    + left. by apply exec_isAvailable.
    + right.
      by destruct (exec_cell ev s p _ Hp) as [?|[[? _]|(? & ? & ? & _)]].
  - simpl in Hid. discriminate.
  - apply append_inj in Hid as ->.
    destruct (isAvailable s h L) eqn:Hav.
    + left. by apply exec_isAvailable.
    + right. simpl in Ht |- *.
      destruct (ensureLanguageIsLoaded_unavailable_miss h L s Hav Hnone)
        as (Ht' & Hp & _).
      rewrite Ht' in Ht. by injection Ht as <-.
Qed.

Lemma run_unavailableIsTxt evs : unavailableIsTxt (run evs init).
Proof.
  induction evs as [|ev evs IH] using rev_ind.
  - intros h language p Ht. unfold task in Ht. simpl in Ht.
    by rewrite lookup_empty in Ht.
  - rewrite run_snoc. by apply exec_unavailableIsTxt.
Qed.

(** C5.  In any state the module can reach, a call for a language that is
    not loaded, not special and not bundled makes no external call at all
    (no import, no load); the promise it awaits is already fulfilled with
    "txt"; and the answer, from then on, is either still waiting to be
    resumed or fulfilled with "txt" (never rejected), and resuming it
    fulfils it with "txt". *)
Theorem ensureLanguageIsLoaded_unavailable
    (evs : list event) (h : hid) (language : string) :
  let s := run evs init in
  isAvailable s h language = false →
  let r := ensureLanguageIsLoaded h language s in
  calls r.2 = calls s
  ∧ ∃ p : pid,
      promises r.2 !! r.1 = Some (Awaiting p KReturn)
      ∧ promises r.2 !! p = Some (Fulfilled (VString "txt"))
      ∧ ∀ evs' : list event,
          let s' := run evs' r.2 in
          (promises s' !! r.1 = Some (Awaiting p KReturn)
           ∨ promises s' !! r.1 = Some (Fulfilled (VString "txt")))
          ∧ promises (exec (Resume r.1) s') !! r.1
            = Some (Fulfilled (VString "txt")).
Proof.
  intros s Hav r.
  assert (H : calls r.2 = calls s
              ∧ ∃ p, promises r.2 !! r.1 = Some (Awaiting p KReturn)
                     ∧ promises r.2 !! p = Some (Fulfilled (VString "txt"))).
  { destruct (task s h ("loadLanguage:" +:+ language)) as [p|] eqn:Ht.
    - destruct (run_unavailableIsTxt evs h language p Ht) as [Hav'|Hp];
        [fold s in Hav'; congruence|].
      unfold r. rewrite (ensureLanguageIsLoaded_hit _ _ _ _ Ht).
      split; [done|]. exists p. split; [apply alloc_lookup|].
      munfold. by apply lookup_snoc_Some.
    - destruct (ensureLanguageIsLoaded_unavailable_miss h language s Hav Ht)
        as (_ & Hp & Hq & Hc).
      split; [done|]. eauto. }
  destruct H as (Hc & p & Hq & Hp). split; [done|].
  exists p. split_and!; try done.
  intros evs' s'.
  assert (Hf : follows s' r.1 p KReturn)
    by (apply run_follows; [done | by left]).
  assert (Hp' : promises s' !! p = Some (Fulfilled (VString "txt")))
    by (unfold s';
        by rewrite (run_cell_settled evs' r.2 p (inl (VString "txt"))), Hp
          by by rewrite Hp).
  split.
  - destruct Hf as [?|(r' & Hr' & H)]; [by left|right].
    rewrite Hp' in Hr'. simpl in Hr'. injection Hr' as <-. done.
  - apply (follows_resume _ _ p KReturn (inl (VString "txt"))); [done..|].
    by rewrite Hp'.
Qed.

(** *** Composite languages *)

Lemma loadLanguages_none h language missing isLoaded isSpecial s :
  langsToLoad missing language isLoaded isSpecial = [] →
  loadLanguages h language missing isLoaded isSpecial s
  = (Fulfilled (VString language), s).
Proof. unfold loadLanguages, langsToLoad. by intros ->. Qed.

Lemma loadLanguages_some h language missing isLoaded isSpecial s :
  langsToLoad missing language isLoaded isSpecial ≠ [] →
  loadLanguages h language missing isLoaded isSpecial s
  = (Awaiting (length (promises s)) (KReturnConst (VString language)),
     set_calls
       (λ l, l ++ [(length (promises s),
                    loadLanguage h
                      (langsToLoad missing language isLoaded isSpecial))])
       (set_promises (λ l, l ++ [Pending]) s)).
Proof.
  unfold loadLanguages, langsToLoad. intros H.
  by destruct (missing ++ _).
Qed.

Lemma exec_Resume_settled q p k r s :
  promises s !! q = Some (Awaiting p k) →
  settled (promises s !! p) = Some r →
  exec (Resume q) s = (set_cell q (resume k r s).1 (resume k r s).2).2.
Proof.
  intros Hq Hp. unfold exec. rewrite Hq, Hp. unfold bind.
  by destruct (resume k r s).
Qed.

Lemma exec_Resume_waiting q p k s :
  promises s !! q = Some (Awaiting p k) →
  settled (promises s !! p) = None →
  exec (Resume q) s = s.
Proof. intros Hq Hp. unfold exec. by rewrite Hq, Hp. Qed.

Lemma exec_calls_elem_of ev s c : c ∈ calls s → c ∈ calls (exec ev s).
Proof.
  intros Hc. destruct (exec_calls ev s) as [new ->].
  apply elem_of_app. by left.
Qed.

Lemma exec_cell_settled ev s q r :
  settled (promises s !! q) = Some r →
  promises (exec ev s) !! q = promises s !! q.
Proof. apply (run_cell_settled [ev]). Qed.

Lemma exec_compositeTask ev s p imp h language loaded0 isLoaded isSpecial :
  compositeTask s p imp h language loaded0 isLoaded isSpecial →
  compositeTask (exec ev s) p imp h language loaded0 isLoaded isSpecial.
Proof.
  intros [Hp|[(bl & lp & Himp & Hp & Hc)|[(bl & Himp & Hp & Hc)|[e Hp]]]].
  - (* awaiting the import *)
    destruct (exec_cell ev s p _ Hp) as [H|[[? _]|(? & ? & _ & ->)]];
      [by left | done |].
    destruct (settled (promises s !! imp)) as [r|] eqn:Hr.
    2:{ rewrite (exec_Resume_waiting _ _ _ _ Hp Hr). by left. }
    rewrite (exec_Resume_settled _ _ _ _ _ Hp Hr).
    assert (Hne : p ≠ imp) by (intros ->; rewrite Hp in Hr; done).
    assert (Hlt : p < length (promises s)) by by eapply lookup_lt_Some.
    destruct r as [v|e].
    2:{ right; right; right. exists e. munfold.
        by rewrite list_lookup_insert_eq. }
    destruct v as [| | |bl].
    1-3: right; right; right; exists "TypeError"; munfold;
         by rewrite list_lookup_insert_eq.
    assert (Himp : promises s !! imp = Some (Fulfilled (VModule bl)))
      by (destruct (promises s !! imp) as [[]|]; simpl in Hr; congruence).
    cbn [resume].
    destruct (langsToLoad (missingEmbeddedLangs bl loaded0) language
                isLoaded isSpecial) as [|lang0 rest] eqn:Hl.
    + rewrite (loadLanguages_none _ _ _ _ _ _ Hl).
      right; right; left. exists bl. rewrite Hl. munfold.
      rewrite list_lookup_insert_ne by done.
      rewrite list_lookup_insert_eq by done. auto.
    + rewrite loadLanguages_some by by rewrite Hl.
      right; left. exists bl, (length (promises s)). rewrite Hl. munfold.
      rewrite list_lookup_insert_ne by done.
      rewrite list_lookup_insert_eq by (rewrite length_app; simpl; lia).
      split_and!; [by apply lookup_snoc_Some | done |].
      apply elem_of_app. right. by apply list_elem_of_singleton.
  - (* awaiting the load *)
    assert (Himp' : promises (exec ev s) !! imp
                    = Some (Fulfilled (VModule bl)))
      by (by rewrite (exec_cell_settled ev s imp (inl (VModule bl))), Himp
            by by rewrite Himp).
    destruct (exec_cell ev s p _ Hp) as [H|[[? _]|(? & ? & _ & ->)]];
      [|done|].
    { right; left. exists bl, lp. split_and!; try done.
      by apply exec_calls_elem_of. }
    destruct (settled (promises s !! lp)) as [r|] eqn:Hr.
    2:{ rewrite (exec_Resume_waiting _ _ _ _ Hp Hr).
        right; left. exists bl, lp. done. }
    rewrite (exec_Resume_settled _ _ _ _ _ Hp Hr) in Himp' |- *.
    assert (Hne : p ≠ lp) by (intros ->; rewrite Hp in Hr; done).
    assert (Hlt : p < length (promises s)) by by eapply lookup_lt_Some.
    destruct r as [v|e].
    2:{ right; right; right. exists e. munfold.
        by rewrite list_lookup_insert_eq. }
    right; right; left. exists bl. split; [done|]. munfold.
    rewrite list_lookup_insert_eq by done. split; [done|].
    right. exists lp, v. split; [done|].
    rewrite list_lookup_insert_ne by done.
    destruct (promises s !! lp) as [[]|]; simpl in Hr; congruence.
  - (* fulfilled *)
    right; right; left. exists bl.
    rewrite (exec_cell_settled ev s imp (inl (VModule bl))), Himp
      by by rewrite Himp.
    rewrite (exec_cell_settled ev s p (inl (VString language))), Hp
      by by rewrite Hp.
    split_and!; try done. cbv zeta in *.
    destruct Hc as [?|(lp & v & Hin & Hlp)]; [by left|right].
    exists lp, v. split; [by apply exec_calls_elem_of|].
    by rewrite (exec_cell_settled ev s lp (inl v)), Hlp by by rewrite Hlp.
  - right; right; right. exists e.
    by rewrite (exec_cell_settled ev s p (inr e)), Hp by by rewrite Hp.
Qed.

Lemma run_compositeTask evs s p imp h language loaded0 isLoaded isSpecial :
  compositeTask s p imp h language loaded0 isLoaded isSpecial →
  compositeTask (run evs s) p imp h language loaded0 isLoaded isSpecial.
Proof.
  intros H. induction evs as [|ev evs IH] using rev_ind; [done|].
  rewrite run_snoc. by apply exec_compositeTask.
Qed.

Lemma languageTask_composite h language s :
  includes language ["md"; "markdown"; "mdx"] = true →
  includes language bundledLanguages = true →
  let loaded0 := (getLoadedLanguages h s).1 in
  let imp := length (promises s) in
  languageTask h language s
  = (S imp,
     set_promises
       (λ l, l ++ [Awaiting imp
                     (KLangImported h language loaded0
                        (includes language loaded0)
                        (isSpecialLang language))])
       (set_calls (λ l, l ++ [(imp, importBundled language)])
          (set_promises (λ l, l ++ [Pending]) s))).
Proof.
  intros Hc Hb. unfold languageTask. unfold bind at 1. simpl.
  rewrite Hb, Hc, !orb_true_r. simpl. munfold.
  rewrite length_app. simpl. f_equal. lia.
Qed.

Lemma NoDup_missingEmbeddedLangs
    (bundledLang : list LanguageRegistration) (loaded : list string) :
  NoDup (missingEmbeddedLangs bundledLang loaded).
Proof.
  clear getStableObjectHash isSpecialLang bundledLanguages.
  unfold missingEmbeddedLangs, setOf. apply NoDup_filter.
  apply (setOf_from_spec [] _).
Qed.

(** Lines 77-78 by membership: what is asked for besides the composite
    language is what some registration of the bundle embeds lazily and was
    not loaded. *)
Lemma elem_of_missingEmbeddedLangs
    (bundledLang : list LanguageRegistration) (loaded : list string)
    (x : string) :
  x ∈ missingEmbeddedLangs bundledLang loaded
  ↔ (x ∉ loaded)
    ∧ ∃ reg embedded, reg ∈ bundledLang
        ∧ embeddedLangsLazy reg = Some embedded ∧ x ∈ embedded.
Proof.
  clear getStableObjectHash isSpecialLang bundledLanguages.
  unfold missingEmbeddedLangs, setOf.
  set (all := flat_map _ bundledLang).
  destruct (setOf_from_spec [] all) as [_ Hin].
  rewrite list_elem_of_filter, Hin, elem_of_nil.
  assert (Hall : x ∈ all ↔ ∃ reg embedded, reg ∈ bundledLang
                     ∧ embeddedLangsLazy reg = Some embedded ∧ x ∈ embedded).
  { unfold all. rewrite list_elem_of_In, in_flat_map. split.
    - intros (reg & Hreg & Hx). apply list_elem_of_In in Hreg, Hx.
      destruct (embeddedLangsLazy reg) as [embedded|] eqn:He; simpl in Hx;
        [eauto | by apply elem_of_nil in Hx].
    - intros (reg & embedded & Hreg & He & Hx). exists reg.
      rewrite <- !list_elem_of_In, He. done. }
  rewrite <- Hall.
  destruct (includes x loaded) eqn:Hx; simpl.
  - apply includes_elem_of in Hx. tauto.
  - assert (x ∉ loaded) by (intros ?%elem_of_includes; congruence). tauto.
Qed.

(** C6.  A call for a composite language that Shiki bundles (and does not
    treat as special), with no load task recorded yet: the call requests the
    bundled definition ([imp]) and records the load task [p], suspended on
    it.  Whenever, after any events, [p] is fulfilled, it is fulfilled with
    the requested name, the definition [bundledLang] has arrived, and the
    list [toLoad] has been passed to one [loadLanguage] call whose promise
    is fulfilled (or [toLoad] is empty).  [toLoad] holds every language that
    a registration of [bundledLang] embeds lazily and that was not loaded
    when the task started ([embedded]), each once, then the language itself
    unless it was loaded, and nothing else.  The answer of the call is only ever
    fulfilled with the requested name, and any later call for the language
    awaits the same task. *)
Theorem ensureLanguageIsLoaded_composite
    (h : hid) (language : string) (s : State) :
  includes language ["md"; "markdown"; "mdx"] = true →
  includes language bundledLanguages = true →
  isSpecialLang language = false →
  task s h ("loadLanguage:" +:+ language) = None →
  let loaded0 := (getLoadedLanguages h s).1 in
  let isLoaded := includes language loaded0 in
  let r := ensureLanguageIsLoaded h language s in
  ∃ p imp : pid,
    calls r.2 = calls s ++ [(imp, importBundled language)]
    ∧ promises r.2 !! imp = Some Pending
    ∧ task r.2 h ("loadLanguage:" +:+ language) = Some p
    ∧ promises r.2 !! p
      = Some (Awaiting imp (KLangImported h language loaded0 isLoaded false))
    ∧ promises r.2 !! r.1 = Some (Awaiting p KReturn)
    ∧ ∀ evs' : list event,
        let s' := run evs' r.2 in
        (∀ v, promises s' !! p = Some (Fulfilled v) →
           v = VString language
           ∧ ∃ bundledLang : list LanguageRegistration,
               promises s' !! imp = Some (Fulfilled (VModule bundledLang))
               ∧ let embedded := missingEmbeddedLangs bundledLang loaded0 in
                 let toLoad :=
                   embedded ++ (if isLoaded then [] else [language]) in
                 NoDup embedded
                 ∧ (∀ x, x ∈ embedded
                         ↔ (x ∉ loaded0)
                           ∧ ∃ reg names, reg ∈ bundledLang
                               ∧ embeddedLangsLazy reg = Some names
                               ∧ x ∈ names)
                 ∧ (toLoad = []
                    ∨ ∃ lp v', (lp, loadLanguage h toLoad) ∈ calls s'
                               ∧ promises s' !! lp = Some (Fulfilled v')))
        ∧ (∀ v, promises s' !! r.1 = Some (Fulfilled v) →
                v = VString language)
        ∧ ensureLanguageIsLoaded h language s'
          = alloc (Awaiting p KReturn) s'.
Proof.
  intros Hc Hb Hs Ht loaded0 isLoaded r.
  destruct (ensureTaskMap_frame h s) as (Hp1 & He1 & Hc1).
  assert (Hr : r = alloc (Awaiting (S (length (promises s))) KReturn)
                     (recordTask h ("loadLanguage:" +:+ language)
                        (S (length (promises s)))
                        (languageTask h language (ensureTaskMap h s).2).2).2).
  { unfold r. rewrite ensureLanguageIsLoaded_unfold.
    rewrite (memoizeHighlighterTask_miss _ _ _ _ Ht). cbv zeta.
    rewrite (languageTask_composite _ _ _ Hc Hb). cbn [fst snd].
    by rewrite Hp1. }
  assert (Hl : (getLoadedLanguages h (ensureTaskMap h s).2).1 = loaded0)
    by (unfold loaded0, getLoadedLanguages, gets; simpl; by rewrite He1).
  rewrite (languageTask_composite _ _ _ Hc Hb) in Hr. cbv zeta in Hr.
  rewrite Hl, Hp1, Hs in Hr. fold isLoaded in Hr.
  set (imp := length (promises s)) in *. set (p := S imp) in *.
  assert (Hlen : length (promises r.2) = S (S (S imp)))
    by (rewrite Hr; munfold; rewrite Hp1, !length_app; simpl; lia).
  assert (Himp : promises r.2 !! imp = Some Pending).
  { rewrite Hr. munfold. rewrite Hp1. do 2 apply lookup_snoc_Some.
    by rewrite lookup_app_r, Nat.sub_diag. }
  assert (Hp : promises r.2 !! p
               = Some (Awaiting imp
                         (KLangImported h language loaded0 isLoaded false))).
  { rewrite Hr. munfold. rewrite Hp1. apply lookup_snoc_Some.
    rewrite lookup_app_r; rewrite length_app; simpl; [|lia].
    by replace (p - _) with 0 by lia. }
  assert (Hq : promises r.2 !! r.1 = Some (Awaiting p KReturn)).
  { rewrite Hr at 2. rewrite Hr at 1. apply alloc_lookup. }
  assert (Htask : task r.2 h ("loadLanguage:" +:+ language) = Some p).
  { rewrite Hr. rewrite task_alloc. apply task_recordTask. }
  exists p, imp. split_and!; try done.
  { rewrite Hr. munfold. by rewrite Hc1. }
  intros evs' s'.
  assert (Hphase : compositeTask s' p imp h language loaded0 isLoaded false)
    by (apply run_compositeTask; by left).
  assert (Hfulfilled : ∀ v, promises s' !! p = Some (Fulfilled v) →
            v = VString language
            ∧ ∃ bundledLang : list LanguageRegistration,
                promises s' !! imp = Some (Fulfilled (VModule bundledLang))
                ∧ let embedded := missingEmbeddedLangs bundledLang loaded0 in
                  let toLoad :=
                    embedded ++ (if isLoaded then [] else [language]) in
                  NoDup embedded
                  ∧ (∀ x, x ∈ embedded
                          ↔ (x ∉ loaded0)
                            ∧ ∃ reg names, reg ∈ bundledLang
                                ∧ embeddedLangsLazy reg = Some names
                                ∧ x ∈ names)
                  ∧ (toLoad = []
                     ∨ ∃ lp v', (lp, loadLanguage h toLoad) ∈ calls s'
                                ∧ promises s' !! lp = Some (Fulfilled v'))).
  { intros v Hv.
    destruct Hphase
      as [H|[(bl & lp & _ & H & _)|[(bl & Hi & H & Hload)|[e H]]]];
      rewrite H in Hv; try done.
    injection Hv as <-. split; [done|].
    exists bl. split; [done|]. cbv zeta.
    split; [apply NoDup_missingEmbeddedLangs|].
    split; [intros x; apply elem_of_missingEmbeddedLangs|].
    unfold langsToLoad in Hload. cbv zeta in Hload.
    rewrite andb_true_r in Hload. by destruct isLoaded. }
  split_and!; [done | |].
  - intros v Hv.
    assert (Hf : follows s' r.1 p KReturn)
      by (apply run_follows; [done | by left]).
    destruct (follows_settled _ _ _ _ _ Hf Hv) as (r' & Hr' & Hk); [done|].
    destruct r' as [v'|]; simpl in Hk; [|done]. injection Hk as ->.
    apply Hfulfilled.
    destruct (promises s' !! p) as [[]|]; simpl in Hr'; congruence.
  - apply ensureLanguageIsLoaded_hit. by apply run_task.
Qed.

(** ** The external calls of a run *)

(** An event makes at most one external call, answered by the next new
    promise; which call it can be is read off the event. *)
Lemma exec_calls_new ev s :
  calls (exec ev s) = calls s
  ∨ ∃ c, calls (exec ev s) = calls s ++ [(length (promises s), c)]
      ∧ (length (promises s) < length (promises (exec ev s)))%nat
      ∧ match ev with
        | CallGetCachedHighlighter config =>
            c = getHighlighter [] (langsOf config)
            ∧ highlighterPromiseByConfig s
                !! getStableObjectHash (HashConfig config) = None
        | CallEnsureThemeIsLoaded h theme =>
            c = loadTheme h (themeUsingCacheKey theme (cacheKeyOf s theme))
            ∧ task s h ("loadTheme:" +:+ cacheKeyOf s theme) = None
        | CallEnsureLanguageIsLoaded h language =>
            (c = importBundled language
             ∧ includes language ["md"; "markdown"; "mdx"] = true
             ∧ includes language bundledLanguages = true
             ∨ c = loadLanguage h [language]
               ∧ includes language ["md"; "markdown"; "mdx"] = false
               ∧ includes language bundledLanguages = true)
            ∧ task s h ("loadLanguage:" +:+ language) = None
        | Resume q =>
            ∃ imp h language loaded0 isLoaded isSpecial bundledLang,
              promises s !! q
              = Some (Awaiting imp
                        (KLangImported h language loaded0 isLoaded isSpecial))
              ∧ c = loadLanguage h
                      (langsToLoad (missingEmbeddedLangs bundledLang loaded0)
                         language isLoaded isSpecial)
              ∧ langsToLoad (missingEmbeddedLangs bundledLang loaded0)
                  language isLoaded isSpecial ≠ []
        | _ => False
        end.
Proof.
  destruct ev as [config|h theme|h language|p r|h themes languages|q].
  - simpl. pose proof (getCachedHighlighter_cached config s) as (p & _ & _ & H).
    destruct (highlighterPromiseByConfig s !! _) eqn:Hc.
    + left. by destruct H.
    + right. destruct H as [H Hp]. eexists.
      rewrite getCachedHighlighter_miss in * by done.
      split_and!; [done| |done..]. simpl. rewrite !length_app. simpl. lia.
  - simpl. pose proof (ensureThemeIsLoaded_run h theme s) as [_ H].
    destruct (includes _ _); [left; by destruct H|].
    destruct H as (p & _ & _ & H).
    destruct (task s h _) eqn:Ht; [left; by destruct H|].
    right. destruct H as (H & Hp & ->). apply lookup_lt_Some in Hp. eauto.
  - simpl. rewrite ensureLanguageIsLoaded_unfold. cbv zeta.
    destruct (task s h ("loadLanguage:" +:+ language)) as [p|] eqn:Ht.
    + left. by rewrite (memoizeHighlighterTask_hit _ _ _ _ _ Ht).
    + rewrite memoizeHighlighterTask_miss by done.
      mcases; rewrite ?app_nil_r; simpl in *; simplify_eq; eauto 10;
        right; eexists; (split; [done|]);
        (split; [rewrite !length_app; simpl; lia|eauto]).
      all: split; [right|done]; split_and!; [done..|].
      all: match goal with
           | H : negb (?a || ?b || ?c) = false,
             H' : negb ?a && negb ?b = true |- ?c = true =>
               by destruct a, b, c
           end.
  - left. simpl. mcases; done.
  - by left.
  - simpl. destruct (promises s !! q) as [[|imp k| |]|] eqn:Hq; auto.
    destruct (settled _) as [r|] eqn:Hr; auto.
    destruct r as [v|e]; [|left; mcases; done].
    destruct k; [left; mcases; done..|].
    destruct v as [| | |bundledLang]; try (left; mcases; done).
    unfold bind. cbn [resume].
    destruct (decide (langsToLoad
                        (missingEmbeddedLangs bundledLang loadedLanguages0)
                        language isLoaded isSpecial = [])) as [Hn|Hn].
    + left. rewrite loadLanguages_none by done. by munfold.
    + right. rewrite loadLanguages_some by done. munfold.
      eexists. split; [done|].
      split; [rewrite length_insert, length_app; simpl; lia|eauto 12].
Qed.

(** Promise objects are never discarded. *)
Lemma exec_promises_length ev s :
  (length (promises s) ≤ length (promises (exec ev s)))%nat.
Proof.
  destruct (decide (length (promises s) = 0)) as [|Hne]; [lia|].
  destruct (lookup_lt_is_Some_2 (promises s) (length (promises s) - 1))
    as [c Hc]; [lia|].
  destruct (run_cell_Some [ev] s _ c Hc) as [c' Hc'].
  apply lookup_lt_Some in Hc'. simpl in Hc'. lia.
Qed.

Lemma exec_logged ev s : logged s → logged (exec ev s).
Proof.
  intros (Hlt & Hnd & Hth).
  pose proof (exec_promises_length ev s) as Hlen.
  unfold logged.
  destruct (exec_calls_new ev s) as [Hc|(c & Hc & Hev)]; rewrite Hc.
  - split_and!; [|done|].
    + intros p c Hp. apply Hlt in Hp. lia.
    + intros p h reg Hp. destruct (Hth p h reg Hp) as [Ht ?].
      split; [by apply exec_task|done].
  - split_and!.
    + intros p c' [Hp|Hp%list_elem_of_singleton]%elem_of_app.
      * apply Hlt in Hp. lia.
      * simplify_eq. lia.
    + rewrite fmap_app. simpl. apply NoDup_app.
      split_and!; [done| |by apply NoDup_singleton].
      intros p Hp ->%list_elem_of_singleton.
      apply list_elem_of_fmap in Hp as ([p c'] & ? & Hp). simplify_eq.
      apply Hlt in Hp. simpl in *. lia.
    + intros p h reg [Hp|Hp%list_elem_of_singleton]%elem_of_app.
      * destruct (Hth p h reg Hp) as [Ht ?]. split; [by apply exec_task|done].
      * simplify_eq. destruct Hev as [_ Hev]. destruct ev; try done.
        -- by destruct Hev.
        -- destruct Hev as [? ?]. simplify_eq. simpl.
           pose proof (ensureThemeIsLoaded_run highlighter theme s) as [_ H].
           simpl in Hc. split; [|done].
           destruct (includes _ _).
           ++ destruct H as [_ H]. rewrite H in Hc.
              apply (f_equal length) in Hc. rewrite length_app in Hc.
              simpl in Hc. lia.
           ++ destruct H as (p & Ht & _ & H). rewrite H0 in H.
              destruct H as (_ & _ & ->). done.
        -- by destruct Hev as [[[? _]|[? _]] _].
        -- by destruct Hev as (? & ? & ? & ? & ? & ? & ? & _ & ? & _).
Qed.

Lemma run_logged evs : logged (run evs init).
Proof.
  induction evs as [|ev evs IH] using rev_ind.
  - split_and!; [by intros ? ? ?%elem_of_nil | by apply NoDup_nil |
                 by intros ? ? ? ?%elem_of_nil].
  - rewrite run_snoc. by apply exec_logged.
Qed.

Lemma loadTheme_calls_coincide evs h i j p1 p2 reg1 reg2 :
  calls (run evs init) !! i = Some (p1, loadTheme h reg1) →
  calls (run evs init) !! j = Some (p2, loadTheme h reg2) →
  reg_name reg1 = reg_name reg2 →
  i = j.
Proof.
  intros Hi Hj Hn. destruct (run_logged evs) as (_ & Hnd & Hth).
  destruct (Hth p1 h reg1) as [H1 _]; [by eapply list_elem_of_lookup_2|].
  destruct (Hth p2 h reg2) as [H2 _]; [by eapply list_elem_of_lookup_2|].
  rewrite Hn in H1. simplify_eq.
  eapply NoDup_lookup; [done| |]; rewrite list_lookup_fmap.
  - by rewrite Hi.
  - by rewrite Hj.
Qed.

Lemma filter_at_most_one {A} (P : A → Prop) `{!∀ x, Decision (P x)}
    (l : list A) :
  (∀ i j x y, l !! i = Some x → l !! j = Some y → P x → P y → i = j) →
  (length (filter P l) ≤ 1)%nat.
Proof.
  induction l as [|x l IH]; intros Hone; [simpl; lia|].
  rewrite filter_cons. destruct (decide (P x)) as [Hx|Hx].
  - assert (Hnil : filter P l = []).
    { destruct (filter P l) as [|y l'] eqn:Hf; [done|].
      assert (Hy : y ∈ filter P l) by (rewrite Hf; left).
      apply list_elem_of_filter in Hy as [HPy Hy].
      apply list_elem_of_lookup_1 in Hy as [j Hj].
      by specialize (Hone 0 (S j) x y eq_refl Hj Hx HPy). }
    simpl. rewrite Hnil. simpl. lia.
  - apply IH. intros i j a b Hi Hj Ha Hb.
    by specialize (Hone (S i) (S j) a b Hi Hj Ha Hb) as [= ->].
Qed.

(** X1.  Over a whole run, a highlighter is asked at most once to load a theme
    under a given name. *)
Theorem loadTheme_at_most_once_per_name
    (evs : list event) (h : hid) (key : string) :
  (length (loadThemeCalls (run evs init) h key) ≤ 1)%nat.
Proof.
  unfold loadThemeCalls. apply filter_at_most_one.
  intros i j [p1 c1] [p2 c2] Hi Hj H1 H2. simpl in H1, H2.
  destruct c1 as [| h1 reg1 | |]; try done.
  destruct c2 as [| h2 reg2 | |]; try done.
  apply andb_True in H1 as [?%bool_decide_unpack ?%bool_decide_unpack].
  apply andb_True in H2 as [?%bool_decide_unpack ?%bool_decide_unpack].
  subst. eapply loadTheme_calls_coincide; [done..|congruence].
Qed.

(** Only [getCachedHighlighter] constructs. *)
Lemma exec_calls_other ev s :
  (∀ config, ev ≠ CallGetCachedHighlighter config) →
  calls (exec ev s) = calls s
  ∨ ∃ c, calls (exec ev s) = calls s ++ [(length (promises s), c)]
         ∧ ∀ themes langs, c ≠ getHighlighter themes langs.
Proof.
  intros Hn.
  destruct (exec_calls_new ev s) as [->|(c & -> & _ & Hev)]; [by left|].
  right. exists c. split; [done|]. intros themes ls ->.
  destruct ev as [config|h theme|h language|p r|h themes' languages|q].
  - by destruct (Hn config).
  - by destruct Hev.
  - by destruct Hev as [[[? _]|[? _]] _].
  - done.
  - done.
  - by destruct Hev as (? & ? & ? & ? & ? & ? & ? & _ & ? & _).
Qed.

(** An event other than a cache miss of [getCachedHighlighter] leaves the
    cache alone and constructs nothing; a miss adds one entry and one
    [getHighlighter] call. *)
Lemma exec_constructed ev s :
  (highlighterPromiseByConfig (exec ev s) = highlighterPromiseByConfig s
   ∧ constructed (exec ev s) = constructed s
   ∧ ∀ p themes langs, (p, getHighlighter themes langs) ∈ calls (exec ev s) →
                       (p, getHighlighter themes langs) ∈ calls s)
  ∨ ∃ config,
      highlighterPromiseByConfig s !! getStableObjectHash (HashConfig config)
      = None
      ∧ highlighterPromiseByConfig (exec ev s)
        = <[getStableObjectHash (HashConfig config) := length (promises s)]>
            (highlighterPromiseByConfig s)
      ∧ calls (exec ev s)
        = calls s ++ [(length (promises s),
                       getHighlighter [] (langsOf config))].
Proof.
  assert (Hother : (∀ config, ev ≠ CallGetCachedHighlighter config) →
            highlighterPromiseByConfig (exec ev s)
            = highlighterPromiseByConfig s
            ∧ constructed (exec ev s) = constructed s
            ∧ ∀ p themes langs,
                (p, getHighlighter themes langs) ∈ calls (exec ev s) →
                (p, getHighlighter themes langs) ∈ calls s).
  { intros Hn. split.
    - destruct ev; simpl; try (mcases; done). by destruct (Hn config).
    - unfold constructed.
      destruct (exec_calls_other ev s Hn) as [->|(c & -> & Hne)]; [done|].
      rewrite omap_app. simpl. split.
      + destruct c; rewrite ?app_nil_r; try done.
        by destruct (Hne themes langs0).
      + intros p themes ls [?|?%list_elem_of_singleton]%elem_of_app; [done|].
        simplify_eq. by destruct (Hne themes ls). }
  destruct ev as [config| | | | |]; try (left; by apply Hother).
  destruct (highlighterPromiseByConfig s
              !! getStableObjectHash (HashConfig config)) eqn:Hc.
  - left. simpl. rewrite (getCachedHighlighter_hit _ _ _ Hc). done.
  - right. exists config. simpl. by rewrite getCachedHighlighter_miss.
Qed.

Lemma exec_cacheLogged ev s :
  logged s → cacheLogged s → cacheLogged (exec ev s).
Proof.
  intros (Hlt & _) (Hin & Hcall & Hinj & Hsize).
  destruct (exec_constructed ev s)
    as [(Hc & Hk & Hold)|(config & Hnone & Hc & Hk)];
    unfold cacheLogged; rewrite Hc.
  - split_and!; [| |done|congruence].
    + intros key p Hp. destruct (Hin key p Hp) as (config & ? & Hcs).
      exists config. split; [done|].
      destruct (exec_calls ev s) as [new ->]. apply elem_of_app. by left.
    + intros p themes langs Hp. by apply Hcall, Hold.
  - rewrite Hk. split_and!.
    + intros key p Hp. apply lookup_insert_Some in Hp as [[<- <-]|[_ Hp]].
      * exists config. split; [done|]. apply elem_of_app. right. by left.
      * destruct (Hin key p Hp) as (config' & ? & Hcs).
        exists config'. split; [done|]. apply elem_of_app. by left.
    + intros p themes langs [Hp|Hp%list_elem_of_singleton]%elem_of_app.
      * destruct (Hcall p themes langs Hp) as (-> & config' & -> & Hp').
        split; [done|]. exists config'. split; [done|].
        rewrite lookup_insert_ne; [done|]. congruence.
      * simplify_eq. split; [done|]. exists config.
        by rewrite lookup_insert_eq.
    + assert (Hfresh : ∀ key, highlighterPromiseByConfig s !! key
                              ≠ Some (length (promises s))).
      { intros key Hp. destruct (Hin key _ Hp) as (? & _ & Hcs).
        apply Hlt in Hcs. lia. }
      intros key1 key2 p [[<- <-]|[_ H1]]%lookup_insert_Some
        [[<- ?]|[_ H2]]%lookup_insert_Some; subst;
        first [done | by destruct (Hfresh _ H1) | by destruct (Hfresh _ H2)
              | by eapply Hinj].
    + rewrite map_size_insert_None by done.
      unfold constructed in *. rewrite Hk, omap_app, length_app. simpl.
      lia.
Qed.

Lemma run_cacheLogged evs : cacheLogged (run evs init).
Proof.
  induction evs as [|ev evs IH] using rev_ind.
  - split_and!; try done.
    intros ? ? ? ?%elem_of_nil. done.
  - rewrite run_snoc. apply exec_cacheLogged; [apply run_logged|done].
Qed.

(** X2.  Over a whole run, [getHighlighter] is called exactly once for each
    configuration fingerprint the cache holds: the log has as many
    constructions as the cache has entries, every entry is the promise of
    the construction started for a configuration of that fingerprint, and
    no two fingerprints share a promise. *)
Theorem getCachedHighlighter_constructs_once_per_fingerprint
    (evs : list event) :
  let s := run evs init in
  length (constructed s) = size (highlighterPromiseByConfig s)
  ∧ (∀ key p, highlighterPromiseByConfig s !! key = Some p →
       ∃ config, getStableObjectHash (HashConfig config) = key
                 ∧ (p, getHighlighter [] (langsOf config)) ∈ calls s)
  ∧ (∀ key1 key2 p,
       highlighterPromiseByConfig s !! key1 = Some p →
       highlighterPromiseByConfig s !! key2 = Some p → key1 = key2).
Proof.
  destruct (run_cacheLogged evs) as (Hin & _ & Hinj & Hsize). done.
Qed.

(** X3.  No highlighter is ever constructed with a theme, and languages are
    given to the construction only for a configuration that lists custom
    languages: then these come first and every bundled language follows.
    A configuration without [langs], or with an empty array, constructs an
    engine without languages. *)
Theorem getHighlighter_never_preloads_themes
    (evs : list event) (p : pid) (themes : list string) (ls : list LangArg) :
  (p, getHighlighter themes ls) ∈ calls (run evs init) →
  themes = []
  ∧ ∃ config,
      highlighterPromiseByConfig (run evs init)
        !! getStableObjectHash (HashConfig config) = Some p
      ∧ match langs config with
        | None | Some [] => ls = []
        | Some custom =>
            ls = (CustomLang <$> custom) ++ (BundledLang <$> bundledLanguages)
        end.
Proof.
  intros Hp. destruct (run_cacheLogged evs) as (_ & Hcall & _).
  destruct (Hcall p themes ls Hp) as (-> & config & -> & Hc).
  split; [done|]. exists config. split; [done|].
  unfold langsOf. by destruct (langs config) as [[|]|].
Qed.

(** ** Outcomes are final *)

(** A frame that passes on the outcome [r] of a settled promise: through
    any events it is still suspended or settled with that outcome, and
    resuming it settles it so. *)
Lemma follows_final s q p k r evs :
  passes_on k → follows s q p k → settled (promises s !! p) = Some r →
  let s' := run evs s in
  (promises s' !! q = Some (Awaiting p k)
   ∨ promises s' !! q = Some (kont_result k r))
  ∧ promises (exec (Resume q) s') !! q = Some (kont_result k r).
Proof.
  intros Hk Hf Hr s'.
  assert (Hf' : follows s' q p k) by by apply run_follows.
  assert (Hr' : settled (promises s' !! p) = Some r)
    by (unfold s'; by rewrite (run_cell_settled evs s p r)).
  split.
  - destruct Hf' as [?|(r' & Hr'' & ?)]; [by left|right]. congruence.
  - by apply (follows_resume _ _ p).
Qed.

Lemma exec_call_cell_settled ev s p r :
  settled (promises s !! p) = Some r →
  settled (promises (exec ev s) !! p) = Some r.
Proof. intros H. by rewrite exec_cell_settled with (r := r). Qed.

(** X4.  A theme whose load failed is not loaded again.  With the load task of
    a theme's remembered key rejected, a later call for the theme on that
    highlighter calls nothing outside; unless the engine lists the key by
    then, the answer awaits the rejected task and can only be rejected for
    the same reason. *)
Theorem ensureThemeIsLoaded_failure_is_final
    (h : hid) (theme : ExpressiveCodeTheme) (s : State) (key : string)
    (p : pid) (e : error) (evs : list event) :
  themeCacheKeys s !! theme_id theme = Some key →
  task s h ("loadTheme:" +:+ key) = Some p →
  promises s !! p = Some (Rejected e) →
  let s' := run evs s in
  let r := ensureThemeIsLoaded h theme s' in
  calls r.2 = calls s'
  ∧ if includes key (getLoadedThemes h s').1
    then promises r.2 !! r.1 = Some (Fulfilled (VString key))
    else promises r.2 !! r.1 = Some (Awaiting p (KReturnConst (VString key)))
         ∧ promises (exec (Resume r.1) r.2) !! r.1 = Some (Rejected e)
         ∧ ∀ (evs' : list event) (c : cell),
             promises (run evs' r.2) !! r.1 = Some c →
             c = Awaiting p (KReturnConst (VString key)) ∨ c = Rejected e.
Proof.
  intros Hk Ht Hp s' r.
  assert (Hkey : cacheKeyOf s' theme = key)
    by (unfold cacheKeyOf, s'; by rewrite (run_themeCacheKeys evs s _ _ Hk)).
  assert (Ht' : task s' h ("loadTheme:" +:+ key) = Some p) by by apply run_task.
  assert (Hp' : settled (promises r.2 !! p) = Some (inr e)).
  { change r.2 with (exec (CallEnsureThemeIsLoaded h theme) s').
    apply exec_call_cell_settled. unfold s'.
    by rewrite (run_cell_settled evs s p (inr e)), Hp by by rewrite Hp. }
  pose proof (ensureThemeIsLoaded_run h theme s') as H. cbv zeta in H.
  fold r in H. rewrite Hkey in H. destruct H as [_ H].
  destruct (includes key _); [by destruct H|].
  destruct H as (p' & _ & Hq & H). rewrite Ht' in H. destruct H as [-> Hc].
  split; [done|]. split; [done|].
  assert (Hf : follows r.2 r.1 p (KReturnConst (VString key))) by by left.
  split.
  - by destruct (follows_final r.2 r.1 p (KReturnConst (VString key))
                   (inr e) [] I Hf Hp') as [_ H].
  - intros evs' c Hc'.
    destruct (follows_final r.2 r.1 p (KReturnConst (VString key))
                (inr e) evs' I Hf Hp') as [[H|H] _];
      rewrite H in Hc'; simplify_eq; auto.
Qed.

(** X5.  The key of a theme object is computed once.  A theme object first
    seen with content [t] and presented again with content [t'] (the same
    object, changed in between) is still answered with the key of [t], and
    the second call loads nothing: the key of its first content is loaded
    or being loaded. *)
Theorem ensureThemeIsLoaded_remembers_first_key
    (h : hid) (t t' : ExpressiveCodeTheme) (s0 : State) (evs : list event) :
  theme_id t' = theme_id t →
  themeCacheKeys s0 !! theme_id t = None →
  let r1 := ensureThemeIsLoaded h t s0 in
  let s2 := run evs r1.2 in
  let r2 := ensureThemeIsLoaded h t' s2 in
  answers r1.2 r1.1 (contentKey t)
  ∧ answers r2.2 r2.1 (contentKey t)
  ∧ themeCacheKeys r2.2 !! theme_id t' = Some (contentKey t)
  ∧ calls r2.2 = calls s2
  ∧ ∀ (evs' : list event) (v : value),
      promises (run evs' r2.2) !! r2.1 = Some (Fulfilled v) →
      v = VString (contentKey t).
Proof.
  intros Hid Hnone r1 s2 r2.
  pose proof (ensureThemeIsLoaded_run h t s0) as H1. cbv zeta in H1.
  fold r1 in H1. destruct H1 as [Hk1 H1].
  assert (Hkey1 : cacheKeyOf s0 t = contentKey t)
    by (unfold cacheKeyOf; by rewrite Hnone).
  rewrite Hkey1 in H1, Hk1.
  assert (Hkey2 : cacheKeyOf s2 t' = contentKey t).
  { unfold cacheKeyOf, s2. rewrite Hid.
    by rewrite (run_themeCacheKeys evs r1.2 _ _ Hk1). }
  pose proof (ensureThemeIsLoaded_run h t' s2) as H2. cbv zeta in H2.
  fold r2 in H2. rewrite Hkey2 in H2. destruct H2 as [Hk2 H2].
  set (key := contentKey t) in *.
  assert (Ha1 : answers r1.2 r1.1 key).
  { destruct (includes key _) in H1; [left; apply H1|].
    destruct H1 as (p & _ & Hq & _). right. eauto. }
  assert (Ha2 : answers r2.2 r2.1 key).
  { destruct (includes key _) in H2; [left; apply H2|].
    destruct H2 as (p & _ & Hq & _). right. eauto. }
  assert (Hafter : includes key (getLoadedThemes h s2).1 = true
                   ∨ ∃ p, task s2 h ("loadTheme:" +:+ key) = Some p).
  { destruct (includes key (getLoadedThemes h s0).1) eqn:Hl.
    - left. apply elem_of_includes. apply run_loadedThemes.
      assert (Hx : key ∈ (getLoadedThemes h s0).1)
        by by apply includes_elem_of.
      change r1.2 with (exec (CallEnsureThemeIsLoaded h t) s0).
      by apply exec_loadedThemes.
    - right. destruct H1 as (p & Ht & _). exists p. by apply run_task. }
  split_and!; try done.
  - destruct (includes key (getLoadedThemes h s2).1) eqn:Hl; [apply H2|].
    destruct Hafter as [?|[p Hp]]; [done|].
    destruct H2 as (p' & _ & _ & H2). rewrite Hp in H2. apply H2.
  - intros evs' v Hv. exact (answers_run _ _ _ _ _ Ha2 Hv).
Qed.

(** Once the load task of a language has settled, every later call for the
    language on that highlighter answers with that outcome, and calls
    nothing outside. *)
Lemma ensureLanguageIsLoaded_settled_task h language s p r evs :
  task s h ("loadLanguage:" +:+ language) = Some p →
  settled (promises s !! p) = Some r →
  let s' := run evs s in
  let q := ensureLanguageIsLoaded h language s' in
  calls q.2 = calls s'
  ∧ promises q.2 !! q.1 = Some (Awaiting p KReturn)
  ∧ promises q.2 !! p = Some (cell_of r)
  ∧ promises (exec (Resume q.1) q.2) !! q.1 = Some (cell_of r)
  ∧ ∀ (evs' : list event) (c : cell),
      promises (run evs' q.2) !! q.1 = Some c →
      c = Awaiting p KReturn ∨ c = cell_of r.
Proof.
  intros Ht Hp s' q.
  assert (Ht' : task s' h ("loadLanguage:" +:+ language) = Some p)
    by by apply run_task.
  assert (Hq : q = alloc (Awaiting p KReturn) s')
    by by apply ensureLanguageIsLoaded_hit.
  assert (Hp' : settled (promises q.2 !! p) = Some r).
  { change q.2 with (exec (CallEnsureLanguageIsLoaded h language) s').
    apply exec_call_cell_settled. unfold s'.
    by rewrite (run_cell_settled evs s p r). }
  assert (Hk : ∀ r, kont_result KReturn r = cell_of r) by by intros [].
  assert (Hc : promises q.2 !! q.1 = Some (Awaiting p KReturn))
    by (rewrite Hq; apply alloc_lookup).
  assert (Hf : follows q.2 q.1 p KReturn) by by left.
  split_and!.
  - by rewrite Hq.
  - done.
  - destruct (promises q.2 !! p) as [[]|], r; by simplify_eq/=.
  - rewrite <- Hk.
    by destruct (follows_final q.2 q.1 p KReturn r [] I Hf Hp') as [_ H].
  - intros evs' c Hc'. rewrite <- Hk.
    destruct (follows_final q.2 q.1 p KReturn r evs' I Hf Hp') as [[H|H] _];
      rewrite H in Hc'; simplify_eq; auto.
Qed.

(** X6.  The fallback is permanent.  A language that was not available when
    first asked for is answered "txt" by every later call on that
    highlighter, without any call outside, whatever has happened in
    between, the engine loading that very language included. *)
Theorem ensureLanguageIsLoaded_fallback_is_permanent
    (h : hid) (language : string) (s : State) (evs : list event) :
  isAvailable s h language = false →
  task s h ("loadLanguage:" +:+ language) = None →
  let r1 := ensureLanguageIsLoaded h language s in
  let s2 := run evs r1.2 in
  let r2 := ensureLanguageIsLoaded h language s2 in
  calls r2.2 = calls s2
  ∧ ∃ p : pid,
      promises r2.2 !! r2.1 = Some (Awaiting p KReturn)
      ∧ promises r2.2 !! p = Some (Fulfilled (VString "txt"))
      ∧ promises (exec (Resume r2.1) r2.2) !! r2.1
        = Some (Fulfilled (VString "txt"))
      ∧ ∀ (evs' : list event) (c : cell),
          promises (run evs' r2.2) !! r2.1 = Some c →
          c = Awaiting p KReturn ∨ c = Fulfilled (VString "txt").
Proof.
  intros Hav Ht r1 s2 r2.
  destruct (ensureLanguageIsLoaded_unavailable_miss h language s Hav Ht)
    as (Ht1 & Hp1 & _). fold r1 in Ht1, Hp1.
  destruct (ensureLanguageIsLoaded_settled_task h language r1.2
              (length (promises s)) (inl (VString "txt")) evs Ht1)
    as (Hc & Hq & Hp & Hr & Hall); [by rewrite Hp1|].
  split; [done|]. by exists (length (promises s)).
Qed.

(** X7.  A language whose load failed is not loaded again.  With the load task
    of a language rejected (its import or its [loadLanguage] call failed),
    a later call for the language on that highlighter calls nothing
    outside, and its answer awaits the rejected task: it can only be
    rejected for the same reason. *)
Theorem ensureLanguageIsLoaded_failure_is_final
    (h : hid) (language : string) (s : State) (p : pid) (e : error)
    (evs : list event) :
  task s h ("loadLanguage:" +:+ language) = Some p →
  promises s !! p = Some (Rejected e) →
  let s' := run evs s in
  let r := ensureLanguageIsLoaded h language s' in
  calls r.2 = calls s'
  ∧ promises r.2 !! r.1 = Some (Awaiting p KReturn)
  ∧ promises (exec (Resume r.1) r.2) !! r.1 = Some (Rejected e)
  ∧ ∀ (evs' : list event) (c : cell),
      promises (run evs' r.2) !! r.1 = Some c →
      c = Awaiting p KReturn ∨ c = Rejected e.
Proof.
  intros Ht Hp.
  destruct (ensureLanguageIsLoaded_settled_task h language s p (inr e) evs Ht)
    as (Hc & Hq & _ & Hr & Hall); [by rewrite Hp|].
  done.
Qed.

(** ** Languages other than the composite ones *)

Lemma exec_cell_keep ev s q c :
  promises s !! q = Some c →
  (∀ r, ev ≠ Settle q r) → ev ≠ Resume q →
  promises (exec ev s) !! q = Some c.
Proof.
  intros Hq Hs Hr.
  destruct (exec_cell ev s q c Hq) as [?|[[_ [r ->]]|(? & ? & _ & ->)]];
    [done | by destruct (Hs r) | done].
Qed.

Lemma exec_Settle_pending p r s :
  promises s !! p = Some Pending →
  promises (exec (Settle p r) s) !! p = Some (cell_of r).
Proof.
  intros Hp. simpl. rewrite Hp. munfold.
  rewrite list_lookup_insert_eq; [done | by eapply lookup_lt_Some].
Qed.

(** An external call settles, the task awaiting it is resumed, then the
    answer awaiting the task. *)
Lemma settle_then_resume s lp p q k r r' :
  passes_on k →
  promises s !! lp = Some Pending →
  promises s !! p = Some (Awaiting lp k) →
  promises s !! q = Some (Awaiting p KReturn) →
  kont_result k r = cell_of r' →
  promises (run [Settle lp r; Resume p; Resume q] s) !! q = Some (cell_of r').
Proof.
  intros Hk Hlp Hp Hq Hr'.
  assert (Hn1 : lp ≠ p) by (intros ->; congruence).
  assert (Hn2 : p ≠ q) by (intros ->; congruence).
  assert (Hn3 : lp ≠ q) by (intros ->; congruence).
  change (run [Settle lp r; Resume p; Resume q] s)
    with (exec (Resume q) (exec (Resume p) (exec (Settle lp r) s))).
  set (s1 := exec (Settle lp r) s).
  assert (H1 : promises s1 !! lp = Some (cell_of r))
    by by apply exec_Settle_pending.
  assert (H1p : promises s1 !! p = Some (Awaiting lp k))
    by (apply exec_cell_keep; [done | intros ?; congruence | done]).
  assert (H1q : promises s1 !! q = Some (Awaiting p KReturn))
    by (apply exec_cell_keep; [done | intros ?; congruence | done]).
  set (s2 := exec (Resume p) s1).
  assert (H2p : promises s2 !! p = Some (cell_of r')).
  { rewrite <- Hr'. apply (follows_resume _ _ lp); [done | by left|].
    rewrite H1. by destruct r. }
  assert (H2q : promises s2 !! q = Some (Awaiting p KReturn))
    by (apply exec_cell_keep; [done | done | congruence]).
  replace (cell_of r') with (kont_result KReturn r') by by destruct r'.
  apply (follows_resume _ _ p); [done | by left|].
  rewrite H2p. by destruct r'.
Qed.

(** The task function on an available language that is not composite:
    lines 81-83 with nothing embedded. *)
Lemma languageTask_plain h language s :
  includes language ["md"; "markdown"; "mdx"] = false →
  isAvailable s h language = true →
  let t := languageTask h language s in
  let n := length (promises s) in
  promisesByHighlighter t.2 = promisesByHighlighter s
  ∧ if includes language (getLoadedLanguages h s).1 || isSpecialLang language
    then t.1 = n
         ∧ promises t.2 = promises s ++ [Fulfilled (VString language)]
         ∧ calls t.2 = calls s
    else t.1 = S n
         ∧ promises t.2
           = promises s ++ [Pending;
                            Awaiting n (KReturnConst (VString language))]
         ∧ calls t.2 = calls s ++ [(n, loadLanguage h [language])].
Proof.
  intros Hplain Hav. unfold isAvailable in Hav.
  unfold languageTask, loadLanguages. munfold. rewrite Hplain.
  destruct (includes language (default [] _)), (isSpecialLang language);
    simpl in *; rewrite ?Hav; simpl; rewrite ?app_nil_r, <- ?app_assoc;
    rewrite ?length_app; simpl; rewrite ?Nat.add_1_r; done.
Qed.

(** X8.  A call for an available language that is not one of the composite
    ones, with no load task recorded yet.  If the language is loaded or
    special, nothing is called outside and the task is fulfilled with the
    language name at once.  Otherwise the engine is asked once to load
    exactly that language; when that call is fulfilled the answer is the
    language name, and when it is rejected the answer is rejected for the
    same reason. *)
Theorem ensureLanguageIsLoaded_plain
    (h : hid) (language : string) (s : State) :
  includes language ["md"; "markdown"; "mdx"] = false →
  isAvailable s h language = true →
  task s h ("loadLanguage:" +:+ language) = None →
  let r := ensureLanguageIsLoaded h language s in
  ∃ p : pid,
    task r.2 h ("loadLanguage:" +:+ language) = Some p
    ∧ promises r.2 !! r.1 = Some (Awaiting p KReturn)
    ∧ if includes language (getLoadedLanguages h s).1 || isSpecialLang language
      then calls r.2 = calls s
           ∧ promises r.2 !! p = Some (Fulfilled (VString language))
           ∧ promises (exec (Resume r.1) r.2) !! r.1
             = Some (Fulfilled (VString language))
      else ∃ lp : pid,
           calls r.2 = calls s ++ [(lp, loadLanguage h [language])]
           ∧ promises r.2 !! lp = Some Pending
           ∧ promises r.2 !! p
             = Some (Awaiting lp (KReturnConst (VString language)))
           ∧ (∀ v, promises (run [Settle lp (inl v); Resume p; Resume r.1] r.2)
                     !! r.1 = Some (Fulfilled (VString language)))
           ∧ (∀ e, promises (run [Settle lp (inr e); Resume p; Resume r.1] r.2)
                     !! r.1 = Some (Rejected e)).
Proof.
  intros Hplain Hav Ht r.
  set (s0 := (ensureTaskMap h s).2).
  set (t := languageTask h language s0).
  assert (Hr : r = alloc (Awaiting t.1 KReturn)
                     (recordTask h ("loadLanguage:" +:+ language) t.1 t.2).2).
  { unfold r. rewrite ensureLanguageIsLoaded_unfold. cbv zeta.
    by rewrite memoizeHighlighterTask_miss. }
  destruct (ensureTaskMap_frame h s) as (Hp0 & He0 & Hc0). fold s0 in Hp0, He0, Hc0.
  assert (Hav0 : isAvailable s0 h language = true)
    by (unfold s0; by rewrite isAvailable_ensureTaskMap).
  assert (Hl0 : (getLoadedLanguages h s0).1 = (getLoadedLanguages h s).1)
    by (unfold getLoadedLanguages, gets; simpl; by rewrite He0).
  destruct (languageTask_plain h language s0 Hplain Hav0) as [_ Hplain'].
  fold t in Hplain'. rewrite Hl0, Hp0, Hc0 in Hplain'.
  assert (Hpr : promises r.2 = promises t.2 ++ [Awaiting t.1 KReturn])
    by (rewrite Hr; by munfold).
  assert (Hr1 : r.1 = length (promises t.2)) by (rewrite Hr; by munfold).
  assert (Hcr : calls r.2 = calls t.2) by (rewrite Hr; by munfold).
  assert (Htr : task r.2 h ("loadLanguage:" +:+ language) = Some t.1)
    by (rewrite Hr, task_alloc; apply task_recordTask).
  assert (Hq : promises r.2 !! r.1 = Some (Awaiting t.1 KReturn))
    by (rewrite Hpr, Hr1, lookup_app_r, Nat.sub_diag by lia; done).
  exists t.1. split; [done|]. split; [done|].
  destruct (includes language _ || isSpecialLang language).
  - destruct Hplain' as (Ht1 & Hpt & Hct).
    assert (Hp : promises r.2 !! t.1 = Some (Fulfilled (VString language))).
    { rewrite Hpr, Hpt, Ht1. apply lookup_snoc_Some.
      by rewrite lookup_app_r, Nat.sub_diag by lia. }
    split; [congruence|]. split; [done|].
    apply (follows_resume _ _ t.1 KReturn (inl (VString language)));
      [done | by left | by rewrite Hp].
  - destruct Hplain' as (Ht1 & Hpt & Hct).
    set (n := length (promises s)) in *.
    assert (Hlp : promises r.2 !! n = Some Pending).
    { rewrite Hpr, Hpt. apply lookup_snoc_Some.
      by rewrite lookup_app_r, Nat.sub_diag by lia. }
    assert (Hp : promises r.2 !! t.1
                 = Some (Awaiting n (KReturnConst (VString language)))).
    { rewrite Hpr, Hpt, Ht1. apply lookup_snoc_Some.
      rewrite lookup_app_r by (unfold n; lia).
      by replace (S n - length (promises s)) with 1 by (unfold n; lia). }
    exists n. split_and!; [congruence | done | done | |].
    + intros v.
      by apply (settle_then_resume _ _ _ _ (KReturnConst (VString language))
                  (inl v) (inl (VString language))).
    + intros e.
      by apply (settle_then_resume _ _ _ _ (KReturnConst (VString language))
                  (inr e) (inr e)).
Qed.

(** ** A load, from the call to the answer *)

(** A rejection passes through any frame. *)
Lemma exec_Resume_rejected s q p k e :
  promises s !! q = Some (Awaiting p k) →
  promises s !! p = Some (Rejected e) →
  promises (exec (Resume q) s) !! q = Some (Rejected e)
  ∧ calls (exec (Resume q) s) = calls s
  ∧ ∀ q' c, q' ≠ q → promises s !! q' = Some c →
            promises (exec (Resume q) s) !! q' = Some c.
Proof.
  intros Hq Hp.
  rewrite (exec_Resume_settled q p k (inr e)) by (done || by rewrite Hp).
  munfold. split_and!; [|done|].
  - rewrite list_lookup_insert_eq; [done | by eapply lookup_lt_Some].
  - intros q' c Hne Hq'. by rewrite list_lookup_insert_ne.
Qed.

Lemma settle_then_resume_rejected s lp p q k e :
  promises s !! lp = Some Pending →
  promises s !! p = Some (Awaiting lp k) →
  promises s !! q = Some (Awaiting p KReturn) →
  promises (run [Settle lp (inr e); Resume p; Resume q] s) !! q
  = Some (Rejected e).
Proof.
  intros Hlp Hp Hq.
  assert (Hn1 : lp ≠ p) by (intros ->; congruence).
  assert (Hn2 : p ≠ q) by (intros ->; congruence).
  change (run [Settle lp (inr e); Resume p; Resume q] s)
    with (exec (Resume q) (exec (Resume p) (exec (Settle lp (inr e)) s))).
  set (s1 := exec (Settle lp (inr e)) s).
  assert (H1 : promises s1 !! lp = Some (Rejected e))
    by by apply (exec_Settle_pending lp (inr e)).
  assert (H1p : promises s1 !! p = Some (Awaiting lp k))
    by (apply exec_cell_keep; [done | intros ?; congruence | done]).
  assert (H1q : promises s1 !! q = Some (Awaiting p KReturn))
    by (apply exec_cell_keep; [done | intros ?; congruence | done]).
  destruct (exec_Resume_rejected s1 p lp k e H1p H1) as (H2p & _ & H2).
  destruct (exec_Resume_rejected (exec (Resume p) s1) q p KReturn e)
    as [H3 _]; [by apply H2 | done | done].
Qed.

(** X9.  A theme, from the call to the answer.  If the engine lists the
    theme's key, the call answers with the key at once and calls nothing.
    Otherwise the answer awaits the load task of the key: started by this
    call, with one [loadTheme] call, when none is recorded.  When that call
    is fulfilled the answer is the key; when it is rejected the answer is
    rejected for the same reason. *)
Theorem ensureThemeIsLoaded_settles_with_the_load
    (h : hid) (theme : ExpressiveCodeTheme) (s : State) :
  let key := cacheKeyOf s theme in
  let r := ensureThemeIsLoaded h theme s in
  if includes key (getLoadedThemes h s).1
  then calls r.2 = calls s
       ∧ promises r.2 !! r.1 = Some (Fulfilled (VString key))
  else ∃ p : pid,
       task r.2 h ("loadTheme:" +:+ key) = Some p
       ∧ promises r.2 !! r.1 = Some (Awaiting p (KReturnConst (VString key)))
       ∧ (task s h ("loadTheme:" +:+ key) = None →
          calls r.2
          = calls s ++ [(p, loadTheme h (themeUsingCacheKey theme key))]
          ∧ promises r.2 !! p = Some Pending
          ∧ (∀ v, promises (run [Settle p (inl v); Resume r.1] r.2) !! r.1
                  = Some (Fulfilled (VString key)))
          ∧ (∀ e, promises (run [Settle p (inr e); Resume r.1] r.2) !! r.1
                  = Some (Rejected e))).
Proof.
  intros key r.
  pose proof (ensureThemeIsLoaded_run h theme s) as [_ H]. fold key r in H.
  destruct (includes key _); [by destruct H|].
  destruct H as (p & Ht & Hq & H). exists p. split; [done|]. split; [done|].
  intros Hnone. rewrite Hnone in H. destruct H as (Hc & Hp & _).
  split; [done|]. split; [done|].
  assert (Hne : p ≠ r.1) by (intros Heq; rewrite Heq in Hp; congruence).
  assert (Hstep : ∀ o, promises (run [Settle p o; Resume r.1] r.2) !! r.1
                       = Some (kont_result (KReturnConst (VString key)) o)).
  { intros o.
    change (run [Settle p o; Resume r.1] r.2)
      with (exec (Resume r.1) (exec (Settle p o) r.2)).
    apply (follows_resume _ _ p); [done | left |].
    - apply exec_cell_keep; [done | intros ?; congruence | done].
    - rewrite (exec_Settle_pending p o) by done. by destruct o. }
  split; intros x; apply Hstep.
Qed.

(** The call for a composite language: the import is requested, the load
    task suspended on it, and the answer on the task. *)
Lemma ensureLanguageIsLoaded_composite_start h language s :
  includes language ["md"; "markdown"; "mdx"] = true →
  includes language bundledLanguages = true →
  isSpecialLang language = false →
  task s h ("loadLanguage:" +:+ language) = None →
  let loaded0 := (getLoadedLanguages h s).1 in
  let isLoaded := includes language loaded0 in
  let r := ensureLanguageIsLoaded h language s in
  let imp := length (promises s) in
  let p := S imp in
  calls r.2 = calls s ++ [(imp, importBundled language)]
  ∧ promises r.2 !! imp = Some Pending
  ∧ promises r.2 !! p
    = Some (Awaiting imp (KLangImported h language loaded0 isLoaded false))
  ∧ promises r.2 !! r.1 = Some (Awaiting p KReturn)
  ∧ r.1 = S p
  ∧ length (promises r.2) = S (S p).
Proof.
  intros Hc Hb Hs Ht loaded0 isLoaded r imp p.
  destruct (ensureTaskMap_frame h s) as (Hp1 & He1 & Hc1).
  assert (Hr : r = alloc (Awaiting (S (length (promises s))) KReturn)
                     (recordTask h ("loadLanguage:" +:+ language)
                        (S (length (promises s)))
                        (languageTask h language (ensureTaskMap h s).2).2).2).
  { unfold r. rewrite ensureLanguageIsLoaded_unfold.
    rewrite (memoizeHighlighterTask_miss _ _ _ _ Ht). cbv zeta.
    rewrite (languageTask_composite _ _ _ Hc Hb). cbn [fst snd].
    by rewrite Hp1. }
  assert (Hl : (getLoadedLanguages h (ensureTaskMap h s).2).1 = loaded0)
    by (unfold loaded0, getLoadedLanguages, gets; simpl; by rewrite He1).
  rewrite (languageTask_composite _ _ _ Hc Hb) in Hr. cbv zeta in Hr.
  rewrite Hl, Hp1, Hs in Hr. fold isLoaded in Hr. fold imp in Hr.
  fold p in Hr.
  assert (Hlen : length (promises r.2) = S (S p))
    by (rewrite Hr; munfold; rewrite Hp1, !length_app; simpl; lia).
  split_and!.
  - rewrite Hr. munfold. by rewrite Hc1.
  - rewrite Hr. munfold. rewrite Hp1. do 2 apply lookup_snoc_Some.
    by rewrite lookup_app_r, Nat.sub_diag.
  - rewrite Hr. munfold. rewrite Hp1. apply lookup_snoc_Some.
    rewrite lookup_app_r; rewrite length_app; simpl; [|lia].
    by replace (p - _) with 0 by lia.
  - rewrite Hr at 2. rewrite Hr at 1. apply alloc_lookup.
  - rewrite Hr. munfold. rewrite Hp1, !length_app. simpl. lia.
  - done.
Qed.

(** X10.  A composite language, from the call to the answer.  Once the
    bundle has arrived and the load task is resumed, the task asks the
    engine once for what is missing ([toLoad]) and, when that call is
    fulfilled, the answer is the language name; with nothing missing the
    engine is not asked and the answer is the language name at once.  If
    the import or the load is rejected, so is the answer, for the same
    reason. *)
Theorem ensureLanguageIsLoaded_composite_completes
    (h : hid) (language : string) (s : State)
    (bundledLang : list LanguageRegistration) :
  includes language ["md"; "markdown"; "mdx"] = true →
  includes language bundledLanguages = true →
  isSpecialLang language = false →
  task s h ("loadLanguage:" +:+ language) = None →
  let loaded0 := (getLoadedLanguages h s).1 in
  let toLoad :=
    langsToLoad (missingEmbeddedLangs bundledLang loaded0) language
      (includes language loaded0) false in
  let r := ensureLanguageIsLoaded h language s in
  ∃ p imp : pid,
    calls r.2 = calls s ++ [(imp, importBundled language)]
    ∧ (∀ e, promises (run [Settle imp (inr e); Resume p; Resume r.1] r.2)
              !! r.1 = Some (Rejected e))
    ∧ let s1 := run [Settle imp (inl (VModule bundledLang)); Resume p] r.2 in
      if decide (toLoad = [])
      then calls s1 = calls r.2
           ∧ promises (run [Resume r.1] s1) !! r.1
             = Some (Fulfilled (VString language))
      else ∃ lp : pid,
           calls s1 = calls r.2 ++ [(lp, loadLanguage h toLoad)]
           ∧ (∀ v, promises (run [Settle lp (inl v); Resume p; Resume r.1] s1)
                     !! r.1 = Some (Fulfilled (VString language)))
           ∧ (∀ e, promises (run [Settle lp (inr e); Resume p; Resume r.1] s1)
                     !! r.1 = Some (Rejected e)).
Proof.
  intros Hc Hb Hs Ht loaded0 toLoad r.
  destruct (ensureLanguageIsLoaded_composite_start h language s Hc Hb Hs Ht)
    as (Hcalls & Himp & Hp & Hq & Hr1 & Hlen).
  fold loaded0 r in Hcalls, Himp, Hp, Hq, Hr1, Hlen.
  set (imp := length (promises s)) in *. set (p := S imp) in *.
  exists p, imp. split; [done|].
  split; [intros e; by eapply settle_then_resume_rejected|].
  intros s1.
  set (s0 := exec (Settle imp (inl (VModule bundledLang))) r.2).
  assert (H0 : promises s0 !! imp = Some (Fulfilled (VModule bundledLang)))
    by by apply (exec_Settle_pending imp (inl (VModule bundledLang))).
  assert (H0p : promises s0 !! p
                = Some (Awaiting imp
                          (KLangImported h language loaded0
                             (includes language loaded0) false)))
    by (apply exec_cell_keep; [done | intros ? [=]; lia | done]).
  assert (H0q : promises s0 !! r.1 = Some (Awaiting p KReturn))
    by (apply exec_cell_keep; [done | intros ? [=]; lia | done]).
  assert (H0c : calls s0 = calls r.2)
    by (unfold s0; simpl; rewrite Himp; by munfold).
  assert (H0l : length (promises s0) = S (S p)).
  { unfold s0. simpl. rewrite Himp. munfold. by rewrite length_insert. }
  assert (Hs1 : s1 = (set_cell p
                        (loadLanguages h language
                           (missingEmbeddedLangs bundledLang loaded0)
                           (includes language loaded0) false s0).1
                        (loadLanguages h language
                           (missingEmbeddedLangs bundledLang loaded0)
                           (includes language loaded0) false s0).2).2).
  { unfold s1.
    change (run [Settle imp (inl (VModule bundledLang)); Resume p] r.2)
      with (exec (Resume p) s0).
    by rewrite (exec_Resume_settled p imp _ (inl (VModule bundledLang)))
      by (done || by rewrite H0). }
  destruct (decide (toLoad = [])) as [Hnil|Hsome].
  - rewrite loadLanguages_none in Hs1 by done. simpl in Hs1.
    assert (H1p : promises s1 !! p = Some (Fulfilled (VString language))).
    { rewrite Hs1. munfold. rewrite list_lookup_insert_eq; [done|]. lia. }
    assert (H1q : promises s1 !! r.1 = Some (Awaiting p KReturn)).
    { rewrite Hs1. munfold. rewrite list_lookup_insert_ne by lia. done. }
    split; [rewrite Hs1; by munfold|].
    change (run [Resume r.1] s1) with (exec (Resume r.1) s1).
    apply (follows_resume _ _ p KReturn (inl (VString language)));
      [done | by left | by rewrite H1p].
  - rewrite loadLanguages_some in Hs1 by done. cbn [fst snd] in Hs1.
    set (lp := length (promises s0)) in *.
    assert (H1lp : promises s1 !! lp = Some Pending).
    { rewrite Hs1. munfold. rewrite list_lookup_insert_ne by (unfold lp; lia).
      by rewrite lookup_app_r, Nat.sub_diag by (unfold lp; lia). }
    assert (H1p : promises s1 !! p
                  = Some (Awaiting lp (KReturnConst (VString language)))).
    { rewrite Hs1. munfold. rewrite list_lookup_insert_eq; [done|].
      rewrite length_app. lia. }
    assert (H1q : promises s1 !! r.1 = Some (Awaiting p KReturn)).
    { rewrite Hs1. munfold. rewrite list_lookup_insert_ne by lia.
      by apply lookup_snoc_Some. }
    exists lp. split_and!.
    + rewrite Hs1. munfold. by rewrite H0c.
    + intros v.
      by apply (settle_then_resume _ _ _ _ (KReturnConst (VString language))
                  (inl v) (inl (VString language))).
    + intros e. by eapply settle_then_resume_rejected.
Qed.

(** ** What is asked of the engine for languages *)

(** X11.  Lines 77-78: the languages asked for besides the composite one are
    the languages that some registration of its bundle embeds lazily and
    that were not loaded when the task started, each once.  With the
    language itself added unless it was loaded (line 81), nothing in the
    request was loaded when the task started. *)
Theorem missingEmbeddedLangs_spec
    (bundledLang : list LanguageRegistration) (loaded : list string)
    (language : string) (isSpecial : bool) :
  NoDup (missingEmbeddedLangs bundledLang loaded)
  ∧ (∀ x, x ∈ missingEmbeddedLangs bundledLang loaded
          ↔ (x ∉ loaded)
            ∧ ∃ reg embedded, reg ∈ bundledLang
                ∧ embeddedLangsLazy reg = Some embedded ∧ x ∈ embedded)
  ∧ Forall (λ x, x ∉ loaded)
      (langsToLoad (missingEmbeddedLangs bundledLang loaded) language
         (includes language loaded) isSpecial).
Proof.
  clear getStableObjectHash isSpecialLang bundledLanguages.
  unfold missingEmbeddedLangs, setOf.
  set (all := flat_map _ bundledLang).
  destruct (setOf_from_spec [] all) as [Hnd Hin].
  assert (Hall : ∀ x, x ∈ all ↔ ∃ reg embedded, reg ∈ bundledLang
                         ∧ embeddedLangsLazy reg = Some embedded ∧ x ∈ embedded).
  { intros x. unfold all. rewrite list_elem_of_In, in_flat_map. split.
    - intros (reg & Hreg & Hx). apply list_elem_of_In in Hreg, Hx.
      destruct (embeddedLangsLazy reg) as [embedded|] eqn:He; simpl in Hx;
        [eauto | by apply elem_of_nil in Hx].
    - intros (reg & embedded & Hreg & He & Hx). exists reg.
      rewrite <- !list_elem_of_In, He. done. }
  assert (Hmiss : ∀ x, x ∈ filter (λ lang, negb (includes lang loaded))
                              (setOf_from [] all)
                       ↔ (x ∉ loaded) ∧ x ∈ all).
  { intros x. rewrite list_elem_of_filter, Hin.
    destruct (includes x loaded) eqn:Hx; simpl.
    - apply includes_elem_of in Hx. rewrite elem_of_nil. tauto.
    - assert (x ∉ loaded) by (intros ?%elem_of_includes; congruence).
      rewrite elem_of_nil. tauto. }
  split_and!.
  - by apply NoDup_filter.
  - intros x. by rewrite Hmiss, Hall.
  - unfold langsToLoad. apply Forall_app. split.
    + apply Forall_forall. intros x Hx. by apply Hmiss in Hx as [? _].
    + destruct (includes language loaded) eqn:Hl; simpl; [done|].
      destruct isSpecial; simpl; [done|].
      apply Forall_singleton. intros ?%elem_of_includes. congruence.
Qed.

(** X12.  Over a whole run: a bundle is imported only for a composite language
    that Shiki bundles, and the engine is never asked to load an empty
    list of languages. *)
Theorem language_calls_are_needed
    (evs : list event) (p : pid) (c : Call) :
  (p, c) ∈ calls (run evs init) →
  match c with
  | importBundled language =>
      includes language ["md"; "markdown"; "mdx"] = true
      ∧ includes language bundledLanguages = true
  | loadLanguage _ ls => ls ≠ []
  | _ => True
  end.
Proof.
  induction evs as [|ev evs IH] using rev_ind; [by intros ?%elem_of_nil|].
  rewrite run_snoc.
  destruct (exec_calls_new ev (run evs init)) as [->|(c' & -> & _ & Hev)];
    [done|].
  intros [?|Hp%list_elem_of_singleton]%elem_of_app; [by apply IH|].
  simplify_eq. clear IH.
  destruct ev as [config|h theme|h language| | |q]; try done.
  - by destruct Hev as [-> _].
  - by destruct Hev as [-> _].
  - by destruct Hev as [[(-> & ? & ?)|(-> & _)] _].
  - by destruct Hev as (? & ? & ? & ? & ? & ? & ? & _ & -> & ?).
Qed.

End Shiki.

(** ** A concrete instance *)

(** A stand-in for [getStableObjectHash] that spells its input out. *)
Definition sampleHash (x : StableHashInput) : string :=
  match x with
  | HashConfig config =>
      match langs config with
      | None => "{}"
      | Some l => "langs:" +:+ String.concat "," (lang_name <$> concat l)
      end
  | HashThemeContent bg fg _ => "bg:" +:+ bg +:+ ",fg:" +:+ fg
  end.

(** Shiki's [isSpecialLang]: the empty name, the plain-text names and
    ["ansi"]. *)
Definition sampleIsSpecialLang (language : string) : bool :=
  bool_decide (language = EmptyString)
  || includes language ["plaintext"; "txt"; "text"; "plain"; "ansi"].


Definition sampleBundledLanguages : list string :=
  ["css"; "javascript"; "markdown"; "md"; "mdx"; "typescript"].

Definition sampleConfig : Config := {| langs := None |}.

Definition darkTheme (id : tid) (background : string) : ExpressiveCodeTheme :=
  {| theme_id := id; name := "dark"; bg := background; fg := "#ffffff";
     settings := None |}.

(** The call made, then the construction failing. *)
Definition failedConstruction : State :=
  run sampleHash sampleIsSpecialLang sampleBundledLanguages
    [CallGetCachedHighlighter sampleConfig; Settle 0 (inr "boom")] init.

(** The default export of the bundled ["mdx"] module, with one embedded
    language listed twice. *)
Definition mdxModule : value :=
  VModule [ {| lang_name := "mdx"; scopeName := "source.mdx";
               embeddedLangsLazy := Some ["css"; "javascript"; "css"] |} ].

(** Loading ["mdx"] into a fresh engine, from the call to the caller's
    promise: the import (promise 0) resolves, the task (promise 1) resumes and
    asks the engine for the embedded languages and ["mdx"] in one call
    (promise 3), that call settles, and the task and the caller (promise 2)
    resume in turn. *)
Example ensureLanguageIsLoaded_mdx_trace :
  let s := run sampleHash sampleIsSpecialLang sampleBundledLanguages
             [CallEnsureLanguageIsLoaded 0 "mdx"; Settle 0 (inl mdxModule);
              Resume 1; Settle 3 (inl VUndefined); Resume 1; Resume 2] init in
  promises s = [Fulfilled mdxModule; Fulfilled (VString "mdx");
                Fulfilled (VString "mdx"); Fulfilled VUndefined]
  ∧ calls s = [(0, importBundled "mdx");
               (3, loadLanguage 0 ["css"; "javascript"; "mdx"])].
Proof. vm_compute. done. Qed.

(** Two theme objects of equal content, then the first one again: one
    [loadTheme], and every caller gets the same cache key. *)
Example ensureThemeIsLoaded_trace :
  let s := run sampleHash sampleIsSpecialLang sampleBundledLanguages
             [CallEnsureThemeIsLoaded 0 (darkTheme 1 "#000000");
              CallEnsureThemeIsLoaded 0 (darkTheme 2 "#000000");
              Settle 0 (inl VUndefined);
              EngineLoaded 0 ["dark-bg:#000000,fg:#ffffff"] [];
              Resume 1; Resume 2;
              CallEnsureThemeIsLoaded 0 (darkTheme 1 "#000000")] init in
  promises s = [Fulfilled VUndefined;
                Fulfilled (VString "dark-bg:#000000,fg:#ffffff");
                Fulfilled (VString "dark-bg:#000000,fg:#ffffff");
                Fulfilled (VString "dark-bg:#000000,fg:#ffffff")]
  ∧ length (calls s) = 1.
Proof. vm_compute. done. Qed.

(** C1 as stated fails: from the empty cache, two calls with the same
    configuration return the promises 1 and 2, two different objects (both
    awaiting the cached construction promise 0). *)
Lemma getCachedHighlighter_returns_distinct_promises :
  let r1 := getCachedHighlighter sampleHash sampleBundledLanguages
              sampleConfig init in
  let r2 := getCachedHighlighter sampleHash sampleBundledLanguages
              sampleConfig r1.2 in
  r1.1 = 1 ∧ r2.1 = 2 ∧ r1.1 ≠ r2.1
  ∧ promises r2.2 !! r1.1 = Some (Awaiting 0 KReturn)
  ∧ promises r2.2 !! r2.1 = Some (Awaiting 0 KReturn).
Proof. vm_compute. repeat split; congruence. Qed.

Lemma getCachedHighlighter_shared_construction_witness :
  sampleHash (HashConfig sampleConfig) = sampleHash (HashConfig sampleConfig)
  ∧ ∃ p : pid,
      let r1 := getCachedHighlighter sampleHash sampleBundledLanguages
                  sampleConfig init in
      let r2 := getCachedHighlighter sampleHash sampleBundledLanguages
                  sampleConfig r1.2 in
      promises r1.2 !! r1.1 = Some (Awaiting p KReturn)
      ∧ promises r2.2 !! r2.1 = Some (Awaiting p KReturn)
      ∧ calls r2.2 = calls r1.2.
Proof.
  split; [reflexivity|].
  destruct (getCachedHighlighter_shared_construction
              sampleHash sampleIsSpecialLang sampleBundledLanguages
              init sampleConfig sampleConfig [] eq_refl)
    as (p & _ & _ & Hc & _ & H1 & H2 & _).
  exists p. repeat split; assumption.
Defined.

(** C10 as stated fails: after the construction promise 0 is rejected, a
    later call with the same configuration returns promise 2, a new object
    that is not (yet) rejected, not the cached rejected promise 0. *)
Lemma getCachedHighlighter_failure_returns_new_promise :
  let r := getCachedHighlighter sampleHash sampleBundledLanguages
             sampleConfig failedConstruction in
  highlighterPromiseByConfig failedConstruction
    !! sampleHash (HashConfig sampleConfig) = Some 0
  ∧ promises failedConstruction !! 0 = Some (Rejected "boom")
  ∧ r.1 = 2 ∧ r.1 ≠ 0
  ∧ promises r.2 !! r.1 = Some (Awaiting 0 KReturn).
Proof. vm_compute. repeat split; congruence. Qed.

Lemma getCachedHighlighter_failure_stays_cached_witness :
  highlighterPromiseByConfig failedConstruction
    !! sampleHash (HashConfig sampleConfig) = Some 0
  ∧ promises failedConstruction !! 0 = Some (Rejected "boom")
  ∧ let r := getCachedHighlighter sampleHash sampleBundledLanguages
               sampleConfig failedConstruction in
    calls r.2 = calls failedConstruction
    ∧ promises (exec sampleHash sampleIsSpecialLang sampleBundledLanguages
                  (Resume r.1) r.2) !! r.1 = Some (Rejected "boom").
Proof.
  assert (H1 : highlighterPromiseByConfig failedConstruction
                 !! sampleHash (HashConfig sampleConfig) = Some 0)
    by (vm_compute; reflexivity).
  assert (H2 : promises failedConstruction !! 0 = Some (Rejected "boom"))
    by (vm_compute; reflexivity).
  split; [exact H1|]. split; [exact H2|].
  destruct (getCachedHighlighter_failure_stays_cached
              sampleHash sampleIsSpecialLang sampleBundledLanguages
              failedConstruction sampleConfig 0 "boom" [] H1 H2)
    as (_ & _ & Hc & _ & _ & Hr & _).
  split; assumption.
Defined.





Lemma ensureLanguageIsLoaded_unavailable_witness :
  isAvailable sampleIsSpecialLang sampleBundledLanguages init 0 "klingon"
  = false
  ∧ ∃ p : pid,
      let r := ensureLanguageIsLoaded sampleIsSpecialLang
                 sampleBundledLanguages 0 "klingon" init in
      promises r.2 !! r.1 = Some (Awaiting p KReturn)
      ∧ promises r.2 !! p = Some (Fulfilled (VString "txt"))
      ∧ calls r.2 = [].
Proof.
  split; [reflexivity|].
  destruct (ensureLanguageIsLoaded_unavailable
              sampleHash sampleIsSpecialLang sampleBundledLanguages
              [] 0 "klingon" eq_refl)
    as (Hc & p & Hq & Hp & _).
  exists p. repeat split; assumption.
Defined.

Lemma ensureLanguageIsLoaded_composite_witness :
  includes "mdx" sampleBundledLanguages = true
  ∧ sampleIsSpecialLang "mdx" = false
  ∧ let r := ensureLanguageIsLoaded sampleIsSpecialLang
               sampleBundledLanguages 0 "mdx" init in
    let s' := run sampleHash sampleIsSpecialLang sampleBundledLanguages
                [Settle 0 (inl mdxModule); Resume 1;
                 Settle 3 (inl VUndefined); Resume 1] r.2 in
    calls r.2 = [(0, importBundled "mdx")]
    ∧ task r.2 0 "loadLanguage:mdx" = Some 1
    ∧ promises s' !! 1 = Some (Fulfilled (VString "mdx"))
    ∧ ∃ (lp : pid) (v : value),
        (lp, loadLanguage 0 ["css"; "javascript"; "mdx"]) ∈ calls s'
        ∧ promises s' !! lp = Some (Fulfilled v).
Proof.
  split; [reflexivity|]. split; [reflexivity|].
  destruct (ensureLanguageIsLoaded_composite
              sampleHash sampleIsSpecialLang sampleBundledLanguages
              0 "mdx" init eq_refl eq_refl eq_refl eq_refl)
    as (p & imp & Hc & _ & Ht & _ & _ & Hrun).
  assert (Himp : imp = 0)
    by (vm_compute in Hc; injection Hc as Hc; by symmetry).
  assert (Hp : p = 1) by (vm_compute in Ht; injection Ht as Ht; by symmetry).
  subst imp p. cbv zeta.
  split; [exact Hc|]. split; [exact Ht|].
  set (evs := [Settle 0 (inl mdxModule); Resume 1;
               Settle 3 (inl VUndefined); Resume 1]).
  assert (Hv : promises (run sampleHash sampleIsSpecialLang
                           sampleBundledLanguages evs
                           (ensureLanguageIsLoaded sampleIsSpecialLang
                              sampleBundledLanguages 0 "mdx" init).2) !! 1
               = Some (Fulfilled (VString "mdx")))
    by (vm_compute; reflexivity).
  split; [exact Hv|].
  destruct (proj1 (Hrun evs) _ Hv) as (_ & bundledLang & Hi & Hload).
  assert (Hb : bundledLang
               = [ {| lang_name := "mdx"; scopeName := "source.mdx";
                      embeddedLangsLazy :=
                        Some ["css"; "javascript"; "css"] |} ])
    by (vm_compute in Hi; injection Hi as Hi; by symmetry).
  subst bundledLang. cbv zeta in Hload.
  destruct Hload as (_ & _ & [Hnil|Hload]).
  - vm_compute in Hnil. discriminate Hnil.
  - exact Hload.
Defined.

(** A configuration with one custom language. *)
Definition customConfig : Config :=
  {| langs := Some [[ {| lang_name := "mylang"; scopeName := "source.mylang";
                         embeddedLangsLazy := None |} ]] |}.

(** A theme load that failed, and a language load that failed. *)
Definition failedThemeLoad : State :=
  run sampleHash sampleIsSpecialLang sampleBundledLanguages
    [CallEnsureThemeIsLoaded 0 (darkTheme 1 "#000000");
     Settle 0 (inr "boom")] init.

Definition failedLanguageLoad : State :=
  run sampleHash sampleIsSpecialLang sampleBundledLanguages
    [CallEnsureLanguageIsLoaded 0 "css"; Settle 0 (inr "boom"); Resume 1] init.

Lemma getHighlighter_never_preloads_themes_witness :
  let s := run sampleHash sampleIsSpecialLang sampleBundledLanguages
             [CallGetCachedHighlighter customConfig] init in
  let ls := (CustomLang <$> default [] (langs customConfig))
            ++ (BundledLang <$> sampleBundledLanguages) in
  (0, getHighlighter [] ls) ∈ calls s
  ∧ ∃ config,
      highlighterPromiseByConfig s !! sampleHash (HashConfig config) = Some 0
      ∧ match langs config with
        | None | Some [] => ls = []
        | Some custom =>
            ls = (CustomLang <$> custom)
                 ++ (BundledLang <$> sampleBundledLanguages)
        end.
Proof.
  cbv zeta.
  assert (H : (0, getHighlighter []
                    ((CustomLang <$> default [] (langs customConfig))
                     ++ (BundledLang <$> sampleBundledLanguages)))
              ∈ calls (run sampleHash sampleIsSpecialLang
                         sampleBundledLanguages
                         [CallGetCachedHighlighter customConfig] init))
    by (apply (list_elem_of_lookup_2 _ 0); vm_compute; reflexivity).
  split; [exact H|].
  exact (proj2 (getHighlighter_never_preloads_themes
                  sampleHash sampleIsSpecialLang sampleBundledLanguages
                  _ _ _ _ H)).
Defined.

Lemma ensureThemeIsLoaded_failure_is_final_witness :
  let key := "dark-bg:#000000,fg:#ffffff" in
  let r := ensureThemeIsLoaded sampleHash 0 (darkTheme 1 "#000000")
             failedThemeLoad in
  themeCacheKeys failedThemeLoad !! 1 = Some key
  ∧ task failedThemeLoad 0 ("loadTheme:" +:+ key) = Some 0
  ∧ promises failedThemeLoad !! 0 = Some (Rejected "boom")
  ∧ calls r.2 = calls failedThemeLoad
  ∧ promises (exec sampleHash sampleIsSpecialLang sampleBundledLanguages
                (Resume r.1) r.2) !! r.1 = Some (Rejected "boom").
Proof.
  cbv zeta.
  assert (H1 : themeCacheKeys failedThemeLoad !! 1
               = Some "dark-bg:#000000,fg:#ffffff")
    by (vm_compute; reflexivity).
  assert (H2 : task failedThemeLoad 0
                 ("loadTheme:" +:+ "dark-bg:#000000,fg:#ffffff") = Some 0)
    by (vm_compute; reflexivity).
  assert (H3 : promises failedThemeLoad !! 0 = Some (Rejected "boom"))
    by (vm_compute; reflexivity).
  split_and!; [exact H1 | exact H2 | exact H3 | |].
  - exact (proj1 (ensureThemeIsLoaded_failure_is_final
                    sampleHash sampleIsSpecialLang sampleBundledLanguages
                    0 (darkTheme 1 "#000000") failedThemeLoad _ 0 "boom" []
                    H1 H2 H3)).
  - pose proof (proj2 (ensureThemeIsLoaded_failure_is_final
                    sampleHash sampleIsSpecialLang sampleBundledLanguages
                    0 (darkTheme 1 "#000000") failedThemeLoad _ 0 "boom" []
                    H1 H2 H3)) as H.
    exact (proj1 (proj2 H)).
Defined.

Lemma ensureThemeIsLoaded_remembers_first_key_witness :
  let r1 := ensureThemeIsLoaded sampleHash 0 (darkTheme 1 "#000000") init in
  let r2 := ensureThemeIsLoaded sampleHash 0 (darkTheme 1 "#111111") r1.2 in
  theme_id (darkTheme 1 "#111111") = theme_id (darkTheme 1 "#000000")
  ∧ themeCacheKeys init !! 1 = None
  ∧ answers r2.2 r2.1 "dark-bg:#000000,fg:#ffffff"
  ∧ themeCacheKeys r2.2 !! 1 = Some "dark-bg:#000000,fg:#ffffff"
  ∧ calls r2.2 = calls r1.2.
Proof.
  cbv zeta. split; [reflexivity|]. split; [reflexivity|].
  destruct (ensureThemeIsLoaded_remembers_first_key
              sampleHash sampleIsSpecialLang sampleBundledLanguages
              0 (darkTheme 1 "#000000") (darkTheme 1 "#111111") init []
              eq_refl eq_refl)
    as (_ & Ha & Hk & Hc & _).
  split; [exact Ha|]. split; [exact Hk | exact Hc].
Defined.

Lemma ensureLanguageIsLoaded_fallback_is_permanent_witness :
  let r1 := ensureLanguageIsLoaded sampleIsSpecialLang sampleBundledLanguages
              0 "klingon" init in
  let s2 := run sampleHash sampleIsSpecialLang sampleBundledLanguages
              [EngineLoaded 0 [] ["klingon"]] r1.2 in
  let r2 := ensureLanguageIsLoaded sampleIsSpecialLang sampleBundledLanguages
              0 "klingon" s2 in
  isAvailable sampleIsSpecialLang sampleBundledLanguages init 0 "klingon"
  = false
  ∧ task init 0 ("loadLanguage:" +:+ "klingon") = None
  ∧ isAvailable sampleIsSpecialLang sampleBundledLanguages s2 0 "klingon"
    = true
  ∧ calls r2.2 = calls s2
  ∧ promises (exec sampleHash sampleIsSpecialLang sampleBundledLanguages
                (Resume r2.1) r2.2) !! r2.1
    = Some (Fulfilled (VString "txt")).
Proof.
  cbv zeta. split; [reflexivity|]. split; [reflexivity|].
  split; [vm_compute; reflexivity|].
  destruct (ensureLanguageIsLoaded_fallback_is_permanent
              sampleHash sampleIsSpecialLang sampleBundledLanguages
              0 "klingon" init [EngineLoaded 0 [] ["klingon"]]
              eq_refl eq_refl)
    as (Hc & p & _ & _ & Hr & _).
  split; [exact Hc | exact Hr].
Defined.

Lemma ensureLanguageIsLoaded_failure_is_final_witness :
  let r := ensureLanguageIsLoaded sampleIsSpecialLang sampleBundledLanguages
             0 "css" failedLanguageLoad in
  task failedLanguageLoad 0 ("loadLanguage:" +:+ "css") = Some 1
  ∧ promises failedLanguageLoad !! 1 = Some (Rejected "boom")
  ∧ calls r.2 = calls failedLanguageLoad
  ∧ promises (exec sampleHash sampleIsSpecialLang sampleBundledLanguages
                (Resume r.1) r.2) !! r.1 = Some (Rejected "boom").
Proof.
  cbv zeta.
  assert (H1 : task failedLanguageLoad 0 ("loadLanguage:" +:+ "css") = Some 1)
    by (vm_compute; reflexivity).
  assert (H2 : promises failedLanguageLoad !! 1 = Some (Rejected "boom"))
    by (vm_compute; reflexivity).
  split; [exact H1|]. split; [exact H2|].
  destruct (ensureLanguageIsLoaded_failure_is_final
              sampleHash sampleIsSpecialLang sampleBundledLanguages
              0 "css" failedLanguageLoad 1 "boom" [] H1 H2)
    as (Hc & _ & Hr & _).
  split; [exact Hc | exact Hr].
Defined.

Lemma ensureLanguageIsLoaded_plain_witness :
  let r := ensureLanguageIsLoaded sampleIsSpecialLang sampleBundledLanguages
             0 "css" init in
  includes "css" ["md"; "markdown"; "mdx"] = false
  ∧ isAvailable sampleIsSpecialLang sampleBundledLanguages init 0 "css" = true
  ∧ task init 0 ("loadLanguage:" +:+ "css") = None
  ∧ ∃ p lp : pid,
      calls r.2 = [(lp, loadLanguage 0 ["css"])]
      ∧ promises (run sampleHash sampleIsSpecialLang sampleBundledLanguages
                    [Settle lp (inl VUndefined); Resume p; Resume r.1] r.2)
          !! r.1 = Some (Fulfilled (VString "css"))
      ∧ promises (run sampleHash sampleIsSpecialLang sampleBundledLanguages
                    [Settle lp (inr "boom"); Resume p; Resume r.1] r.2)
          !! r.1 = Some (Rejected "boom").
Proof.
  cbv zeta. split; [reflexivity|]. split; [reflexivity|].
  split; [reflexivity|].
  destruct (ensureLanguageIsLoaded_plain
              sampleHash sampleIsSpecialLang sampleBundledLanguages
              0 "css" init eq_refl eq_refl eq_refl)
    as (p & _ & _ & H).
  match type of H with
  | if ?b then _ else _ => change b with false in H
  end.
  destruct H as (lp & Hc & _ & _ & Hv & He).
  exists p, lp. split; [exact Hc|]. split; [apply Hv | apply He].
Defined.

Lemma language_calls_are_needed_witness :
  let s := run sampleHash sampleIsSpecialLang sampleBundledLanguages
             [CallEnsureLanguageIsLoaded 0 "mdx"; Settle 0 (inl mdxModule);
              Resume 1] init in
  (0, importBundled "mdx") ∈ calls s
  ∧ (3, loadLanguage 0 ["css"; "javascript"; "mdx"]) ∈ calls s
  ∧ includes "mdx" ["md"; "markdown"; "mdx"] = true
  ∧ includes "mdx" sampleBundledLanguages = true
  ∧ ["css"; "javascript"; "mdx"] ≠ [].
Proof.
  cbv zeta.
  set (s := run sampleHash sampleIsSpecialLang sampleBundledLanguages
              [CallEnsureLanguageIsLoaded 0 "mdx"; Settle 0 (inl mdxModule);
               Resume 1] init).
  assert (H1 : (0, importBundled "mdx") ∈ calls s)
    by (apply (list_elem_of_lookup_2 _ 0); vm_compute; reflexivity).
  assert (H2 : (3, loadLanguage 0 ["css"; "javascript"; "mdx"]) ∈ calls s)
    by (apply (list_elem_of_lookup_2 _ 1); vm_compute; reflexivity).
  split; [exact H1|]. split; [exact H2|].
  destruct (language_calls_are_needed
              sampleHash sampleIsSpecialLang sampleBundledLanguages
              _ _ _ H1) as [Ha Hb].
  split; [exact Ha|]. split; [exact Hb|].
  exact (language_calls_are_needed
           sampleHash sampleIsSpecialLang sampleBundledLanguages _ _ _ H2).
Defined.

Lemma ensureThemeIsLoaded_settles_with_the_load_witness :
  let key := "dark-bg:#000000,fg:#ffffff" in
  let r := ensureThemeIsLoaded sampleHash 0 (darkTheme 1 "#000000") init in
  ∃ p : pid,
    calls r.2
    = [(p, loadTheme 0 (themeUsingCacheKey (darkTheme 1 "#000000") key))]
    ∧ promises (run sampleHash sampleIsSpecialLang sampleBundledLanguages
                  [Settle p (inl VUndefined); Resume r.1] r.2) !! r.1
      = Some (Fulfilled (VString key))
    ∧ promises (run sampleHash sampleIsSpecialLang sampleBundledLanguages
                  [Settle p (inr "boom"); Resume r.1] r.2) !! r.1
      = Some (Rejected "boom").
Proof.
  cbv zeta.
  pose proof (ensureThemeIsLoaded_settles_with_the_load
                sampleHash sampleIsSpecialLang sampleBundledLanguages
                0 (darkTheme 1 "#000000") init) as H.
  cbv zeta in H.
  match type of H with
  | if ?b then _ else _ => change b with false in H
  end.
  destruct H as (p & _ & _ & H).
  destruct (H eq_refl) as (Hc & _ & Hv & He).
  exists p. split; [exact Hc|]. split; [apply Hv | apply He].
Defined.

Lemma ensureLanguageIsLoaded_composite_completes_witness :
  let r := ensureLanguageIsLoaded sampleIsSpecialLang sampleBundledLanguages
             0 "mdx" init in
  includes "mdx" ["md"; "markdown"; "mdx"] = true
  ∧ includes "mdx" sampleBundledLanguages = true
  ∧ sampleIsSpecialLang "mdx" = false
  ∧ task init 0 ("loadLanguage:" +:+ "mdx") = None
  ∧ ∃ p imp lp : pid,
      let s1 := run sampleHash sampleIsSpecialLang sampleBundledLanguages
                  [Settle imp (inl mdxModule); Resume p] r.2 in
      calls s1 = [(imp, importBundled "mdx");
                  (lp, loadLanguage 0 ["css"; "javascript"; "mdx"])]
      ∧ promises (run sampleHash sampleIsSpecialLang sampleBundledLanguages
                    [Settle lp (inl VUndefined); Resume p; Resume r.1] s1)
          !! r.1 = Some (Fulfilled (VString "mdx")).
Proof.
  cbv zeta. split; [reflexivity|]. split; [reflexivity|].
  split; [reflexivity|]. split; [reflexivity|].
  destruct (ensureLanguageIsLoaded_composite_completes
              sampleHash sampleIsSpecialLang sampleBundledLanguages
              0 "mdx" init
              [ {| lang_name := "mdx"; scopeName := "source.mdx";
                   embeddedLangsLazy := Some ["css"; "javascript"; "css"] |} ]
              eq_refl eq_refl eq_refl eq_refl)
    as (p & imp & Hc & _ & H).
  cbv zeta in H.
  match type of H with
  | if ?d then _ else _ =>
      destruct d as [Hn|_]; [vm_compute in Hn; discriminate Hn|]
  end.
  destruct H as (lp & Hc1 & Hv & _).
  exists p, imp, lp. split.
  - unfold mdxModule. rewrite Hc1, Hc. reflexivity.
  - apply Hv.
Defined.

End Highlighter.

Module Remark.

(** ** Data *)

Definition error := string.

(** hast: the markup produced for a group of code blocks. *)
#[warnings="-register-all"]
Inductive Element :=
| Text (value : string)
| Elem (tagName : string) (properties : list (string * string))
    (children : list Element).

(** A hast parent, such as [renderedGroupAst]. *)
Record Parents := {
  tagName : string;
  properties : list (string * string);
  children : list Element;
}.

(** mdast: the document.  Objects whose identity the transform relies on (the
    collected [code] nodes and their parents) are numbered.  A [code] node
    is a literal, without children; [literal] stands for the leaves of the
    other types. *)
#[warnings="-register-all"]
Inductive Node :=
| code (id : nat) (lang meta : option string) (value : string)
| html (value : string)
| literal (type : string) (value : string)
| parent (id : nat) (type : string) (children : list Node).

Record VFile := { path : option string }.

(** [ExpressiveCodeBlockOptions] as built at lines 242-254, with [locale]
    (line 258). *)
Record ExpressiveCodeBlockOptions := {
  input_code : string;
  input_language : string;
  input_meta : string;
  input_locale : option string;
  sourceFilePath : option string;
  documentRoot : Node;
  groupIndex : nat;
  totalGroups : nat;
}.

(** A block is what its options make it. *)
Definition ExpressiveCodeBlock := ExpressiveCodeBlockOptions.

(** [RemarkExpressiveCodeRenderer]; of [ec] only [render] is used. *)
Record RemarkExpressiveCodeRenderer := {
  ec_render : ExpressiveCodeBlock → error + (Parents * list string);
  baseStyles : string;
  themeStyles : string;
  jsModules : list string;
}.

(** The sets [addedStyles] and [addedJsModules] of one document. *)
Record Added := {
  addedStyles : gset string;
  addedJsModules : gset string;
}.

Definition noneAdded : Added := {| addedStyles := ∅; addedJsModules := ∅ |}.

(** ** Assets of one block (lines 159-200) *)

(** The loop shape of lines 175-179 and 191-200: every item not yet in the
    set is added to it and pushed. *)
Fixpoint pushNew (items : list string) (added : gset string)
    : list string * gset string :=
  match items with
  | [] => ([], added)
  | x :: rest =>
      if decide (x ∈ added) then pushNew rest added
      else
        let (out, added') := pushNew rest ({[x]} ∪ added) in
        (x :: out, added')
  end.

(** Lines 165-168 and 170-173: [if (x && !added.has(x))]. *)
Definition pushStyle (x : string) (added : gset string)
    : list string * gset string :=
  if negb (bool_decide (x = "")) && negb (bool_decide (x ∈ added))
  then ([x], {[x]} ∪ added)
  else ([], added).

(** What one block emits: the styles joined into its style element and the
    modules it gets script elements for. *)
Record Emission := {
  stylesToPrepend : list string;
  scriptModules : list string;
}.

Definition emit (renderer : RemarkExpressiveCodeRenderer)
    (styles : list string) (added : Added) : Emission * Added :=
  let (base, a1) := pushStyle (baseStyles renderer) (addedStyles added) in
  let (theme, a2) := pushStyle (themeStyles renderer) a1 in
  let (group, a3) := pushNew styles a2 in
  let (modules, j) := pushNew (jsModules renderer) (addedJsModules added) in
  ({| stylesToPrepend := base ++ theme ++ group; scriptModules := modules |},
   {| addedStyles := a3; addedJsModules := j |}).

(** Lines 181-188. *)
Definition styleElements (stylesToPrepend : list string) : list Element :=
  match stylesToPrepend with
  | [] => []
  | _ => [Elem "style" [] [Text (String.concat "" stylesToPrepend)]]
  end.

(** Lines 194-199. *)
Definition scriptElement (moduleCode : string) : Element :=
  Elem "script" [("type", "module")] [Text moduleCode].

Definition extraElements (e : Emission) : list Element :=
  styleElements (stylesToPrepend e) ++ (scriptElement <$> scriptModules e).

(** Line 205: [renderedGroupAst.children.unshift(...extraElements)]. *)
Definition unshift (extra : list Element) (ast : Parents) : Parents :=
  {| tagName := tagName ast;
     properties := properties ast;
     children := extra ++ children ast |}.

(** Lines 159-205, on the result of [ec.render]. *)
Definition assembleGroup (renderer : RemarkExpressiveCodeRenderer)
    (rendered : Parents * list string) (added : Added) : Parents * Added :=
  let (e, added') := emit renderer rendered.2 added in
  (unshift (extraElements e) rendered.1, added').

(** ** The document tree *)

Record Code := {
  code_id : nat;
  code_lang : option string;
  code_meta : option string;
  code_value : string;
}.

(** [visit(tree, 'code', ...)] with the visitor of lines 216-219: the code
    nodes that have a parent, each with its parent, in document order. *)
Fixpoint visit (parentId : option nat) (n : Node) : list (nat * Code) :=
  match n with
  | code id l m v =>
      match parentId with
      | Some p =>
          [(p, {| code_id := id; code_lang := l; code_meta := m;
                  code_value := v |})]
      | None => []
      end
  | parent id _ cs => flat_map (visit (Some id)) cs
  | _ => []
  end.

(** [children.indexOf(code)]: the first child that is the object [c], or -1. *)
Fixpoint indexOf_from (i : Z) (c : nat) (cs : list Node) : Z :=
  match cs with
  | [] => (-1)%Z
  | code id _ _ _ :: rest =>
      if decide (id = c) then i else indexOf_from (i + 1) c rest
  | _ :: rest => indexOf_from (i + 1) c rest
  end.

Definition indexOf (c : nat) (cs : list Node) : Z := indexOf_from 0 c cs.

(** [cs.splice(start, 1, item)]: a negative [start] counts from the end, and
    the start is clamped to the array. *)
Definition splice1 (start : Z) (item : Node) (cs : list Node) : list Node :=
  let len := Z.of_nat (length cs) in
  let relativeStart :=
    if (start <? 0)%Z then Z.max (len + start) 0 else Z.min start len in
  let k := Z.to_nat relativeStart in
  take k cs ++ [item] ++ drop (S k) cs.

(** The object [parentId] gets new children; a node that is no longer in the
    tree is changed out of sight. *)
Fixpoint updateChildren (parentId : nat) (f : list Node → list Node)
    (n : Node) : Node :=
  match n with
  | parent id t cs =>
      if decide (id = parentId) then parent id t (f cs)
      else parent id t (updateChildren parentId f <$> cs)
  | _ => n
  end.

(** Line 272. *)
Definition replaceCode (parentId : nat) (c : nat) (blockHtml : string)
    (tree : Node) : Node :=
  updateChildren parentId
    (λ cs, splice1 (indexOf c cs) (html blockHtml) cs) tree.

(** A JavaScript number as line 238 reads it.  Every finite double is a
    rational number, and the two zeros compare and truncate alike. *)
Inductive JsNumber :=
| Finite (q : QArith_base.Q)
| PlusInfinity
| MinusInfinity
| NotANumber.

(** [x > 0]. *)
Definition isPositive (x : JsNumber) : bool :=
  match x with
  | Finite q => (0 <? QArith_base.Qnum q)%Z
  | PlusInfinity => true
  | MinusInfinity | NotANumber => false
  end.

(** [ToIntegerOrInfinity] of a finite number: the fraction is dropped. *)
Definition truncate (q : QArith_base.Q) : Z :=
  Z.quot (QArith_base.Qnum q) (Z.pos (QArith_base.Qden q)).

(** The number of tab characters of a string. *)
Fixpoint countTabs (s : string) : nat :=
  match s with
  | EmptyString => 0
  | String c rest =>
      (if Ascii.eqb c "009"%char then 1 else 0) + countTabs rest
  end.

(** Line 238: every tab becomes the string [spaces]. *)
Fixpoint replaceTabs (spaces : string) (s : string) : string :=
  match s with
  | EmptyString => EmptyString
  | String c rest =>
      if Ascii.eqb c "009"%char then spaces +:+ replaceTabs spaces rest
      else String c (replaceTabs spaces rest)
  end.

Fixpoint repeatSpace (n : nat) : string :=
  match n with
  | O => EmptyString
  | S n' => String " "%char (repeatSpace n')
  end.

(** ** Notions the statements use *)

(** The identities that occur in a tree, in document order. *)
Fixpoint ids (n : Node) : list nat :=
  match n with
  | code id _ _ _ => [id]
  | parent id _ cs => id :: flat_map ids cs
  | _ => []
  end.

(** Every code node whose identity [σ] maps to a string becomes an html
    node with that string; everything else stays where and what it is. *)
Fixpoint substCodes (σ : gmap nat string) (n : Node) : Node :=
  match n with
  | code id l m v =>
      match σ !! id with
      | Some blockHtml => html blockHtml
      | None => n
      end
  | parent id t cs => parent id t (substCodes σ <$> cs)
  | _ => n
  end.

Definition isCodeOf (c : nat) (n : Node) : Prop :=
  match n with
  | code id _ _ _ => id = c
  | _ => False
  end.

(** The blocks of a document, assembled one after the other from what
    [ec.render] returned for each, with the document's sets threaded
    through. *)
Fixpoint assembleAll (renderer : RemarkExpressiveCodeRenderer)
    (rendered : list (Parents * list string)) (added : Added)
    : list Parents :=
  match rendered with
  | [] => []
  | r :: rest =>
      let (ast, added') := assembleGroup renderer r added in
      ast :: assembleAll renderer rest added'
  end.


(** The map from each collected code node to the markup of its block. *)
Definition blockHtmlOf (nodes : list (nat * Code)) (htmls : list string)
    : gmap nat string :=
  list_to_map (zip ((λ x, code_id x.2) <$> nodes) htmls).

(** The document has emitted the renderer's base styles, theme styles and
    modules. *)
Definition saturated (renderer : RemarkExpressiveCodeRenderer)
    (added : Added) : Prop :=
  (baseStyles renderer ≠ "" → baseStyles renderer ∈ addedStyles added)
  ∧ (themeStyles renderer ≠ "" → themeStyles renderer ∈ addedStyles added)
  ∧ ∀ m, m ∈ jsModules renderer → m ∈ addedJsModules added.

(** The replacements of line 272 for the first collected nodes, in turn,
    each with the markup of its block. *)
Definition replaceAll (tree : Node) (nodes : list (nat * Code))
    (htmls : list string) : Node :=
  foldl (λ t x, replaceCode x.1.1 (code_id x.1.2) x.2 t) tree
    (zip nodes htmls).

(** What the variable [asyncRenderer] can hold:
    [Promise<RemarkExpressiveCodeRenderer> | RemarkExpressiveCodeRenderer]. *)
Inductive AsyncRenderer :=
| RendererPromise (p : nat)
| RendererValue (r : RemarkExpressiveCodeRenderer).

(** Which function line 226 called. *)
Inductive Constructor := ViaCustomCreateRenderer | ViaCreateRenderer.

(** The state of one plugin instance (the closure of lines 137-141), and
    the log of renderer constructions. *)
Record Plugin := {
  asyncRenderer : option AsyncRenderer;
  constructions : list Constructor;
}.

Definition newPlugin : Plugin :=
  {| asyncRenderer := None; constructions := [] |}.

(** ** [createRenderer] (lines 99-131) *)

Section CreateRenderer.

(** The values [createRenderer] only passes on: a theme object compatible
    with VS Code or Shiki, an [ExpressiveCodeTheme] instance, the options
    other than [theme] and [themes], and an [ExpressiveCode] instance. *)
Variable ThemeObject : Type.
Variable ExpressiveCodeTheme : Type.
Variable OtherOptions : Type.
Variable ExpressiveCode : Type.

(** [ThemeObjectOrShikiThemeName]. *)
Inductive ThemeInput :=
| ShikiThemeName (name : string)
| ThemeObjectInput (theme : ThemeObject)
| ThemeInstance (theme : ExpressiveCodeTheme).

(** [options]: the deprecated [theme] (one theme or an array), [themes] (an
    array, as its type says), and the rest.  An array entry can be
    undefined (line 112 checks for it). *)
Record RendererOptions := {
  opt_theme : option (ThemeInput + list (option ThemeInput));
  opt_themes : option (list (option ThemeInput));
  opt_other : OtherOptions;
}.

(** The argument of [new ExpressiveCode] (lines 117-120): the loaded
    themes and [ecOptions], which is [options] without [themes]. *)
Record ExpressiveCodeConfig := {
  cfg_themes : option (list (option ExpressiveCodeTheme));
  cfg_theme : option (ThemeInput + list (option ThemeInput));
  cfg_other : OtherOptions;
}.

(** [loadShikiTheme] is async: it resolves or rejects.  The constructors
    return or throw.  The three getters are awaited. *)
Variable loadShikiTheme : string → error + ThemeObject.
Variable newExpressiveCodeTheme : ThemeObject → error + ExpressiveCodeTheme.
Variable newExpressiveCode : ExpressiveCodeConfig → error + ExpressiveCode.
Variable getBaseStyles : ExpressiveCode → error + string.
Variable getThemeStyles : ExpressiveCode → error + string.
Variable getJsModules : ExpressiveCode → error + list string.
Variable render :
  ExpressiveCode → ExpressiveCodeBlock → error + (Parents * list string).
(** [{}], the default of the [options] parameter. *)
Variable noOtherOptions : OtherOptions.

(** JavaScript's truthiness of [deprecatedOptions.theme]: undefined and the
    empty string are falsy, objects and arrays are truthy. *)
Definition truthyTheme (theme : option (ThemeInput + list (option ThemeInput)))
    : bool :=
  match theme with
  | None => false
  | Some (inl (ShikiThemeName name)) => negb (bool_decide (name = ""))
  | Some _ => true
  end.

(** Lines 101-105, on the options object itself. *)
Definition transferDeprecatedTheme (options : RendererOptions)
    : RendererOptions :=
  match opt_theme options, opt_themes options with
  | Some theme, None =>
      if truthyTheme (Some theme) then
        {| opt_theme := None;
           opt_themes := Some match theme with
                              | inl t => [Some t]
                              | inr ts => ts
                              end;
           opt_other := opt_other options |}
      else options
  | _, _ => options
  end.

(** The callback of lines 111-115 on one entry, to its end. *)
Definition loadOneTheme (theme : option ThemeInput)
    : error + option ExpressiveCodeTheme :=
  match theme with
  | None => inr None
  | Some (ThemeInstance t) => inr (Some t)
  | Some (ThemeObjectInput object) =>
      match newExpressiveCodeTheme object with
      | inl e => inl e
      | inr t => inr (Some t)
      end
  | Some (ShikiThemeName name) =>
      match loadShikiTheme name with
      | inl e => inl e
      | inr object =>
          match newExpressiveCodeTheme object with
          | inl e => inl e
          | inr t => inr (Some t)
          end
      end
  end.

(** The callback of an entry that is not a name has no [await]: it ends,
    and its promise is settled, inside [map].  The callback of a name is
    suspended on [loadShikiTheme]. *)
Definition settlesInMap (theme : option ThemeInput) : bool :=
  match theme with
  | Some (ShikiThemeName _) => false
  | _ => true
  end.

Definition failureOf (theme : option ThemeInput) : option error :=
  match loadOneTheme theme with
  | inl e => Some e
  | inr _ => None
  end.

Definition loadedOf (theme : option ThemeInput)
    : option (option ExpressiveCodeTheme) :=
  match loadOneTheme theme with
  | inl _ => None
  | inr t => Some t
  end.

(** [Promise.all] over the callbacks' promises (line 110).  It resolves
    with the results in the order of the entries, or rejects with the first
    rejection it sees: that of the first promise already rejected when
    [Promise.all] is called, if there is one; otherwise that of the name
    whose load fails first, which depends on the order the loads settle in.
    A rejection is given as the list of the errors it can be. *)
Definition promiseAll (themes : list (option ThemeInput))
    : list error + list (option ExpressiveCodeTheme) :=
  match omap failureOf (filter (λ t, settlesInMap t) themes),
        omap failureOf themes with
  | e :: _, _ => inl [e]
  | [], [] => inr (omap loadedOf themes)
  | [], es => inl es
  end.

Definition createRenderer (options : option RendererOptions)
    : (list error + RemarkExpressiveCodeRenderer) * RendererOptions :=
  let options :=
    default {| opt_theme := None; opt_themes := None;
               opt_other := noOtherOptions |} options in
  let options := transferDeprecatedTheme options in
  let loadedThemes :=
    match opt_themes options with
    | None => inr None
    | Some themes =>
        match promiseAll themes with
        | inl es => inl es
        | inr loaded => inr (Some loaded)
        end
    end in
  (match loadedThemes with
   | inl es => inl es
   | inr loadedThemes =>
       match newExpressiveCode
               {| cfg_themes := loadedThemes;
                  cfg_theme := opt_theme options;
                  cfg_other := opt_other options |} with
       | inl e => inl [e]
       | inr ec =>
           match getBaseStyles ec with
           | inl e => inl [e]
           | inr baseStyles =>
               match getThemeStyles ec with
               | inl e => inl [e]
               | inr themeStyles =>
                   match getJsModules ec with
                   | inl e => inl [e]
                   | inr jsModules =>
                       inr {| ec_render := render ec;
                              baseStyles := baseStyles;
                              themeStyles := themeStyles;
                              jsModules := jsModules |}
                   end
               end
           end
       end
   end,
   options).

Lemma promiseAll_resolves themes loaded :
  promiseAll themes = inr loaded →
  Forall2 (λ theme l, loadOneTheme theme = inr l) themes loaded.
Proof.
  unfold promiseAll.
  destruct (omap failureOf (filter _ themes)); [|done].
  destruct (omap failureOf themes) eqn:Hf; [|done].
  intros [= <-]. induction themes as [|t themes IH]; simpl in *; [done|].
  unfold failureOf, loadedOf in *.
  destruct (loadOneTheme t) as [e|l] eqn:Ht; [done|].
  apply Forall2_cons. split; [done|]. by apply IH.
Qed.

Lemma promiseAll_rejects themes es :
  promiseAll themes = inl es →
  es ≠ []
  ∧ (∀ e, e ∈ es → ∃ theme, theme ∈ themes ∧ loadOneTheme theme = inl e)
  ∧ ∀ pre theme post e,
      themes = pre ++ theme :: post →
      settlesInMap theme = true → loadOneTheme theme = inl e →
      Forall (λ t, settlesInMap t = true → failureOf t = None) pre →
      es = [e].
Proof.
  assert (Hin : ∀ (l : list (option ThemeInput)) e,
            e ∈ omap failureOf l → ∃ theme, theme ∈ l
                                            ∧ loadOneTheme theme = inl e).
  { intros l e (theme & Hin & Hf)%list_elem_of_omap. exists theme.
    split; [done|]. unfold failureOf in Hf.
    destruct (loadOneTheme theme); by simplify_eq. }
  unfold promiseAll.
  destruct (omap failureOf (filter _ themes)) as [|e0 rest] eqn:Hs.
  - destruct (omap failureOf themes) as [|e1 es'] eqn:Hf; [done|].
    intros [= <-]. split_and!; [done| |].
    + intros e He. apply Hin. by rewrite Hf.
    + intros pre theme post e -> Hsync Hfail _. exfalso.
      assert (He : e ∈ omap failureOf
                     (filter (λ t, settlesInMap t) (pre ++ theme :: post))).
      { apply list_elem_of_omap. exists theme. split.
        - apply list_elem_of_filter. split; [by rewrite Hsync|].
          apply elem_of_app. right. left.
        - unfold failureOf. by rewrite Hfail. }
      rewrite Hs in He. by apply elem_of_nil in He.
  - intros [= <-]. split_and!; [done| |].
    + intros e ->%list_elem_of_singleton.
      destruct (Hin (filter (λ t, settlesInMap t) themes) e0)
        as (theme & [_ Ht]%list_elem_of_filter & He);
        [rewrite Hs; left | eauto].
    + intros pre theme post e -> Hsync Hfail Hpre. f_equal.
      rewrite filter_app, omap_app, filter_cons in Hs.
      rewrite decide_True in Hs by by rewrite Hsync.
      assert (Hnil : omap failureOf (filter (λ t, settlesInMap t) pre) = []).
      { clear Hs. induction Hpre as [|t pre Ht _ IH]; [done|].
        rewrite filter_cons. destruct (decide _) as [Hd|]; [|done].
        simpl. rewrite Ht by by apply Is_true_true. done. }
      rewrite Hnil in Hs. simpl in Hs. unfold failureOf at 1 in Hs.
      rewrite Hfail in Hs. by injection Hs as <- _.
Qed.

(** X13.  [createRenderer] can be called again with the options object it was
    given: the first call transfers a deprecated [theme] into [themes]
    (when [themes] is not set) and removes it, a second call finds nothing
    to transfer and has the same outcome.  With [themes] set the options
    are left as they are. *)
Theorem createRenderer_is_repeatable (options : RendererOptions) :
  let r := createRenderer (Some options) in
  createRenderer (Some r.2) = r
  ∧ (∀ themes, opt_themes options = Some themes → r.2 = options)
  ∧ (∀ theme, opt_themes options = None → opt_theme options = Some theme →
       truthyTheme (Some theme) = true →
       opt_theme r.2 = None
       ∧ opt_themes r.2 = Some match theme with
                               | inl t => [Some t]
                               | inr ts => ts
                               end).
Proof.
  assert (Hidem : transferDeprecatedTheme (transferDeprecatedTheme options)
                  = transferDeprecatedTheme options).
  { unfold transferDeprecatedTheme.
    destruct (opt_theme options) as [theme|] eqn:Ht,
             (opt_themes options) as [themes|] eqn:Hts;
      rewrite ?Ht, ?Hts; try done.
    destruct (truthyTheme (Some theme)) eqn:Htruthy;
      [done | by rewrite Ht, Hts, Htruthy]. }
  split_and!.
  - unfold createRenderer. simpl. by rewrite Hidem.
  - intros themes Hts. simpl. unfold transferDeprecatedTheme.
    rewrite Hts. by destruct (opt_theme options).
  - intros theme Hts Ht Htruthy. simpl. unfold transferDeprecatedTheme.
    by rewrite Ht, Hts, Htruthy.
Qed.

(** X14.  A renderer that [createRenderer] returns was built from the themes in
    the order they were given: [new ExpressiveCode] got one loaded theme
    per entry of [themes], at the entry's position, an [ExpressiveCodeTheme]
    instance being passed as it is, besides the other options unchanged;
    and the renderer carries that instance together with its base styles,
    theme styles and modules. *)
Theorem createRenderer_passes_themes_in_order
    (options : option RendererOptions)
    (renderer : RemarkExpressiveCodeRenderer) (options' : RendererOptions) :
  createRenderer options = (inr renderer, options') →
  ∃ cfg ec,
    newExpressiveCode cfg = inr ec
    ∧ ec_render renderer = render ec
    ∧ getBaseStyles ec = inr (baseStyles renderer)
    ∧ getThemeStyles ec = inr (themeStyles renderer)
    ∧ getJsModules ec = inr (jsModules renderer)
    ∧ cfg_other cfg = opt_other options'
    ∧ cfg_theme cfg = opt_theme options'
    ∧ match opt_themes options' with
      | None => cfg_themes cfg = None
      | Some themes =>
          ∃ loaded,
            cfg_themes cfg = Some loaded
            ∧ Forall2 (λ theme l, loadOneTheme theme = inr l) themes loaded
            ∧ ∀ i t, themes !! i = Some (Some (ThemeInstance t)) →
                     loaded !! i = Some (Some t)
      end.
Proof.
  unfold createRenderer. intros [= H <-].
  set (o := transferDeprecatedTheme _) in *.
  destruct (opt_themes o) as [themes|] eqn:Hts.
  - destruct (promiseAll themes) as [es|loaded] eqn:Hall; [done|].
    destruct (newExpressiveCode _) as [e|ec] eqn:Hec; [done|].
    destruct (getBaseStyles ec) as [e|b] eqn:Hb; [done|].
    destruct (getThemeStyles ec) as [e|t] eqn:Ht; [done|].
    destruct (getJsModules ec) as [e|j] eqn:Hj; [done|].
    injection H as <-. eexists _, ec. split; [exact Hec|].
    simpl. split_and!; try done.
    exists loaded. split; [done|].
    pose proof (promiseAll_resolves _ _ Hall) as Hf. split; [done|].
    intros i t' Hi.
    destruct (Forall2_lookup_l _ _ _ _ _ Hf Hi) as (l & Hl & Hload).
    simpl in Hload. by injection Hload as <-.
  - destruct (newExpressiveCode _) as [e|ec] eqn:Hec; [done|].
    destruct (getBaseStyles ec) as [e|b] eqn:Hb; [done|].
    destruct (getThemeStyles ec) as [e|t] eqn:Ht; [done|].
    destruct (getJsModules ec) as [e|j] eqn:Hj; [done|].
    injection H as <-. eexists _, ec. split; [exact Hec|].
    simpl. split_and!; done.
Qed.

(** X15.  A theme that cannot be loaded fails the renderer.  If some entry of
    the themes in force fails (its name cannot be loaded, or the theme
    object is refused), [createRenderer] is rejected, with the error of one
    of the failing entries; if an entry that is not a name fails, the error
    is that of the first such entry. *)
Theorem createRenderer_rejects_when_a_theme_fails
    (options : RendererOptions) (themes : list (option ThemeInput))
    (theme : option ThemeInput) (e : error) :
  opt_themes (transferDeprecatedTheme options) = Some themes →
  theme ∈ themes →
  loadOneTheme theme = inl e →
  ∃ es,
    (createRenderer (Some options)).1 = inl es
    ∧ es ≠ []
    ∧ (∀ e', e' ∈ es →
         ∃ theme', theme' ∈ themes ∧ loadOneTheme theme' = inl e')
    ∧ ∀ pre object post e0,
        themes = pre ++ Some (ThemeObjectInput object) :: post →
        newExpressiveCodeTheme object = inl e0 →
        Forall (λ t, ∀ object', t = Some (ThemeObjectInput object') →
                     ∃ t', newExpressiveCodeTheme object' = inr t') pre →
        es = [e0].
Proof.
  intros Hts Hin Hfail. unfold createRenderer. simpl. rewrite Hts.
  destruct (promiseAll themes) as [es|loaded] eqn:Hall.
  - destruct (promiseAll_rejects _ _ Hall) as (Hne & Hes & Hfirst).
    exists es. split_and!; [done..|].
    intros pre object post e0 -> He0 Hpre.
    apply (Hfirst pre (Some (ThemeObjectInput object)) post e0);
      [done | done | by simpl; rewrite He0 |].
    eapply Forall_impl; [exact Hpre|]. intros t Ht Hsync.
    unfold failureOf.
    destruct t as [[name|object'|t']|]; simpl in *; try done.
    by destruct (Ht object' eq_refl) as [t' ->].
  - exfalso. pose proof (promiseAll_resolves _ _ Hall) as Hf.
    apply list_elem_of_lookup_1 in Hin as [i Hi].
    destruct (Forall2_lookup_l _ _ _ _ _ Hf Hi) as (l & _ & Hl).
    simpl in Hl. congruence.
Qed.

End CreateRenderer.

Arguments ShikiThemeName {_ _} _.
Arguments ThemeObjectInput {_ _} _.
Arguments ThemeInstance {_ _} _.
Arguments opt_theme {_ _ _} _.
Arguments opt_themes {_ _ _} _.
Arguments opt_other {_ _ _} _.
Arguments cfg_themes {_ _ _} _.
Arguments cfg_theme {_ _ _} _.
Arguments cfg_other {_ _ _} _.

Section Options.

(** The plugin's options and the functions it calls.  The hooks and the
    renderer answer from their arguments: they may read the document they
    are handed, they do not change it. *)
Variable toHtml : Parents → string.
Variable tabWidth : JsNumber.
(** The longest string the engine builds (2^29 - 24 characters in V8);
    building a longer one throws a [RangeError]. *)
Variable maxStringLength : Z.
Variable getBlockLocale :
  option (ExpressiveCodeBlockOptions → VFile → error + option string).
Variable customCreateBlock :
  option (ExpressiveCodeBlockOptions → VFile → error + ExpressiveCodeBlock).
(** The hook's answer on its [n]-th call, when the option is given: what it
    returns, or the error it throws. *)
Variable customCreateRenderer : option (nat → error + AsyncRenderer).
(** How the renderer promise [p] settles. *)
Variable settles : nat → error + RemarkExpressiveCodeRenderer.

(** ** [renderBlockToHtml] (lines 143-211) *)

Definition renderBlockToHtml (codeBlock : ExpressiveCodeBlock)
    (renderer : RemarkExpressiveCodeRenderer) (added : Added)
    : error + (string * Added) :=
  match ec_render renderer codeBlock with
  | inl e => inl e
  | inr rendered =>
      let (ast, added') := assembleGroup renderer rendered added in
      inr (toHtml ast, added')
  end.

(** ** [transformer] (lines 213-274) *)

(** [' '.repeat(count)]: the count is truncated to an integer, [NaN]
    counting as 0; a negative or infinite count, and a count beyond the
    longest string, throw a [RangeError]. *)
Definition repeatSpaces (count : JsNumber) : error + string :=
  match count with
  | Finite q =>
      let n := truncate q in
      if (n <? 0)%Z || (maxStringLength <? n)%Z then inl "RangeError"
      else inr (repeatSpace (Z.to_nat n))
  | NotANumber => inr EmptyString
  | PlusInfinity | MinusInfinity => inl "RangeError"
  end.

(** [value.replace(/\t/g, spaces)]: without a tab the result is the string
    itself; otherwise a new string is built, which throws a [RangeError]
    when it would be longer than the longest string. *)
Definition replaceEveryTab (spaces value : string) : error + string :=
  if (countTabs value =? 0)%nat then inr value
  else
    let replaced := replaceTabs spaces value in
    if (maxStringLength <? Z.of_nat (String.length replaced))%Z
    then inl "RangeError"
    else inr replaced.

(** Lines 237-238.  The argument [' '.repeat(tabWidth)] is evaluated, and
    may throw, whether or not the code has a tab. *)
Definition normalizeCode (value : string) : error + string :=
  if isPositive tabWidth
  then
    match repeatSpaces tabWidth with
    | inl e => inl e
    | inr spaces => replaceEveryTab spaces value
    end
  else inr value.

(** Lines 236-262: the block of one collected node. *)
Definition createBlock (tree : Node) (file : VFile) (c : Code)
    (index total : nat) : error + ExpressiveCodeBlock :=
  match normalizeCode (code_value c) with
  | inl e => inl e
  | inr normalizedCode =>
      let input locale :=
        {| input_code := normalizedCode;
           input_language := default "" (code_lang c);
           input_meta := default "" (code_meta c);
           input_locale := locale;
           sourceFilePath := path file;
           documentRoot := tree;
           groupIndex := index;
           totalGroups := total |} in
      let locale :=
        match getBlockLocale with
        | Some hook => hook (input None) file
        | None => inr None
        end in
      match locale with
      | inl e => inl e
      | inr locale =>
          match customCreateBlock with
          | Some hook => hook (input locale) file
          | None => inr (input locale)
          end
      end
  end.

(** The loop of lines 233-273 from [groupIndex] on.  The result is the tree
    as it stands when the loop ends, and the error that ended it, if any. *)
Fixpoint processNodes (renderer : RemarkExpressiveCodeRenderer) (file : VFile)
    (nodes : list (nat * Code)) (index total : nat)
    (tree : Node) (added : Added) : Node * option error :=
  match nodes with
  | [] => (tree, None)
  | (parentId, c) :: rest =>
      match createBlock tree file c index total with
      | inl e => (tree, Some e)
      | inr codeBlock =>
          match renderBlockToHtml codeBlock renderer added with
          | inl e => (tree, Some e)
          | inr (blockHtml, added') =>
              processNodes renderer file rest (S index) total
                (replaceCode parentId (code_id c) blockHtml tree) added'
          end
      end
  end.

(** Line 226: [asyncRenderer = (customCreateRenderer ?? createRenderer)
    (options)].  A hook that throws leaves [asyncRenderer] undefined. *)
Definition constructRenderer (st : Plugin)
    : (error + AsyncRenderer) * Plugin :=
  let n := length (constructions st) in
  match customCreateRenderer with
  | Some hook =>
      let log := constructions st ++ [ViaCustomCreateRenderer] in
      match hook n with
      | inl e =>
          (inl e, {| asyncRenderer := asyncRenderer st; constructions := log |})
      | inr a =>
          (inr a, {| asyncRenderer := Some a; constructions := log |})
      end
  | None =>
      (* [createRenderer] is async: it answers with a promise of its own *)
      (inr (RendererPromise n),
       {| asyncRenderer := Some (RendererPromise n);
          constructions := constructions st ++ [ViaCreateRenderer] |})
  end.

(** [await asyncRenderer] (line 228). *)
Definition awaitRenderer (a : AsyncRenderer)
    : error + RemarkExpressiveCodeRenderer :=
  match a with
  | RendererValue r => inr r
  | RendererPromise p => settles p
  end.

(** Where [transformer] stands after its synchronous start (lines
    214-227). *)
Inductive Started :=
| Finished
| Threw (e : error)
| AwaitingRenderer (nodesToProcess : list (nat * Code)) (a : AsyncRenderer).

Definition transformer_start (tree : Node) (st : Plugin) : Started * Plugin :=
  let nodesToProcess := visit None tree in
  match nodesToProcess with
  | [] => (Finished, st)
  | _ :: _ =>
      match asyncRenderer st with
      | Some a => (AwaitingRenderer nodesToProcess a, st)
      | None =>
          match constructRenderer st with
          | (inl e, st') => (Threw e, st')
          | (inr a, st') => (AwaitingRenderer nodesToProcess a, st')
          end
      end
  end.

(** Lines 228-273, once the renderer is there. *)
Definition transformer_resume (tree : Node) (file : VFile)
    (nodesToProcess : list (nat * Code)) (a : AsyncRenderer)
    : Node * option error :=
  match awaitRenderer a with
  | inl e => (tree, Some e)
  | inr renderer =>
      processNodes renderer file nodesToProcess 0 (length nodesToProcess)
        tree noneAdded
  end.

(** The whole transform of one document: the tree as it ends up, and the
    error the transform was rejected with, if any. *)
Definition transformer (tree : Node) (file : VFile) (st : Plugin)
    : (Node * option error) * Plugin :=
  match transformer_start tree st with
  | (Finished, st') => ((tree, None), st')
  | (Threw e, st') => ((tree, Some e), st')
  | (AwaitingRenderer nodesToProcess a, st') =>
      (transformer_resume tree file nodesToProcess a, st')
  end.

(** All the documents one plugin instance transforms, in turn. *)
Definition transformAll (docs : list (Node * VFile)) (st : Plugin) : Plugin :=
  foldl (λ st d, (transformer d.1 d.2 st).2) st docs.

Definition hasCode (tree : Node) : bool :=
  match visit None tree with
  | [] => false
  | _ :: _ => true
  end.


(** The outcome of each document one plugin instance transforms, in
    turn. *)
Fixpoint transformEach (docs : list (Node * VFile)) (st : Plugin)
    : list (Node * option error) :=
  match docs with
  | [] => []
  | d :: rest =>
      let r := transformer d.1 d.2 st in
      r.1 :: transformEach rest r.2
  end.

(** ** Trees with distinct objects *)

(** Induction on trees, with the hypothesis for every child. *)
Lemma Node_tree_ind (P : Node → Prop) :
  (∀ id l m v, P (code id l m v)) →
  (∀ v, P (html v)) →
  (∀ t v, P (literal t v)) →
  (∀ id t cs, Forall P cs → P (parent id t cs)) →
  ∀ n, P n.
Proof.
  intros Hc Hh Hl Hp. fix IH 1. intros [id l m v|v|t v|id t cs].
  - apply Hc.
  - apply Hh.
  - apply Hl.
  - apply Hp. induction cs as [|c cs IHcs]; constructor; [apply IH | apply IHcs].
Qed.

Lemma elem_of_flat_map {A B} (f : A → list B) (l : list A) (y : B) :
  y ∈ flat_map f l ↔ ∃ x, x ∈ l ∧ y ∈ f x.
Proof.
  rewrite list_elem_of_In, in_flat_map.
  split; intros (x & Hx & Hy); exists x; by rewrite ?list_elem_of_In in *.
Qed.

Lemma updateChildren_notin p f n : p ∉ ids n → updateChildren p f n = n.
Proof.
  induction n as [| | |id t cs IH] using Node_tree_ind; simpl; try done.
  intros Hp. apply not_elem_of_cons in Hp as [Hne Hp].
  destruct (decide (id = p)); [congruence|]. f_equal.
  induction cs as [|c cs IHcs]; [done|]. simpl in *.
  apply not_elem_of_app in Hp as [Hc Hcs].
  apply Forall_cons in IH as [IHc IH]. rewrite IHc by done.
  f_equal. by apply IHcs.
Qed.

Lemma substCodes_notin σ c v n :
  c ∉ ids n → substCodes (<[c := v]> σ) n = substCodes σ n.
Proof.
  induction n as [id l m v0| | |id t cs IH] using Node_tree_ind; simpl;
    try done.
  - intros Hc. apply not_elem_of_cons in Hc as [Hne _].
    by rewrite lookup_insert_ne.
  - intros Hp. apply not_elem_of_cons in Hp as [Hne Hp]. f_equal.
    induction cs as [|c0 cs IHcs]; [done|]. simpl in *.
    apply not_elem_of_app in Hp as [Hc Hcs].
    apply Forall_cons in IH as [IHc IH]. rewrite IHc by done.
    f_equal. by apply IHcs.
Qed.

Lemma ids_substCodes σ n x : x ∈ ids (substCodes σ n) → x ∈ ids n.
Proof.
  induction n as [id l m v0| | |id t cs IH] using Node_tree_ind; simpl;
    try done.
  - destruct (σ !! id); simpl; [by intros ?%elem_of_nil | done].
  - intros [->|Hx]%elem_of_cons; [by left|]. right.
    apply elem_of_flat_map in Hx as (c' & Hc' & Hx).
    apply list_elem_of_fmap in Hc' as (c & -> & Hc).
    apply elem_of_flat_map. exists c. split; [done|].
    rewrite Forall_forall in IH. by apply IH.
Qed.

(** A collected pair names a code node of the tree, and its parent is the
    node the walk came from or a node of the tree. *)
Lemma visit_ids par n p c :
  (p, c) ∈ visit par n →
  code_id c ∈ ids n ∧ (par = Some p ∨ p ∈ ids n).
Proof.
  revert par.
  induction n as [id l m v0| | |id t cs IH] using Node_tree_ind; simpl;
    intros par Hin; try by apply elem_of_nil in Hin.
  - destruct par as [p'|]; [|by apply elem_of_nil in Hin].
    apply list_elem_of_singleton in Hin as [= -> ->]. simpl.
    split; [by left | by left].
  - apply elem_of_flat_map in Hin as (c' & Hc' & Hin).
    rewrite Forall_forall in IH.
    destruct (IH c' Hc' (Some id) Hin) as [Hc Hp]. split.
    + right. apply elem_of_flat_map. eauto.
    + right. destruct Hp as [[= ->]|Hp]; [by left|right].
      apply elem_of_flat_map. eauto.
Qed.

(** A code node found directly under the walk's parent is that node. *)
Lemma visit_direct p n c :
  (p, c) ∈ visit (Some p) n → p ∉ ids n →
  n = code (code_id c) (code_lang c) (code_meta c) (code_value c).
Proof.
  destruct n as [id l m v0| | |id t cs]; simpl; intros Hin Hp;
    try by apply elem_of_nil in Hin.
  - apply list_elem_of_singleton in Hin as [= ->]. done.
  - exfalso. apply elem_of_flat_map in Hin as (c' & Hc' & Hin).
    destruct (visit_ids _ _ _ _ Hin) as [_ [[= ->]|Hp']].
    + apply Hp. by left.
    + apply Hp. right. apply elem_of_flat_map. eauto.
Qed.

Lemma indexOf_from_found i c pre l m v post :
  Forall (λ n, ¬ isCodeOf c n) pre →
  indexOf_from i c (pre ++ code c l m v :: post)
  = (i + Z.of_nat (length pre))%Z.
Proof.
  intros Hpre. revert i.
  induction pre as [|x pre IH]; intros i; simpl.
  - destruct (decide (c = c)); [lia | done].
  - apply Forall_cons in Hpre as [Hx Hpre].
    destruct x as [id ? ? ?| | |]; simpl in Hx;
      [destruct (decide (id = c)); [done|] |..]; rewrite IH by done; lia.
Qed.

Lemma splice1_found pre x post item :
  splice1 (Z.of_nat (length pre)) item (pre ++ x :: post)
  = pre ++ item :: post.
Proof.
  unfold splice1. rewrite length_app. simpl.
  destruct (Z.ltb_spec (Z.of_nat (length pre)) 0); [lia|].
  rewrite Z.min_l by lia. rewrite Nat2Z.id.
  rewrite take_app_length, drop_app_ge by lia.
  by replace (S (length pre) - length pre) with 1 by lia.
Qed.

Lemma substCodes_not_code σ c n : c ∉ ids n → ¬ isCodeOf c (substCodes σ n).
Proof.
  destruct n as [id l m v| | |id t cs]; simpl; try tauto.
  intros Hc. destruct (σ !! id); simpl; [tauto|].
  intros ->. apply Hc. by left.
Qed.

Lemma fmap_substCodes_notin σ c v l :
  c ∉ flat_map ids l → substCodes (<[c := v]> σ) <$> l = substCodes σ <$> l.
Proof.
  intros Hc. apply list_fmap_ext. intros i x Hx.
  apply substCodes_notin. intros Hin. apply Hc.
  apply elem_of_flat_map. exists x. split; [|done].
  by eapply list_elem_of_lookup_2.
Qed.

Lemma fmap_updateChildren_notin σ p f l :
  p ∉ flat_map ids l →
  updateChildren p f <$> (substCodes σ <$> l) = substCodes σ <$> l.
Proof.
  intros Hp. rewrite <- list_fmap_compose. apply list_fmap_ext.
  intros i x Hx. simpl. apply updateChildren_notin.
  intros Hin%ids_substCodes. apply Hp.
  apply elem_of_flat_map. exists x. split; [|done].
  by eapply list_elem_of_lookup_2.
Qed.

(** One replacement (line 272), on a tree some of whose code nodes are
    already replaced: the collected node becomes the html node, in place. *)
Lemma replaceCode_substCodes σ p c v par n :
  NoDup (ids n) → (p, c) ∈ visit par n → par ≠ Some p →
  σ !! code_id c = None →
  replaceCode p (code_id c) v (substCodes σ n)
  = substCodes (<[code_id c := v]> σ) n.
Proof.
  intros Hnd Hin Hpar Hσ. revert par Hnd Hin Hpar.
  induction n as [id l m v0| | |id t cs IH] using Node_tree_ind;
    intros par Hnd Hin Hpar; simpl in Hin;
    try by apply elem_of_nil in Hin.
  - destruct par as [p'|]; [|by apply elem_of_nil in Hin].
    apply list_elem_of_singleton in Hin as [= -> ->]. done.
  - apply elem_of_flat_map in Hin as (child & Hchild & Hin).
    apply list_elem_of_split in Hchild as (pre & post & ->).
    simpl in Hnd. apply NoDup_cons in Hnd as [Hid Hnd].
    rewrite flat_map_app in Hid, Hnd. simpl in Hid, Hnd.
    apply NoDup_app in Hnd as (_ & Hpre & Hnd).
    apply NoDup_app in Hnd as (Hndc & Hpost & _).
    destruct (visit_ids _ _ _ _ Hin) as [Hc Hp].
    assert (Hcpre : code_id c ∉ flat_map ids pre).
    { intros H. apply (Hpre _ H). apply elem_of_app. by left. }
    assert (Hcpost : code_id c ∉ flat_map ids post) by by apply Hpost.
    unfold replaceCode. simpl.
    destruct (decide (id = p)) as [->|Hne].
    + (* the parent itself *)
      assert (Hpc : p ∉ ids child).
      { intros H. apply Hid. apply elem_of_app. right.
        apply elem_of_app. by left. }
      rewrite (visit_direct _ _ _ Hin Hpc). f_equal.
      rewrite !fmap_app, !fmap_cons. simpl.
      rewrite Hσ, lookup_insert_eq.
      rewrite !fmap_substCodes_notin by done.
      unfold indexOf. rewrite indexOf_from_found.
      * by rewrite Z.add_0_l, splice1_found.
      * apply Forall_fmap, Forall_forall. intros x Hx. simpl.
        apply substCodes_not_code. intros H. apply Hcpre.
        apply elem_of_flat_map. eauto.
    + (* a parent further down *)
      destruct Hp as [[= ->]|Hp]; [done|].
      assert (Hppre : p ∉ flat_map ids pre).
      { intros H. apply (Hpre _ H). apply elem_of_app. by left. }
      assert (Hppost : p ∉ flat_map ids post) by by apply Hpost.
      f_equal. rewrite !fmap_app, !fmap_cons.
      rewrite !fmap_updateChildren_notin by done.
      rewrite !fmap_substCodes_notin by done.
      f_equal. f_equal.
      apply Forall_app in IH as [_ IH]. apply Forall_cons in IH as [IH _].
      apply (IH (Some id)); [done..|congruence].
Qed.


Lemma foldl_replaceCode tree nodes htmls σ par :
  NoDup (ids tree) →
  NoDup ((λ x, code_id x.2) <$> nodes) →
  (∀ x, x ∈ nodes → x ∈ visit par tree ∧ par ≠ Some x.1) →
  (∀ x, x ∈ nodes → σ !! code_id x.2 = None) →
  length htmls = length nodes →
  foldl (λ t x, replaceCode x.1.1 (code_id x.1.2) x.2 t)
    (substCodes σ tree) (zip nodes htmls)
  = substCodes (blockHtmlOf nodes htmls ∪ σ) tree.
Proof.
  intros Hnd. revert htmls σ.
  induction nodes as [|[p c] nodes IH]; intros htmls σ Hids Hin Hσ Hlen.
  - unfold blockHtmlOf. simpl. by rewrite (left_id_L ∅ (∪)).
  - destruct htmls as [|v htmls]; [done|]. simpl in *.
    apply NoDup_cons in Hids as [Hc Hids].
    destruct (Hin (p, c)) as [Hv Hpar]; [by left|]. simpl in Hpar.
    rewrite (replaceCode_substCodes σ p c v par tree);
      [|done..|by apply (Hσ (p, c)); left].
    rewrite IH; try done.
    + f_equal. unfold blockHtmlOf. simpl.
      rewrite <- insert_union_l. symmetry. apply insert_union_r.
      apply not_elem_of_list_to_map_1. rewrite fst_zip; [done|].
      rewrite length_fmap. lia.
    + intros x Hx. apply Hin. by right.
    + intros x Hx. rewrite lookup_insert_ne; [apply Hσ; by right|].
      intros Heq. apply Hc. rewrite Heq. apply list_elem_of_fmap.
      by exists x.
    + lia.
Qed.

Lemma NoDup_visit_ids par n :
  NoDup (ids n) → NoDup ((λ x, code_id x.2) <$> visit par n).
Proof.
  revert par.
  induction n as [id l m v0| | |id t cs IH] using Node_tree_ind;
    intros par Hnd; simpl; try by constructor.
  - destruct par; simpl; [|by constructor]. apply NoDup_singleton.
  - simpl in Hnd. apply NoDup_cons in Hnd as [_ Hnd].
    induction cs as [|c cs IHcs]; simpl; [by constructor|].
    simpl in Hnd. apply NoDup_app in Hnd as (Hc & Hdisj & Hcs).
    apply Forall_cons in IH as [IHc IH].
    rewrite fmap_app. apply NoDup_app. split_and!.
    + by apply IHc.
    + intros x (y & -> & Hy)%list_elem_of_fmap (z & Hz & Hz')%list_elem_of_fmap.
      destruct y as [py cy], z as [pz cz]. simpl in *.
      apply (Hdisj (code_id cy)).
      * by destruct (visit_ids _ _ _ _ Hy).
      * rewrite Hz. apply elem_of_flat_map in Hz' as (c' & Hc' & Hz').
        apply elem_of_flat_map. exists c'. split; [done|].
        by destruct (visit_ids _ _ _ _ Hz').
    + by apply IHcs.
Qed.

Lemma blockHtmlOf_lookup nodes htmls i x :
  NoDup ((λ x, code_id x.2) <$> nodes) →
  length htmls = length nodes →
  nodes !! i = Some x →
  blockHtmlOf nodes htmls !! code_id x.2 = htmls !! i.
Proof.
  intros Hnd Hlen Hi.
  destruct (htmls !! i) as [v|] eqn:Hv.
  2:{ apply lookup_ge_None in Hv. apply lookup_lt_Some in Hi. lia. }
  apply elem_of_list_to_map_1.
  - rewrite fst_zip; [done|]. rewrite length_fmap. lia.
  - apply list_elem_of_lookup. exists i. apply lookup_zip_Some.
    split; [|done]. by rewrite list_lookup_fmap, Hi.
Qed.

Lemma substCodes_empty n : substCodes ∅ n = n.
Proof.
  induction n as [id l m v| | |id t cs IH] using Node_tree_ind; simpl;
    try done.
  f_equal. induction cs as [|c cs IHcs]; [done|].
  apply Forall_cons in IH as [Hc IH]. simpl. rewrite Hc. f_equal.
  by apply IHcs.
Qed.

(** With a code node collected, the start ends at the [await], unless the
    hook threw. *)
Lemma transformer_start_code tree st :
  visit None tree ≠ [] →
  (∃ a, (transformer_start tree st).1 = AwaitingRenderer (visit None tree) a
        ∧ asyncRenderer (transformer_start tree st).2 = Some a)
  ∨ (∃ e, (transformer_start tree st).1 = Threw e).
Proof.
  intros Hv. unfold transformer_start.
  destruct (visit None tree) as [|x nodes]; [done|].
  destruct (asyncRenderer st) as [a|] eqn:Ha.
  - left. by exists a.
  - unfold constructRenderer.
    destruct customCreateRenderer as [hook|]; [destruct (hook _)|]; simpl;
      eauto.
Qed.










(** ** Shared assets are emitted once *)









(** ** The loop, block by block *)

Lemma length_assembleAll renderer rendered added :
  length (assembleAll renderer rendered added) = length rendered.
Proof.
  revert added. induction rendered as [|r rendered IH]; intros added; simpl;
    [done|].
  destruct (assembleGroup renderer r added). simpl. by rewrite IH.
Qed.

(** What the loop has done when it ends.  [steps] holds, for each block it
    finished, the block and what [ec.render] returned for it; the tree is the
    one in which the nodes of these blocks are replaced; each block was
    created against the tree as it stood then; and a loop that ends with an
    error ends at the first block whose creation or rendering fails. *)
Lemma processNodes_steps renderer file nodes index total tree added tree' o :
  processNodes renderer file nodes index total tree added = (tree', o) →
  ∃ steps : list (ExpressiveCodeBlock * (Parents * list string)),
    let htmls := toHtml <$> assembleAll renderer (snd <$> steps) added in
    (length steps ≤ length nodes)%nat
    ∧ (o = None → length steps = length nodes)
    ∧ (∀ e, o = Some e →
         ∃ x, nodes !! length steps = Some x
           ∧ let t := replaceAll tree (take (length steps) nodes) htmls in
             let i := (index + length steps)%nat in
             (createBlock t file x.2 i total = inl e
              ∨ ∃ block, createBlock t file x.2 i total = inr block
                         ∧ ec_render renderer block = inl e))
    ∧ tree' = replaceAll tree (take (length steps) nodes) htmls
    ∧ ∀ i x step, nodes !! i = Some x → steps !! i = Some step →
        createBlock (replaceAll tree (take i nodes) htmls) file x.2
          (index + i) total = inr step.1
        ∧ ec_render renderer step.1 = inr step.2.
Proof.
  revert index tree added.
  induction nodes as [|[p c] nodes IH]; intros index tree added; simpl.
  - intros [= <- <-]. exists []. simpl. split_and!; try done.
  - destruct (createBlock tree file c index total) as [e|codeBlock] eqn:Hb.
    { intros [= <- <-]. exists []. simpl. split_and!; try done; [lia|].
      intros e' [= <-]. exists (p, c). rewrite Nat.add_0_r. auto. }
    unfold renderBlockToHtml.
    destruct (ec_render renderer codeBlock) as [e|r] eqn:Hr.
    { intros [= <- <-]. exists []. simpl. split_and!; try done; [lia|].
      intros e' [= <-]. exists (p, c). rewrite Nat.add_0_r. eauto. }
    destruct (assembleGroup renderer r added) as [ast added'] eqn:Ha.
    intros H. destruct (IH _ _ _ H) as (steps & Hle & Hn & He & Ht & Hs).
    exists ((codeBlock, r) :: steps). cbn [fmap list_fmap snd assembleAll].
    simpl. rewrite Ha. simpl. split_and!.
    + lia.
    + intros Ho. by rewrite Hn.
    + intros e Ho. destruct (He e Ho) as (x & Hx & Hc). exists x.
      split; [done|]. by rewrite <- Nat.add_succ_comm.
    + done.
    + intros [|i] x step Hx Hstep; simpl in *; simplify_eq.
      * by rewrite Nat.add_0_r.
      * rewrite <- Nat.add_succ_comm. by apply Hs.
Qed.

Lemma zip_take_both {A B} (i : nat) (l : list A) (k : list B) :
  zip (take i l) k = zip (take i l) (take i k).
Proof.
  revert l k. induction i as [|i IH]; intros [|x l] [|y k]; simpl; try done.
  by rewrite <- IH.
Qed.

Lemma NoDup_take {A} (i : nat) (l : list A) : NoDup l → NoDup (take i l).
Proof.
  intros H. rewrite <- (take_drop i l) in H. by apply NoDup_app in H as [H _].
Qed.

(** On a tree of distinct objects, the first [i] replacements give the
    tree with exactly the first [i] collected code nodes replaced. *)
Lemma replaceAll_substCodes tree i htmls :
  NoDup (ids tree) →
  (i ≤ length htmls)%nat → (i ≤ length (visit None tree))%nat →
  replaceAll tree (take i (visit None tree)) htmls
  = substCodes (blockHtmlOf (take i (visit None tree)) (take i htmls)) tree.
Proof.
  intros Hnd Hi Hi'. unfold replaceAll. rewrite zip_take_both.
  rewrite <- (substCodes_empty tree) at 1.
  rewrite (foldl_replaceCode tree _ _ ∅ None).
  - by rewrite (right_id_L ∅ (∪)).
  - done.
  - rewrite fmap_take. by apply NoDup_take, NoDup_visit_ids.
  - intros x [j [Hx _]]%elem_of_take. split; [|done].
    by eapply list_elem_of_lookup_2.
  - done.
  - by rewrite !length_take_le.
Qed.



(** X17.  Blocks are created in document order.  On a tree of distinct objects,
    a transform that runs to its end has created the block of the [i]-th
    code node (counting from 0) with [groupIndex] [i], with [totalGroups]
    the number of code nodes of the document, and against the document in
    which exactly the [i] code nodes before it are already replaced by
    their markup; the renderer has rendered that block. *)
Theorem transformer_creates_blocks_in_document_order
    (tree : Node) (file : VFile) (st : Plugin) (tree' : Node) (st' : Plugin) :
  NoDup (ids tree) →
  transformer tree file st = ((tree', None), st') →
  let nodes := visit None tree in
  ∃ (blocks : list ExpressiveCodeBlock) (htmls : list string),
    length blocks = length nodes
    ∧ length htmls = length nodes
    ∧ tree' = substCodes (blockHtmlOf nodes htmls) tree
    ∧ ∀ i x block, nodes !! i = Some x → blocks !! i = Some block →
        let treeThen :=
          substCodes (blockHtmlOf (take i nodes) (take i htmls)) tree in
        createBlock treeThen file x.2 i (length nodes) = inr block
        ∧ (∃ a renderer rendered,
             asyncRenderer st' = Some a ∧ awaitRenderer a = inr renderer
             ∧ ec_render renderer block = inr rendered)
        ∧ (customCreateBlock = None →
           groupIndex block = i
           ∧ totalGroups block = length nodes
           ∧ documentRoot block = treeThen
           ∧ sourceFilePath block = path file
           ∧ input_language block = default "" (code_lang x.2)
           ∧ input_meta block = default "" (code_meta x.2)).
Proof.
  intros Hnd Ht nodes.
  destruct (visit None tree) as [|x0 nodes0] eqn:Hvisit.
  { unfold transformer, transformer_start in Ht. rewrite Hvisit in Ht.
    injection Ht as <- <-. exists [], []. subst nodes.
    split_and!; [done..| |intros [|i] ? ? Hx; done].
    unfold blockHtmlOf. simpl. by rewrite substCodes_empty. }
  assert (Hne : visit None tree ≠ []) by by rewrite Hvisit.
  subst nodes. rewrite <- Hvisit. clear x0 nodes0 Hvisit.
  unfold transformer in Ht.
  destruct (transformer_start_code tree st Hne) as [(a & Hs & Ha)|[e Hs]];
    destruct (transformer_start tree st) as [started st1]; simpl in *;
    subst started; [|done].
  unfold transformer_resume in Ht.
  destruct (awaitRenderer a) as [e|renderer] eqn:Hr; [done|].
  injection Ht as H <-.
  destruct (processNodes_steps _ _ _ _ _ _ _ _ _ H)
    as (steps & _ & Hn & _ & -> & Hs).
  specialize (Hn eq_refl).
  set (htmls := toHtml <$> assembleAll renderer (snd <$> steps) noneAdded)
    in *.
  assert (Hl : length htmls = length (visit None tree))
    by (unfold htmls; by rewrite length_fmap, length_assembleAll,
          length_fmap).
  exists (fst <$> steps), htmls. split_and!.
  - by rewrite length_fmap.
  - done.
  - rewrite Hn, replaceAll_substCodes by (done || lia).
    by rewrite <- Hl at 2; rewrite !firstn_all.
  - intros i x block Hx Hb. cbv zeta.
    rewrite list_lookup_fmap in Hb.
    destruct (steps !! i) as [step|] eqn:Hstep; [|done].
    simpl in Hb. injection Hb as <-.
    destruct (Hs i x step Hx Hstep) as [Hc Hrender].
    apply lookup_lt_Some in Hx as Hlt.
    rewrite replaceAll_substCodes in Hc by (done || lia).
    simpl in Hc.
    set (treeThen := substCodes _ tree) in *.
    split_and!; [done|eauto 6|].
    intros Hhook. clear - Hc Hhook. unfold createBlock in Hc.
    destruct (normalizeCode _) as [?|normalizedCode]; [done|].
    rewrite Hhook in Hc.
    destruct getBlockLocale as [hook|];
      [destruct (hook _ file) as [?|locale]; [done|]|];
      by injection Hc as <-.
Qed.

(** ** Tabs *)

Lemma countTabs_app a b : countTabs (a +:+ b) = (countTabs a + countTabs b)%nat.
Proof. induction a as [|c a IH]; simpl; [done|]. rewrite IH. lia. Qed.

Lemma length_app_string a b :
  String.length (a +:+ b) = (String.length a + String.length b)%nat.
Proof. induction a as [|c a IH]; simpl; [done|]. by rewrite IH. Qed.

Lemma repeatSpace_spec w :
  countTabs (repeatSpace w) = 0 ∧ String.length (repeatSpace w) = w.
Proof. induction w as [|w [IH1 IH2]]; simpl; [done|]. by rewrite IH1, IH2. Qed.

Lemma replaceTabs_spec w s :
  countTabs (replaceTabs (repeatSpace w) s) = 0
  ∧ (String.length (replaceTabs (repeatSpace w) s) + countTabs s
     = String.length s + countTabs s * w)%nat.
Proof.
  destruct (repeatSpace_spec w) as [Hc Hl].
  induction s as [|c s [IH1 IH2]]; simpl; [done|].
  destruct (Ascii.eqb c "009") eqn:Hc'; simpl.
  - rewrite countTabs_app, length_app_string, Hc, Hl, IH1. split; lia.
  - rewrite Hc', IH1. split; [done|]. lia.
Qed.

(** X18.  Tabs do not reach the renderer, and a width the engine cannot
    build spaces for stops the block.  The code of a block is normalized
    before either hook or the constructor sees it: when the normalization
    throws, no block is made and the error is that of the normalization,
    whatever the hooks are; otherwise every block that is made comes from an
    input with the normalized code, handed to [customCreateBlock] when it
    is given and to the constructor when not.  The normalization leaves the
    code as it is when [tabWidth] is not positive ([NaN] included).  For a
    positive width it uses the width with its fraction dropped: it throws a
    [RangeError] when the width is infinite or beyond the longest string,
    or when the code with its tabs replaced would be longer than the
    longest string; otherwise the normalized code has no tab, and is longer
    than the node's code by the truncated width less one for each of its
    tabs. *)
Theorem createBlock_normalizes_tabs
    (tree : Node) (file : VFile) (c : Code) (index total : nat) :
  let value := code_value c in
  match normalizeCode value with
  | inl e => createBlock tree file c index total = inl e
  | inr normalizedCode =>
      ∀ block, createBlock tree file c index total = inr block →
        ∃ input : ExpressiveCodeBlockOptions,
          input_code input = normalizedCode
          ∧ groupIndex input = index
          ∧ totalGroups input = total
          ∧ match customCreateBlock with
            | Some hook => hook input file = inr block
            | None => block = input
            end
  end
  ∧ match tabWidth with
    | Finite q =>
        let width := truncate q in
        if (0 <? QArith_base.Qnum q)%Z
        then
          if (maxStringLength <? width)%Z
          then normalizeCode value = inl "RangeError"
          else
            match normalizeCode value with
            | inl e =>
                e = "RangeError"
                ∧ (maxStringLength
                   < Z.of_nat (String.length value)
                     + Z.of_nat (countTabs value) * (width - 1))%Z
            | inr normalizedCode =>
                countTabs normalizedCode = 0
                ∧ (Z.of_nat (String.length normalizedCode)
                   = Z.of_nat (String.length value)
                     + Z.of_nat (countTabs value) * (width - 1))%Z
            end
        else normalizeCode value = inr value
    | PlusInfinity => normalizeCode value = inl "RangeError"
    | MinusInfinity | NotANumber => normalizeCode value = inr value
    end.
Proof.
  intros value. split.
  - unfold createBlock. fold value.
    destruct (normalizeCode value) as [e|normalizedCode]; [done|].
    intros block Hc.
    destruct getBlockLocale as [hook|].
    + destruct (hook _ file) as [?|locale] eqn:Hlocale; [done|].
      eexists {| input_code := normalizedCode; input_locale := locale |}.
      split_and!; [done..|].
      by destruct customCreateBlock; [|injection Hc as <-].
    + eexists {| input_code := normalizedCode; input_locale := None |}.
      split_and!; [done..|].
      by destruct customCreateBlock; [|injection Hc as <-].
  - unfold normalizeCode. destruct tabWidth as [q| | |]; simpl; try done.
    destruct (0 <? QArith_base.Qnum q)%Z eqn:Hpos; [|done].
    assert (Hw : (0 ≤ truncate q)%Z).
    { unfold truncate. apply Z.quot_pos; lia. }
    replace (truncate q <? 0)%Z with false by (symmetry; by apply Z.ltb_ge).
    simpl. destruct (maxStringLength <? truncate q)%Z; [done|].
    unfold replaceEveryTab.
    destruct (replaceTabs_spec (Z.to_nat (truncate q)) value) as [Hc Hl].
    destruct (countTabs value =? 0)%nat eqn:Htabs.
    + apply Nat.eqb_eq in Htabs. rewrite Htabs. split; [done | lia].
    + destruct (maxStringLength <? _)%Z eqn:Hlong.
      * apply Z.ltb_lt in Hlong. split; [done | nia].
      * split; [done | nia].
Qed.

(** ** A renderer that cannot be had *)

Lemma transformer_no_code tree file st :
  visit None tree = [] → transformer tree file st = ((tree, None), st).
Proof.
  intros Hv. unfold transformer, transformer_start. by rewrite Hv.
Qed.

(** X19.  A failed construction is not repeated.  Once the plugin holds a
    renderer promise that is rejected, every document with a code node is
    rejected with the same error and left as it is, every other document
    passes, and the plugin constructs nothing more. *)
Theorem transformer_keeps_rejected_renderer
    (st : Plugin) (a : AsyncRenderer) (e : error)
    (docs : list (Node * VFile)) :
  asyncRenderer st = Some a →
  awaitRenderer a = inl e →
  transformAll docs st = st
  ∧ transformEach docs st
    = (λ d, (d.1, if hasCode d.1 then Some e else None)) <$> docs.
Proof.
  intros Ha He.
  assert (Hone : ∀ tree file,
            transformer tree file st
            = ((tree, if hasCode tree then Some e else None), st)).
  { intros tree file. unfold transformer, transformer_start, hasCode.
    destruct (visit None tree) as [|x nodes]; [done|].
    rewrite Ha. unfold transformer_resume. by rewrite He. }
  induction docs as [|[tree file] docs [IH1 IH2]]; [done|].
  split.
  - unfold transformAll in *. simpl. by rewrite Hone.
  - simpl. rewrite Hone. simpl. by rewrite IH2.
Qed.

(** X20.  A hook that throws is called again.  With a [customCreateRenderer]
    that throws at every call, the plugin never holds a renderer: each
    document with a code node calls the hook once more and is rejected,
    untouched; documents without code pass. *)
Theorem transformer_calls_throwing_hook_again
    (hook : nat → error + AsyncRenderer) (docs : list (Node * VFile)) :
  customCreateRenderer = Some hook →
  (∀ n, ∃ e, hook n = inl e) →
  let st := transformAll docs newPlugin in
  asyncRenderer st = None
  ∧ constructions st
    = replicate (length (filter (λ d, hasCode d.1) docs))
        ViaCustomCreateRenderer
  ∧ Forall2 (λ d r, r.1 = d.1 ∧ (r.2 = None ↔ hasCode d.1 = false))
      docs (transformEach docs newPlugin).
Proof.
  intros Hhook Hthrows.
  assert (Hone : ∀ tree file st, asyncRenderer st = None →
            let r := transformer tree file st in
            r.1.1 = tree
            ∧ (r.1.2 = None ↔ hasCode tree = false)
            ∧ asyncRenderer r.2 = None
            ∧ constructions r.2
              = constructions st
                ++ if hasCode tree then [ViaCustomCreateRenderer] else []).
  { intros tree file st Ha. unfold transformer, transformer_start, hasCode.
    destruct (visit None tree) as [|x nodes]; simpl.
    - by rewrite app_nil_r.
    - rewrite Ha. unfold constructRenderer. rewrite Hhook.
      destruct (Hthrows (length (constructions st))) as [e ->]. simpl.
      split_and!; done. }
  assert (Hall : ∀ st, asyncRenderer st = None →
            asyncRenderer (transformAll docs st) = None
            ∧ constructions (transformAll docs st)
              = constructions st
                ++ replicate (length (filter (λ d, hasCode d.1) docs))
                     ViaCustomCreateRenderer
            ∧ Forall2 (λ d r, r.1 = d.1 ∧ (r.2 = None ↔ hasCode d.1 = false))
                docs (transformEach docs st)).
  { induction docs as [|[tree file] docs IH]; intros st Ha.
    - simpl. by rewrite app_nil_r.
    - destruct (Hone tree file st Ha) as (Ht & Ho & Ha' & Hc).
      destruct (IH _ Ha') as (IH1 & IH2 & IH3).
      unfold transformAll in *. simpl. split_and!.
      + done.
      + rewrite IH2, Hc, filter_cons. simpl.
        destruct (hasCode tree); simpl; by rewrite <- app_assoc.
      + by apply Forall2_cons. }
  by apply Hall.
Qed.

(** ** A transformed document *)

(** The code nodes a walk still finds after a substitution. *)
Lemma visit_substCodes σ par n :
  visit par (substCodes σ n)
  = filter (λ x, σ !! code_id x.2 = None) (visit par n).
Proof.
  revert par. induction n as [id l m v|v|t v|id t cs IH] using Node_tree_ind;
    intros par; try done.
  - simpl. destruct (σ !! id) as [blockHtml|] eqn:Hσ; simpl.
    + destruct par; [|done]. rewrite filter_cons. simpl.
      by rewrite decide_False by (rewrite Hσ; done).
    + destruct par; [|done]. rewrite filter_cons. simpl.
      by rewrite decide_True by done.
  - cbn [substCodes visit].
    induction IH as [|c cs Hc _ IHcs]; [done|].
    rewrite fmap_cons. cbn [flat_map]. by rewrite filter_app, Hc, IHcs.
Qed.

(** A transform of a tree of distinct objects that runs to its end
    substitutes the markup of the blocks for the collected code nodes. *)
Lemma transformer_success_substCodes tree file st tree' st' :
  NoDup (ids tree) →
  transformer tree file st = ((tree', None), st') →
  ∃ htmls : list string,
    length htmls = length (visit None tree)
    ∧ tree' = substCodes (blockHtmlOf (visit None tree) htmls) tree.
Proof.
  intros Hnd Ht.
  destruct (visit None tree) as [|x nodes] eqn:Hvisit.
  { rewrite transformer_no_code in Ht by done. injection Ht as <- _.
    exists []. split; [done|]. unfold blockHtmlOf. simpl.
    by rewrite substCodes_empty. }
  rewrite <- Hvisit.
  assert (Hne : visit None tree ≠ []) by by rewrite Hvisit.
  clear x nodes Hvisit. unfold transformer in Ht.
  destruct (transformer_start_code tree st Hne) as [(a & Hs & _)|[e Hs]];
    destruct (transformer_start tree st) as [started st1]; simpl in Hs;
    subst started; [|done].
  unfold transformer_resume in Ht.
  destruct (awaitRenderer a) as [e|renderer]; [done|].
  injection Ht as H _.
  destruct (processNodes_steps _ _ _ _ _ _ _ _ _ H)
    as (steps & _ & Hn & _ & -> & _).
  specialize (Hn eq_refl).
  set (htmls := toHtml <$> assembleAll renderer (snd <$> steps) noneAdded).
  assert (Hl : length htmls = length (visit None tree))
    by (unfold htmls; by rewrite length_fmap, length_assembleAll,
          length_fmap).
  exists htmls. split; [done|].
  rewrite Hn, replaceAll_substCodes by (done || lia).
  by rewrite <- Hl at 2; rewrite !firstn_all.
Qed.

(** X21.  The transform is idempotent.  A tree of distinct objects that a
    transform has run over to its end holds no code node the walk would
    collect, so transforming it again, by any plugin instance, returns it
    as it is and leaves that instance untouched. *)
Theorem transformer_is_idempotent
    (tree : Node) (file : VFile) (st : Plugin) (tree' : Node) (st' : Plugin) :
  NoDup (ids tree) →
  transformer tree file st = ((tree', None), st') →
  visit None tree' = []
  ∧ ∀ file2 st2, transformer tree' file2 st2 = ((tree', None), st2).
Proof.
  intros Hnd Ht.
  destruct (transformer_success_substCodes _ _ _ _ _ Hnd Ht)
    as (htmls & Hlen & ->).
  assert (Hv : visit None
                 (substCodes (blockHtmlOf (visit None tree) htmls) tree) = []).
  { rewrite visit_substCodes.
    destruct (filter _ (visit None tree)) as [|x rest] eqn:Hf; [done|].
    assert (Hx : x ∈ filter (λ x, blockHtmlOf (visit None tree) htmls
                                    !! code_id x.2 = None)
                       (visit None tree)) by (rewrite Hf; left).
    apply list_elem_of_filter in Hx as [Hnone Hx].
    apply list_elem_of_lookup_1 in Hx as [i Hi].
    rewrite (blockHtmlOf_lookup _ _ i x) in Hnone;
      [|by apply NoDup_visit_ids|done..].
    apply lookup_ge_None in Hnone. apply lookup_lt_Some in Hi. lia. }
  split; [done|]. intros file2 st2. by apply transformer_no_code.
Qed.

(** ** A code node that is not where it was *)

Lemma indexOf_from_missing i c cs :
  Forall (λ n, ¬ isCodeOf c n) cs → indexOf_from i c cs = (-1)%Z.
Proof.
  intros H. revert i. induction H as [|n cs Hn _ IH]; intros i; simpl; [done|].
  destruct n as [id ? ? ?| | |]; simpl in *; try apply IH.
  by rewrite decide_False by done.
Qed.

(** X22.  Line 272 when the code node is not among the children of its recorded
    parent: [indexOf] returns -1 and [splice(-1, 1, html)] puts the html
    node in the place of the last child; an empty parent gets the html node
    as its only child. *)
Theorem replaceCode_missing_node
    (p c : nat) (t blockHtml : string) (cs : list Node) :
  Forall (λ n, ¬ isCodeOf c n) cs →
  replaceCode p c blockHtml (parent p t cs)
  = parent p t (removelast cs ++ [html blockHtml]).
Proof.
  intros H. unfold replaceCode. simpl. rewrite decide_True by done.
  f_equal. unfold indexOf. rewrite indexOf_from_missing by done.
  unfold splice1. simpl.
  destruct (decide (cs = [])) as [->|Hne]; [done|].
  assert (Hlen : (0 < length cs)%nat) by (destruct cs; [done | simpl; lia]).
  replace (Z.to_nat (Z.max (Z.of_nat (length cs) + -1) 0))
    with (pred (length cs)) by lia.
  rewrite removelast_firstn_len.
  replace (S (pred (length cs))) with (length cs) by lia.
  by rewrite drop_all.
Qed.

(** ** A block with nothing new *)

Lemma pushNew_all_added items added :
  (∀ x, x ∈ items → x ∈ added) → pushNew items added = ([], added).
Proof.
  induction items as [|x items IH]; intros H; simpl; [done|].
  rewrite decide_True by (apply H; left).
  apply IH. intros y Hy. apply H. by right.
Qed.

(** X23.  A block whose styles the document has all emitted, in a document that
    has emitted the renderer's shared assets, gets no extra element: its
    markup is what [ec.render] returned, and the document's sets stay as
    they are. *)
Theorem assembleGroup_nothing_new
    (renderer : RemarkExpressiveCodeRenderer) (ast : Parents)
    (styles : list string) (added : Added) :
  saturated renderer added →
  (∀ x, x ∈ styles → x ∈ addedStyles added) →
  assembleGroup renderer (ast, styles) added = (ast, added).
Proof.
  intros (Hb & Ht & Hm) Hs. unfold assembleGroup, emit, pushStyle. simpl.
  assert (Hb' : negb (bool_decide (baseStyles renderer = ""))
                && negb (bool_decide (baseStyles renderer ∈ addedStyles added))
                = false).
  { destruct (decide (baseStyles renderer = "")) as [->|Hne]; [done|].
    rewrite (bool_decide_eq_true_2 (_ ∈ _)) by auto.
    by rewrite andb_false_r. }
  assert (Ht' : negb (bool_decide (themeStyles renderer = ""))
                && negb (bool_decide (themeStyles renderer ∈ addedStyles added))
                = false).
  { destruct (decide (themeStyles renderer = "")) as [->|Hne]; [done|].
    rewrite (bool_decide_eq_true_2 (_ ∈ _)) by auto.
    by rewrite andb_false_r. }
  rewrite Hb', Ht', !pushNew_all_added by done. simpl.
  by destruct ast, added.
Qed.

End Options.

(** ** A concrete instance *)

(** A plain serializer standing in for [toHtml]. *)
Fixpoint elementToHtml (e : Element) : string :=
  match e with
  | Text v => v
  | Elem tag _ cs =>
      "<" +:+ tag +:+ ">" +:+ String.concat "" (elementToHtml <$> cs)
      +:+ "</" +:+ tag +:+ ">"
  end.

Definition sampleToHtml (ast : Parents) : string :=
  elementToHtml (Elem (tagName ast) (properties ast) (children ast)).

Definition sampleRenderer : RemarkExpressiveCodeRenderer :=
  {| ec_render := λ block,
       inr ({| tagName := "div"; properties := [];
               children := [Elem "pre" [] [Text (input_code block)]] |},
            ["pre{}"]);
     baseStyles := "base{}";
     themeStyles := "theme{}";
     jsModules := ["copy()"] |}.

Definition sampleTree : Node :=
  parent 0 "root"
    [code 1 (Some "js") None "a"; literal "paragraph" "text";
     code 2 None None "b"].

Definition sampleFile : VFile := {| path := Some "doc.md" |}.

(** The options of the samples: the default [tabWidth], and V8's longest
    string. *)
Definition sampleTabWidth : JsNumber := Finite (QArith_base.Qmake 2 1).

Definition sampleMaxStringLength : Z := 536870888.

(** The sample plugin: tabs of width 2, no block hooks, and a
    [customCreateRenderer] that returns [sampleRenderer] itself. *)
Definition sampleTransformer (tree : Node) (st : Plugin)
    : (Node * option error) * Plugin :=
  transformer sampleToHtml sampleTabWidth sampleMaxStringLength None None
    (Some (λ _, inr (RendererValue sampleRenderer))) (λ _, inl "unused")
    tree sampleFile st.

Definition sampleTransformed : Node :=
  parent 0 "root"
    [html ("<div><style>base{}theme{}pre{}</style>" +:+
           "<script>copy()</script><pre>a</pre></div>");
     literal "paragraph" "text";
     html "<div><pre>b</pre></div>"].

Definition samplePlugin : Plugin :=
  {| asyncRenderer := Some (RendererValue sampleRenderer);
     constructions := [ViaCustomCreateRenderer] |}.

Lemma sampleTree_distinct : NoDup (ids sampleTree).
Proof. simpl. repeat (apply NoDup_cons; split; [set_solver|]). constructor. Qed.

Lemma sampleTransformer_run :
  sampleTransformer sampleTree newPlugin
  = ((sampleTransformed, None), samplePlugin).
Proof. vm_compute. reflexivity. Qed.









Lemma transformer_creates_blocks_in_document_order_witness :
  NoDup (ids sampleTree)
  ∧ sampleTransformer sampleTree newPlugin
    = ((sampleTransformed, None), samplePlugin)
  ∧ ∃ blocks : list ExpressiveCodeBlock,
      length blocks = 2
      ∧ ∀ i block, blocks !! i = Some block →
          groupIndex block = i ∧ totalGroups block = 2.
Proof.
  split; [exact sampleTree_distinct|]. split; [exact sampleTransformer_run|].
  destruct (transformer_creates_blocks_in_document_order
              sampleToHtml sampleTabWidth sampleMaxStringLength None None
              (Some (λ _, inr (RendererValue sampleRenderer)))
              (λ _, inl "unused")
              sampleTree sampleFile newPlugin sampleTransformed samplePlugin
              sampleTree_distinct sampleTransformer_run)
    as (blocks & htmls & Hb & _ & _ & Hall).
  exists blocks. split; [exact Hb|]. intros i block Hi.
  destruct (visit None sampleTree !! i) as [x|] eqn:Hx.
  - destruct (Hall i x block Hx Hi) as (_ & _ & Hf).
    destruct (Hf eq_refl) as (Hg & Ht & _). split; assumption.
  - apply lookup_ge_None in Hx. apply lookup_lt_Some in Hi.
    exfalso. unfold ExpressiveCodeBlock in *. simpl in Hx, Hb. lia.
Defined.

(** The code [a<TAB>b]. *)
Definition tabbedCode : Code :=
  {| code_id := 1; code_lang := None; code_meta := None;
     code_value := String "a" (String "009" (String "b" EmptyString)) |}.

(** Two widths a configuration can give: one with a fraction, and one
    beyond the longest string. *)
Definition fractionalTabWidth : JsNumber := Finite (QArith_base.Qmake 5 2).

Definition hugeTabWidth : JsNumber :=
  Finite (QArith_base.Qmake 536870912 1).

Lemma createBlock_normalizes_tabs_witness :
  (∃ block,
     createBlock fractionalTabWidth sampleMaxStringLength None None
       sampleTree sampleFile tabbedCode 0 1 = inr block
     ∧ input_code block = "a  b"
     ∧ countTabs (input_code block) = 0)
  ∧ createBlock hugeTabWidth sampleMaxStringLength None None
      sampleTree sampleFile tabbedCode 0 1 = inl "RangeError".
Proof.
  split.
  - eexists. split; [reflexivity|]. split; [reflexivity|].
    exact (proj1 (proj2 (createBlock_normalizes_tabs fractionalTabWidth
                           sampleMaxStringLength None None
                           sampleTree sampleFile tabbedCode 0 1))).
  - exact (proj1 (createBlock_normalizes_tabs hugeTabWidth
                    sampleMaxStringLength None None
                    sampleTree sampleFile tabbedCode 0 1)).
Defined.

(** A plugin whose renderer promise (from [createRenderer]) is rejected. *)
Definition failedPlugin : Plugin :=
  {| asyncRenderer := Some (RendererPromise 0);
     constructions := [ViaCreateRenderer] |}.

Definition plainTree : Node :=
  parent 0 "root" [literal "paragraph" "text"].



Lemma transformer_keeps_rejected_renderer_witness :
  let docs := [(sampleTree, sampleFile); (plainTree, sampleFile);
               (sampleTree, sampleFile)] in
  transformer sampleToHtml sampleTabWidth
      sampleMaxStringLength None None None (λ _, inl "boom")
    sampleTree sampleFile newPlugin
  = ((sampleTree, Some "boom"), failedPlugin)
  ∧ transformAll sampleToHtml sampleTabWidth
      sampleMaxStringLength None None None (λ _, inl "boom")
      docs failedPlugin = failedPlugin
  ∧ transformEach sampleToHtml sampleTabWidth
      sampleMaxStringLength None None None (λ _, inl "boom")
      docs failedPlugin
    = [(sampleTree, Some "boom"); (plainTree, None);
       (sampleTree, Some "boom")].
Proof.
  cbv zeta. split; [reflexivity|].
  exact (transformer_keeps_rejected_renderer sampleToHtml sampleTabWidth
      sampleMaxStringLength None None None
           (λ _, inl "boom") failedPlugin (RendererPromise 0) "boom"
           [(sampleTree, sampleFile); (plainTree, sampleFile);
            (sampleTree, sampleFile)] eq_refl eq_refl).
Defined.

Lemma transformer_calls_throwing_hook_again_witness :
  let docs := [(sampleTree, sampleFile); (plainTree, sampleFile);
               (sampleTree, sampleFile)] in
  let st := transformAll sampleToHtml sampleTabWidth
      sampleMaxStringLength None None (Some (λ _, inl "boom"))
              (λ _, inl "unused") docs newPlugin in
  asyncRenderer st = None
  ∧ constructions st = [ViaCustomCreateRenderer; ViaCustomCreateRenderer].
Proof.
  cbv zeta.
  destruct (transformer_calls_throwing_hook_again sampleToHtml sampleTabWidth
      sampleMaxStringLength None None
              (Some (λ _, inl "boom")) (λ _, inl "unused") (λ _, inl "boom")
              [(sampleTree, sampleFile); (plainTree, sampleFile);
               (sampleTree, sampleFile)] eq_refl
              (λ _, ex_intro _ "boom" eq_refl))
    as (Ha & Hc & _).
  split; [exact Ha | exact Hc].
Defined.

Lemma transformer_is_idempotent_witness :
  NoDup (ids sampleTree)
  ∧ sampleTransformer sampleTree newPlugin
    = ((sampleTransformed, None), samplePlugin)
  ∧ visit None sampleTransformed = []
  ∧ sampleTransformer sampleTransformed samplePlugin
    = ((sampleTransformed, None), samplePlugin).
Proof.
  split; [exact sampleTree_distinct|]. split; [exact sampleTransformer_run|].
  destruct (transformer_is_idempotent sampleToHtml sampleTabWidth
      sampleMaxStringLength None None
              (Some (λ _, inr (RendererValue sampleRenderer)))
              (λ _, inl "unused")
              sampleTree sampleFile newPlugin sampleTransformed samplePlugin
              sampleTree_distinct sampleTransformer_run)
    as [Hv Hagain].
  split; [exact Hv | apply Hagain].
Defined.

Lemma replaceCode_missing_node_witness :
  Forall (λ n, ¬ isCodeOf 7 n)
    [literal "paragraph" "x"; literal "paragraph" "y"]
  ∧ replaceCode 0 7 "<pre/>"
      (parent 0 "root" [literal "paragraph" "x"; literal "paragraph" "y"])
    = parent 0 "root" [literal "paragraph" "x"; html "<pre/>"].
Proof.
  assert (H : Forall (λ n, ¬ isCodeOf 7 n)
                [literal "paragraph" "x"; literal "paragraph" "y"])
    by (repeat constructor; simpl; tauto).
  split; [exact H|].
  exact (replaceCode_missing_node 0 7 "root" "<pre/>" _ H).
Defined.

(** The sets of a document after the first block of [sampleRenderer]. *)
Definition sampleAdded : Added :=
  {| addedStyles := {["base{}"; "theme{}"; "pre{}"]};
     addedJsModules := {["copy()"]} |}.

Definition sampleAst : Parents :=
  {| tagName := "div"; properties := [];
     children := [Elem "pre" [] [Text "b"]] |}.

Lemma assembleGroup_nothing_new_witness :
  saturated sampleRenderer sampleAdded
  ∧ (∀ x, x ∈ ["pre{}"] → x ∈ addedStyles sampleAdded)
  ∧ assembleGroup sampleRenderer (sampleAst, ["pre{}"]) sampleAdded
    = (sampleAst, sampleAdded).
Proof.
  assert (H1 : saturated sampleRenderer sampleAdded).
  { unfold saturated, sampleAdded. simpl. split_and!; set_solver. }
  assert (H2 : ∀ x, x ∈ ["pre{}"] → x ∈ addedStyles sampleAdded).
  { unfold sampleAdded. simpl. set_solver. }
  split; [exact H1|]. split; [exact H2|].
  exact (assembleGroup_nothing_new sampleRenderer sampleAst ["pre{}"]
           sampleAdded H1 H2).
Defined.

(** An instance of [createRenderer]: theme objects and themes are strings,
    the only bundled theme is ["dracula"], the empty theme object is
    refused, and the [ExpressiveCode] instance is the list of its themes. *)
Definition sampleLoadShikiTheme (name : string) : error + string :=
  if bool_decide (name = "dracula") then inr "dracula.json"
  else inl ("unknown theme " +:+ name).

Definition sampleNewTheme (object : string) : error + string :=
  if bool_decide (object = "") then inl "invalid theme"
  else inr ("theme of " +:+ object).

Definition sampleCreateRenderer
    (options : option (RendererOptions string string unit))
    : (list error + RemarkExpressiveCodeRenderer)
      * RendererOptions string string unit :=
  createRenderer string string unit
    (ExpressiveCodeConfig string string unit)
    sampleLoadShikiTheme sampleNewTheme (λ cfg, inr cfg)
    (λ _, inr "base{}") (λ _, inr "theme{}") (λ _, inr ["copy()"])
    (λ _, ec_render sampleRenderer) tt options.

Definition sampleOptions : RendererOptions string string unit :=
  {| opt_theme := Some (inr [Some (ShikiThemeName "dracula");
                             Some (ThemeInstance "mine")]);
     opt_themes := None;
     opt_other := tt |}.

Definition failingOptions : RendererOptions string string unit :=
  {| opt_theme := None;
     opt_themes := Some [Some (ShikiThemeName "nope");
                         Some (ThemeObjectInput "")];
     opt_other := tt |}.

(** [sampleOptions] after the call: the deprecated [theme] has become
    [themes]. *)
Definition transferredOptions : RendererOptions string string unit :=
  {| opt_theme := None;
     opt_themes := Some [Some (ShikiThemeName "dracula");
                         Some (ThemeInstance "mine")];
     opt_other := tt |}.

Lemma sampleCreateRenderer_run :
  sampleCreateRenderer (Some sampleOptions)
  = (inr sampleRenderer, transferredOptions).
Proof. reflexivity. Qed.

Lemma createRenderer_passes_themes_in_order_witness :
  sampleCreateRenderer (Some sampleOptions)
  = (inr sampleRenderer, transferredOptions)
  ∧ ∃ cfg : ExpressiveCodeConfig string string unit,
      cfg_themes cfg = Some [Some "theme of dracula.json"; Some "mine"].
Proof.
  split; [exact sampleCreateRenderer_run|].
  destruct (createRenderer_passes_themes_in_order string string unit
              (ExpressiveCodeConfig string string unit)
              sampleLoadShikiTheme sampleNewTheme (λ cfg, inr cfg)
              (λ _, inr "base{}") (λ _, inr "theme{}") (λ _, inr ["copy()"])
              (λ _, ec_render sampleRenderer) tt
              (Some sampleOptions) sampleRenderer transferredOptions
              sampleCreateRenderer_run)
    as (cfg & ec & _ & _ & _ & _ & _ & _ & _ & loaded & Hloaded & Hall & _).
  exists cfg. rewrite Hloaded. f_equal.
  apply Forall2_cons_inv_l in Hall as (l1 & rest & H1 & Hall & ->).
  apply Forall2_cons_inv_l in Hall as (l2 & rest' & H2 & Hall & ->).
  apply Forall2_nil_inv_l in Hall as ->.
  vm_compute in H1, H2. by simplify_eq.
Defined.

Lemma createRenderer_rejects_when_a_theme_fails_witness :
  (sampleCreateRenderer (Some failingOptions)).1 = inl ["invalid theme"].
Proof.
  destruct (createRenderer_rejects_when_a_theme_fails string string unit
              (ExpressiveCodeConfig string string unit)
              sampleLoadShikiTheme sampleNewTheme (λ cfg, inr cfg)
              (λ _, inr "base{}") (λ _, inr "theme{}") (λ _, inr ["copy()"])
              (λ _, ec_render sampleRenderer) tt failingOptions
              [Some (ShikiThemeName "nope");
               Some (ThemeObjectInput "")]
              (Some (ShikiThemeName "nope"))
              "unknown theme nope" eq_refl)
    as (es & Hes & _ & _ & Hfirst); [left | reflexivity |].
  rewrite (Hfirst [Some (ShikiThemeName "nope")] "" []
             "invalid theme" eq_refl eq_refl) in Hes.
  - exact Hes.
  - apply Forall_singleton. intros object' Heq. discriminate Heq.
Defined.

End Remark.
